(** * Uni10: the numpy tensor shim, the blocked GEMM and the symmetric
      tensor layout

    A shallow embedding of
    - [src/uni10/Swig/nptensor.py.in] (class [NPTensor], [contractNPT],
      [mergeNPT], [launchNPT], [exportElem]),
    - the blocked device multiply [myDgemm] with [getRows], [getCols] and
      [putBack],
    - and, where only declarations are available ([UniTensor.h],
      [Network.h]), of the behaviour the specification gives them. *)

From Stdlib Require Import ZArith Lia Reals Lra.
From Stdlib Require PrimFloat.
From stdpp Require Import gmap list sorting strings.

Local Open Scope Z_scope.
Set Warnings "-clear-no-such-hyp".

(** ** Python exceptions and the error monad *)

Inductive exn : Type :=
| AssertionError
| ValueError
| IndexError
| KeyError
| AttributeError
| UnboundLocalError
| RuntimeError
(* the error kinds of the core, by meaning *)
| BondMismatch
| LabelError
| SymmetryViolation
| InvalidNetwork
| UnboundTensor.

Global Instance exn_eq_dec : EqDecision exn.
Proof. solve_decision. Defined.

Inductive result (A : Type) : Type :=
| Ok (a : A)
| Raise (e : exn).
Arguments Ok {A} a.
Arguments Raise {A} e.

Definition rbind {A B} (c : result A) (k : A → result B) : result B :=
  match c with
  | Ok a => k a
  | Raise e => Raise e
  end.

Global Instance result_eq_dec {A} `{EqDecision A} : EqDecision (result A).
Proof. solve_decision. Defined.

Global Instance result_bind : MBind result := λ A B k c, rbind c k.
Global Instance result_ret : MRet result := @Ok.

(** [assert cond] of Python. *)
Definition py_assert (b : bool) : result unit :=
  if b then Ok tt else Raise AssertionError.

(** [xs[i]] on a Python sequence, for a non-negative index. *)
Definition py_index {A} (xs : list A) (i : nat) : result A :=
  match xs !! i with
  | Some x => Ok x
  | None => Raise IndexError
  end.

(** [d[k]] on a Python dict. *)
Definition py_getitem {V} (d : gmap Z V) (k : Z) : result V :=
  match d !! k with
  | Some v => Ok v
  | None => Raise KeyError
  end.

(** A list comprehension whose body may raise. *)
Fixpoint mapR {A B} (f : A → result B) (xs : list A) : result (list B) :=
  match xs with
  | [] => Ok []
  | x :: xs' => y ← f x ; ys ← mapR f xs' ; Ok (y :: ys)
  end.

(** [xrange(n)] and [xrange(a, b)]. *)
Definition xrange (n : nat) : list nat := seq 0 n.
Definition xrange2 (a b : nat) : list nat := seq a (b - a).

(** ** numpy arrays

    An [ndarray] is a buffer seen through a shape and strides (counted in
    elements).  [transpose] returns a view: it permutes shape and strides
    and leaves the buffer alone. *)

Section NDArray.
Context {E : Type}.

Record ndarray : Type := mk_ndarray {
  buf : list E;
  shape : list nat;
  strides : list nat;
  cplx : bool                (* dtype is complex128 *)
}.

Definition ndim (a : ndarray) : nat := length (shape a).

(** Strides of a C-contiguous array of the given shape. *)
Fixpoint c_strides (sh : list nat) : list nat :=
  match sh with
  | [] => []
  | _ :: sh' => foldr Nat.mul 1%nat sh' :: c_strides sh'
  end.

Definition size_of (sh : list nat) : nat := foldr Nat.mul 1%nat sh.

(** The multi-indices of a shape, in C (row-major) order. *)
Fixpoint indices (sh : list nat) : list (list nat) :=
  match sh with
  | [] => [[]]
  | d :: sh' => i ← seq 0 d; (i ::.) <$> indices sh'
  end.

Fixpoint flat_pos (idx st : list nat) : nat :=
  match idx, st with
  | i :: idx', s :: st' => (i * s + flat_pos idx' st')%nat
  | _, _ => 0%nat
  end.

Definition in_shape (idx sh : list nat) : Prop := Forall2 lt idx sh.

Global Instance in_shape_dec idx sh : Decision (in_shape idx sh).
Proof. unfold in_shape. apply _. Defined.

(** [a[idx]] for a full multi-index. *)
Definition get (a : ndarray) (idx : list nat) : option E :=
  if decide (in_shape idx (shape a)) then buf a !! flat_pos idx (strides a)
  else None.

Definition getR (a : ndarray) (idx : list nat) : result E :=
  match get a idx with
  | Some x => Ok x
  | None => Raise IndexError
  end.

(** [a.ravel()]: the elements in C order of the logical indices. *)
Definition ravel (a : ndarray) : result (list E) :=
  mapR (getR a) (indices (shape a)).

(** Every index of the shape falls inside the buffer, one stride per
    axis: what numpy guarantees of every array it hands out. *)
Definition valid (a : ndarray) : Prop :=
  length (strides a) = ndim a ∧
  Forall (λ idx, (flat_pos idx (strides a) < length (buf a))%nat)
         (indices (shape a)).

Global Instance valid_dec a : Decision (valid a).
Proof. unfold valid. apply _. Defined.

(** [np.asarray(flat).reshape(shape)] on a flat buffer. *)
Definition reshape (flat : list E) (c : bool) (sh : list nat) : result ndarray :=
  if decide (length flat = size_of sh)
  then Ok (mk_ndarray flat sh (c_strides sh) c)
  else Raise ValueError.

(** [xs[a] for a in axes]: picking the entries of a list. *)
Definition gather {A} (xs : list A) (axes : list nat) : option (list A) :=
  mapM (λ a, xs !! a) axes.

(** [a.transpose(axes)]: the axes must be a permutation of
    [0 .. ndim-1], else numpy raises [ValueError]. *)
Definition transpose (a : ndarray) (axes : list nat) : result ndarray :=
  if decide (length axes = ndim a ∧ NoDup axes) then
    match gather (shape a) axes, gather (strides a) axes with
    | Some sh, Some st => Ok (mk_ndarray (buf a) sh st (cplx a))
    | _, _ => Raise ValueError
    end
  else Raise ValueError.

End NDArray.
Arguments ndarray E : clear implicits.

(** ** Quantum numbers, bonds and the tensor seen from Python

    [Qnum.h] and [Bond.h] are not part of the tree; [UniTensor.h] declares
    the class and its accessors. *)

(** Modelled from the spec: [Qnum], an abelian charge, here a U(1) charge
    with a parity; equality, addition, negation. *)
Abbreviation Qnum := (Z * bool)%type.

Definition Qnum0 : Qnum := (0, false).
Definition qadd (a b : Qnum) : Qnum := (a.1 + b.1, xorb a.2 b.2).
Definition qneg (a : Qnum) : Qnum := (- a.1, a.2).

Inductive bondType : Type := BD_IN | BD_OUT.

Global Instance bondType_eq_dec : EqDecision bondType.
Proof. solve_decision. Defined.

(** Modelled from the spec: [Bond], a direction and an ordered sequence of
    (charge, multiplicity) states. *)
Record Bond : Type := mk_Bond {
  btype : bondType;
  states : list (Qnum * nat)
}.

Global Instance Bond_eq_dec : EqDecision Bond.
Proof. solve_decision. Defined.

(** [Bond::dim()]: the sum of the multiplicities. *)
Definition dim (b : Bond) : nat := sum_list (snd <$> states b).

(** [Bond(tp, d)]: [d] states of trivial charge. *)
Definition Bond_of_dim (tp : bondType) (d : nat) : Bond :=
  mk_Bond tp [(Qnum0, d)].

Section UniTensor.
Context {E : Type}.

(** The private members of [class UniTensor] that the Python side reads
    through the accessors: [typeID()], [bond()], [label()], [inBondNum()],
    [blockQnum()] (the keys of [blocks], ascending) with the block
    dimensions, the element array and the name. *)
Record UniTensor : Type := mk_UniTensor {
  u_typeID : nat;                         (* 0 empty, 1 real, 2 complex *)
  u_bonds : list Bond;
  u_labels : list Z;
  u_RBondNum : nat;
  u_blocks : list (Qnum * (nat * nat));   (* charge, rows, columns *)
  u_elem : list E;
  u_name : string
}.

Definition bondNum (u : UniTensor) : nat := length (u_bonds u).
Definition inBondNum (u : UniTensor) : nat := u_RBondNum u.
Definition blockQnum (u : UniTensor) : list Qnum := fst <$> u_blocks u.
Definition elemNum (u : UniTensor) : nat := length (u_elem u).

(** [exportElem(uobj)]: no branch binds [npa] for an empty tensor. *)
Definition exportElem (u : UniTensor) : result (list E * bool) :=
  if decide (u_typeID u = 1%nat) then Ok (u_elem u, false)
  else if decide (u_typeID u = 2%nat) then Ok (u_elem u, true)
  else Raise UnboundLocalError.

(** Some bond carries a charge other than [Qnum(0)]. *)
Definition charged (u : UniTensor) : Prop :=
  ∃ b q m, b ∈ u_bonds u ∧ (q, m) ∈ states b ∧ q ≠ Qnum0.

(** Two tensors that differ at most in their bonds, and there at most in
    the directions and the charges: the dimensions are the same. *)
Definition same_but_charges (u u' : UniTensor) : Prop :=
  u_typeID u' = u_typeID u ∧ dim <$> u_bonds u' = dim <$> u_bonds u ∧
  u_labels u' = u_labels u ∧ u_RBondNum u' = u_RBondNum u ∧
  u_blocks u' = u_blocks u ∧ u_elem u' = u_elem u.

End UniTensor.
Arguments UniTensor E : clear implicits.

(** [axes] sends position [i] of [l1] to the position of the same entry in
    [l2]. *)
Definition pos_of {A} (l1 l2 : list A) (axes : list nat) : Prop :=
  length axes = length l1 ∧
  ∀ i x, l1 !! i = Some x → ∃ j, axes !! i = Some j ∧ l2 !! j = Some x.

(** [axes] lists every axis [0 .. n-1] once. *)
Definition is_perm (axes : list nat) (n : nat) : Prop :=
  length axes = n ∧ NoDup axes ∧ Forall (λ a, (a < n)%nat) axes.

(** The multi-index seen through [axes]: entry [k] is [idx[axes[k]]]. *)
Definition gatherD (axes idx : list nat) : list nat :=
  (λ a, default 0%nat (idx !! a)) <$> axes.

(** The regrouping [contractNPT] applies to an outer product: of a list
    whose first [n1] entries belong to the first tensor, the first [a]
    entries of the first tensor, the first [b] of the second, then the
    rest of the first and of the second. *)
Definition in_out_order (a b n1 : nat) {A} (l : list A) : list A :=
  take a (take n1 l) ++ take b (drop n1 l) ++
  drop a (take n1 l) ++ drop b (drop n1 l).

(** ** class NPTensor *)

Section NPTensor.
Context {E : Type}.

Record NPTensor : Type := mk_NPTensor {
  arr : ndarray E;
  label : list Z;
  bn : nat;
  ibn : nat;
  lbmap : gmap Z nat
}.

(** The body of [mapLabelBond]: [for i in xrange(bn): lbmap[label[i]] = i]. *)
Fixpoint mapLabelBond_loop (lab : list Z) (rng : list nat) (m : gmap Z nat)
  : result (gmap Z nat) :=
  match rng with
  | [] => Ok m
  | i :: rng' => x ← py_index lab i ; mapLabelBond_loop lab rng' (<[x:=i]> m)
  end.

Definition mapLabelBond (a : ndarray E) (lab : list Z) (n : nat) (k : nat)
  : result NPTensor :=
  m ← mapLabelBond_loop lab (xrange n) ∅ ;
  Ok (mk_NPTensor a lab n k m).

(** The number of bonds of the tensor: the rank of the array. *)
Definition bondNum_of (t : NPTensor) : nat := ndim (arr t).

(** [setLabel]: only the length is asserted. *)
Definition setLabel (t : NPTensor) (lab : list Z) : result NPTensor :=
  py_assert (bool_decide (length lab = ndim (arr t)));;
  mapLabelBond (arr t) lab (bn t) (ibn t).

Definition same_set (l1 l2 : list Z) : bool :=
  bool_decide (list_to_set l1 =@{gset Z} list_to_set l2).

(** [permute(label, ibn)]; [ibn = -1] keeps the current split. *)
Definition permute (t : NPTensor) (lab : list Z) (k : Z) : result NPTensor :=
  py_assert (bool_decide (length lab = length (label t)) && same_set lab (label t));;
  shape_new ← mapR (λ i, x ← py_index lab i ; py_getitem (lbmap t) x) (xrange (bn t)) ;
  npt ← transpose (arr t) shape_new ;
  py_assert (bool_decide (length lab = ndim npt));;
  mapLabelBond npt lab (bn t) (if bool_decide (0 ≤ k) then Z.to_nat k else ibn t).

(** *** [NPTensor.__new__]

    The constructor accepts a [UniTensor] (the [try] block), or, when the
    argument has no [blockQnum] ([except AttributeError]), an array: a
    bare [ndarray], or an [NPTensor] whose attributes are taken over. *)
Inductive pyobj : Type :=
| PyUni (u : UniTensor E)
| PyArr (a : ndarray E)
| PyNPT (t : NPTensor).

Definition NPTensor_new (o : pyobj) : result NPTensor :=
  match o with
  | PyUni u =>
      let qns := blockQnum u in
      py_assert (bool_decide (length qns = 1%nat ∧ qns !! 0%nat = Some Qnum0));;
      let bds := u_bonds u in
      '(npa, c) ← exportElem u;
      nda ← reshape npa c (dim <$> bds);
      mapLabelBond nda (u_labels u) (bondNum u) (inBondNum u)
  | PyArr a =>
      mapLabelBond a (Z.of_nat <$> seq 0 (ndim a)) (ndim a) (ndim a)
  | PyNPT t =>
      mapLabelBond (arr t) (label t) (bn t) (ibn t)
  end.

(** *** [np.tensordot]

    [tensordot a b axes_a axes_b] sums over the paired axes.  The axes to
    sum over go last in [a] and first in [b]; both are read as matrices
    and multiplied; [dot] is the inner product of the matrix kernel. *)
Context (dot : list E → list E → E).

Fixpoint shape_match (sa sb : list nat) (axs : list (nat * nat)) : result bool :=
  match axs with
  | [] => Ok true
  | (x, y) :: axs' =>
      da ← py_index sa x;
      db ← py_index sb y;
      if decide (da = db) then shape_match sa sb axs' else Ok false
  end.

Definition notin (n : nat) (axes : list nat) : list nat :=
  filter (λ k, k ∉ axes) (seq 0 n).

Definition tensordot (a b : ndarray E) (axes_a axes_b : list nat)
  : result (ndarray E) :=
  equal ← (if decide (length axes_a = length axes_b)
           then shape_match (shape a) (shape b) (zip axes_a axes_b)
           else Ok false);
  if negb equal then Raise ValueError else
  let notin_a := notin (ndim a) axes_a in
  let notin_b := notin (ndim b) axes_b in
  at_ ← transpose a (notin_a ++ axes_a);
  bt ← transpose b (axes_b ++ notin_b);
  let olda := take (length notin_a) (shape at_) in
  let inner := drop (length notin_a) (shape at_) in
  let oldb := drop (length axes_b) (shape bt) in
  res ← mapR (λ fa,
           mapR (λ fb,
             va ← mapR (λ c, getR at_ (fa ++ c)) (indices inner);
             vb ← mapR (λ c, getR bt (c ++ fb)) (indices inner);
             Ok (dot va vb)) (indices oldb)) (indices olda);
  Ok (mk_ndarray (concat res) (olda ++ oldb) (c_strides (olda ++ oldb))
        (cplx a || cplx b)).

(** *** [contractNPT] *)

Definition set_ibn (t : NPTensor) (k : nat) : NPTensor :=
  mk_NPTensor (arr t) (label t) (bn t) k (lbmap t).

Definition contractNPT (t1 t2 : NPTensor) : result NPTensor :=
  let lab1 := label t1 in
  let lab2 := label t2 in
  let lab_common := elements (list_to_set lab1 ∩ list_to_set lab2 : gset Z) in
  let lab_all := lab1 ++ lab2 in
  let lab_final := filter (λ x, x ∉ lab_common) lab_all in
  let nlc := length lab_common in
  if decide (0 < nlc)%nat then
    idx1 ← mapR (py_getitem (lbmap t1)) lab_common;
    idx2 ← mapR (py_getitem (lbmap t2)) lab_common;
    d ← tensordot (arr t1) (arr t2) idx1 idx2;
    npt ← NPTensor_new (PyArr d);
    npt ← setLabel npt lab_final;
    Ok (set_ibn npt (length lab1 - nlc))
  else
    d ← tensordot (arr t1) (arr t2) [] [];
    npt ← NPTensor_new (PyArr d);
    npt ← setLabel npt lab_final;
    l1i ← mapR (py_index lab1) (xrange (ibn t1));
    l2i ← mapR (py_index lab2) (xrange (ibn t2));
    l1o ← mapR (py_index lab1) (xrange2 (ibn t1) (bn t1));
    l2o ← mapR (py_index lab2) (xrange2 (ibn t2) (bn t2));
    let lab_ot := l1i ++ l2i ++ l1o ++ l2o in
    permute npt lab_ot (Z.of_nat (ibn t1 + ibn t2)).

(** *** [toUniTensor]

    Modelled from the spec: the [UniTensor] constructor from bonds,
    [setElem] and [UniTensor::setLabel] are not part of the tree.  A
    tensor of trivially charged bonds has the one block of charge
    [Qnum(0)], rows over the incoming and columns over the outgoing
    bonds; [setLabel] wants one label per bond, all distinct. *)
Definition UniTensor_setLabel (u : UniTensor E) (lab : list Z)
  : result (UniTensor E) :=
  if decide (length lab = bondNum u ∧ NoDup lab)
  then Ok (mk_UniTensor (u_typeID u) (u_bonds u) lab (u_RBondNum u)
             (u_blocks u) (u_elem u) (u_name u))
  else Raise LabelError.

Definition toUniTensor (t : NPTensor) : result (UniTensor E) :=
  bds ← mapR (λ i, d ← py_index (shape (arr t)) i;
                   Ok (Bond_of_dim (if decide (i < ibn t)%nat then BD_IN
                                    else BD_OUT) d))
             (xrange (bn t));
  el ← ravel (arr t);
  let r := length (filter (λ b, btype b = BD_IN) bds) in
  let ut := mk_UniTensor (if cplx (arr t) then 2 else 1)%nat bds
              (Z.of_nat <$> seq 0 (length bds)) r
              [(Qnum0, (size_of (dim <$> take r bds),
                        size_of (dim <$> drop r bds)))]
              el EmptyString in
  UniTensor_setLabel ut (label t).

(** *** The contraction tree seen from Python *)

(** The members of [class Node_t]: the tensor of a leaf ([T != NULL]),
    labels, bonds, the element count, the cost [point] and the
    children. *)
#[warnings="-register-all"]
Inductive Node : Type :=
| mk_Node (T : option (UniTensor E)) (labels : list Z) (bonds : list Bond)
    (nelem : Z) (point : Z) (nleft nright : option Node).

Definition node_T (nd : Node) : option (UniTensor E) :=
  match nd with mk_Node T _ _ _ _ _ _ => T end.
Definition node_labels (nd : Node) : list Z :=
  match nd with mk_Node _ l _ _ _ _ _ => l end.
Definition node_bonds (nd : Node) : list Bond :=
  match nd with mk_Node _ _ b _ _ _ _ => b end.
Definition node_elemNum (nd : Node) : Z :=
  match nd with mk_Node _ _ _ n _ _ _ => n end.
Definition node_point (nd : Node) : Z :=
  match nd with mk_Node _ _ _ _ pt _ _ => pt end.

(** [isLeaf]: [not self.T == None]. *)
Definition isLeaf (nd : Node) : bool := bool_decide (is_Some (node_T nd)).

Definition Node_T (nd : Node) : result (UniTensor E) :=
  match node_T nd with
  | Some u => Ok u
  | None => Raise AttributeError
  end.

(** [mergeNPT]; a child that is [None] has no [isLeaf]. *)
Fixpoint mergeNPT (nd : Node) : result NPTensor :=
  match nd with
  | mk_Node _ _ _ _ _ nleft nright =>
      match nleft with
      | None => Raise AttributeError
      | Some ln =>
          if negb (isLeaf ln) then
            npt_l ← mergeNPT ln;
            match nright with
            | None => Raise AttributeError
            | Some rn =>
                if negb (isLeaf rn) then
                  npt_r ← mergeNPT rn;
                  contractNPT npt_l npt_r
                else
                  u ← Node_T rn;
                  npt_r ← NPTensor_new (PyUni u);
                  contractNPT npt_l npt_r
            end
          else
            match nright with
            | None => Raise AttributeError
            | Some rn =>
                if negb (isLeaf rn) then
                  npt_r ← mergeNPT rn;
                  u ← Node_T ln;
                  npt_l ← NPTensor_new (PyUni u);
                  contractNPT npt_l npt_r
                else
                  ul ← Node_T ln;
                  npt_l ← NPTensor_new (PyUni ul);
                  ur ← Node_T rn;
                  npt_r ← NPTensor_new (PyUni ur);
                  contractNPT npt_l npt_r
            end
      end
  end.

(** *** [class Network] and [launchNPT]

    The members of [Network] that [launchNPT] reads: [isLoaded()],
    [root], [getLabelTOUT()], [getInBondNumTOUT()]; the leaves, the swap
    lists and their flags are members it never touches. *)
Record Network : Type := mk_Network {
  load : bool;
  root : option Node;
  leafs : list Node;
  label_TOUT : list Z;
  ibn_TOUT : Z;
  swaps_arr : list (list (Z * Z));
  swapflags : list bool
}.

(** [Network::construct] is only declared: it is a parameter, a state
    change that may raise. *)
Context (construct : Network → Network * result unit).

Definition set_name (u : UniTensor E) (name : string) : UniTensor E :=
  mk_UniTensor (u_typeID u) (u_bonds u) (u_labels u) (u_RBondNum u)
    (u_blocks u) (u_elem u) name.

Definition launchNPT (net : Network) (to_ut : bool) (name : string)
  : Network * result (UniTensor E + NPTensor) :=
  let '(net1, c) := if load net then (net, Ok tt) else construct net in
  (net1,
   c;;
   rt ← match root net1 with Some nd => Ok nd | None => Raise AttributeError end;
   npt ← mergeNPT rt;
   npt ← (if decide (0 < length (label_TOUT net1))%nat
          then permute npt (label_TOUT net1) (ibn_TOUT net1)
          else Ok npt);
   if to_ut then
     ut ← toUniTensor npt;
     Ok (inl (set_name ut name))
   else Ok (inr npt)).

(** [n] launches in a row, the network state threaded through them; the
    results in the order of the launches. *)
Fixpoint launch_seq (n : nat) (net : Network) (to_ut : bool) (name : string)
  : Network * list (result (UniTensor E + NPTensor)) :=
  match n with
  | O => (net, [])
  | S n' =>
      let '(net1, r) := launchNPT net to_ut name in
      let '(net2, rs) := launch_seq n' net1 to_ut name in
      (net2, r :: rs)
  end.

(** What [__new__], [setLabel] and [permute] establish between the fields:
    one stride and one label per axis, [bn] the rank, and [lbmap] the
    dictionary [mapLabelBond] builds from the labels. *)
Definition consistent (t : NPTensor) : Prop :=
  length (strides (arr t)) = ndim (arr t) ∧
  bn t = ndim (arr t) ∧
  length (label t) = bn t ∧
  mapLabelBond_loop (label t) (xrange (bn t)) ∅ = Ok (lbmap t).

End NPTensor.
Arguments NPTensor E : clear implicits.
Arguments Node E : clear implicits.
Arguments Network E : clear implicits.

(** ** The contraction planner

    [Network.h] declares [Node_t::metric], [Node_t::contract] and
    [Network_t::construct]; their bodies are not part of the tree. *)

Section Planner.
Context {E : Type}.
Implicit Types a b : Node E.

(** Modelled from the spec: the element count of a node, computed from
    its bond dimensions. *)
Definition cal_elemNum (bds : list Bond) : Z :=
  foldr Z.mul 1 ((λ bd, Z.of_nat (dim bd)) <$> bds).

Definition shared_labels a b : list Z :=
  filter (λ x, x ∈ node_labels b) (node_labels a).

(** Modelled from the spec: the merged node keeps the bonds whose labels
    are in one of the two label sets only. *)
Definition remaining a b : list (Z * Bond) :=
  filter (λ lb, lb.1 ∉ node_labels b) (zip (node_labels a) (node_bonds a)) ++
  filter (λ lb, lb.1 ∉ node_labels a) (zip (node_labels b) (node_bonds b)).

Definition merged_elemNum a b : Z := cal_elemNum (snd <$> remaining a b).

(** Modelled from the spec: [Node::metric],
    [point = elemNum(merged) - max(elemNum(self), elemNum(other))]. *)
Definition metric a b : Z :=
  merged_elemNum a b - Z.max (node_elemNum a) (node_elemNum b).

(** Modelled from the spec: [Node::contract], the internal node over
    [a] and [b]. *)
Definition Node_contract a b : Node E :=
  mk_Node None (fst <$> remaining a b) (snd <$> remaining a b)
    (merged_elemNum a b) (metric a b) (Some a) (Some b).

Definition leaf_of (u : UniTensor E) : Node E :=
  mk_Node (Some u) (u_labels u) (u_bonds u) (cal_elemNum (u_bonds u)) 0
    None None.

(** The pairs of positions [i < j] below [n], the earlier one first. *)
Definition pairs (n : nat) : list (nat * nat) :=
  i ← seq 0 n; (λ j, (i, j)) <$> seq (S i) (n - S i).

(** The roots at the two positions share a label. *)
Definition shares (roots : list (Node E)) (ij : nat * nat) : Prop :=
  match roots !! ij.1, roots !! ij.2 with
  | Some a, Some b => shared_labels a b ≠ []
  | _, _ => False
  end.

Global Instance shares_dec roots ij : Decision (shares roots ij).
Proof. unfold shares. destruct (roots !! ij.1), (roots !! ij.2); apply _. Defined.

Definition candidates (roots : list (Node E)) : list (nat * nat) :=
  filter (shares roots) (pairs (length roots)).

(** What a pair is chosen by: its metric, then the element counts of the
    two roots together. *)
Definition key (roots : list (Node E)) (ij : nat * nat) : Z * Z :=
  match roots !! ij.1, roots !! ij.2 with
  | Some a, Some b => (metric a b, node_elemNum a + node_elemNum b)
  | _, _ => (0, 0)
  end.

Definition key_lt (k1 k2 : Z * Z) : bool :=
  (k1.1 <? k2.1) || ((k1.1 =? k2.1) && (k1.2 <? k2.2)).

Definition better (roots : list (Node E)) (best : option (nat * nat))
    (c : nat * nat) : option (nat * nat) :=
  match best with
  | None => Some c
  | Some b => if key_lt (key roots c) (key roots b) then Some c else Some b
  end.

(** Modelled from the spec: the pair a greedy step merges.  The
    candidates are tried with the earlier positions first and a later one
    replaces the best so far only when it is strictly better. *)
Definition best_pair (roots : list (Node E)) : option (nat * nat) :=
  foldl (better roots) None (candidates roots).

(** Modelled from the spec: one greedy step; the merged root takes the
    place of the earlier of the two roots. *)
Definition greedy_step (roots : list (Node E)) : option (list (Node E)) :=
  '(i, j) ← best_pair roots;
  a ← roots !! i; b ← roots !! j;
  Some (<[i := Node_contract a b]> (delete j roots)).

Fixpoint greedy (fuel : nat) (roots : list (Node E)) : list (Node E) :=
  match fuel with
  | O => roots
  | S fuel' =>
      match greedy_step roots with
      | Some roots' => greedy fuel' roots'
      | None => roots
      end
  end.

(** Modelled from the spec: trees left without a common label are
    combined by outer product, in their order. *)
Definition combine_rest (roots : list (Node E)) : option (Node E) :=
  match roots with
  | [] => None
  | r :: rs => Some (foldl Node_contract r rs)
  end.

Definition build_tree (lfs : list (Node E)) : option (Node E) :=
  combine_rest (greedy (length lfs) lfs).

(** Modelled from the spec: every label is on two leaves, or on one leaf
    and then among the output labels when there are any. *)
Definition labels_paired (net : Network E) : Prop :=
  let all := leafs net ≫= node_labels in
  Forall (λ x, length (filter (λ y, y = x) all) = 2%nat ∨
               (length (filter (λ y, y = x) all) = 1%nat ∧
                (label_TOUT net = [] ∨ x ∈ label_TOUT net))) all.

(** Modelled from the spec: [Network::construct]: check the labels, build
    the tree, keep it and mark the network loaded. *)
Definition construct_spec (net : Network E) : Network E * result unit :=
  if decide (labels_paired net) then
    match build_tree (leafs net) with
    | Some t =>
        (mk_Network true (Some t) (leafs net) (label_TOUT net) (ibn_TOUT net)
           (swaps_arr net) (swapflags net), Ok tt)
    | None => (net, Raise InvalidNetwork)
    end
  else (net, Raise InvalidNetwork).

(** Earlier in the order of [pairs]. *)
Definition pair_lt (x y : nat * nat) : Prop :=
  (x.1 < y.1)%nat ∨ (x.1 = y.1 ∧ (x.2 < y.2)%nat).

End Planner.

(** The dimension of the bond labelled [x], and its direction by the rule
    of [toUniTensor]: the first [ibn] bonds are incoming. *)
Definition dim_of {E} (t : NPTensor E) (x : Z) : option nat :=
  i ← lbmap t !! x; shape (arr t) !! i.

Definition bond_dir {E} (t : NPTensor E) (x : Z) : option bondType :=
  i ← lbmap t !! x;
  Some (if decide (i < ibn t)%nat then BD_IN else BD_OUT).

(** ** The norm

    Modelled from the spec: [UniTensor::norm] is only declared in
    [UniTensor.h]; the Frobenius norm is the square root of the sum of the
    squared moduli of the elements.  In exact arithmetic, over any
    payload: [sq x] is the squared modulus of an element, [x * x] for a
    real and [re * re + im * im] for a complex one, a pair of reals. *)
Definition norm_with {E} (sq : E → R) (l : list E) : R :=
  sqrt (foldr Rplus 0%R (sq <$> l)).
Definition sq_real (x : R) : R := (x * x)%R.
Definition sq_complex (z : R * R) : R := (z.1 * z.1 + z.2 * z.2)%R.

(** The same sum over the doubles of the program: binary64, the squares
    added up in element order, one rounding per operation. *)
Module FloatNorm.
Import PrimFloat.

Definition fsum_sq (l : list float) : float :=
  foldl (λ s x, (s + x * x)%float) 0%float l.
Definition fnorm (l : list float) : float := sqrt (fsum_sq l).

Definition NPTensor_fnorm (t : NPTensor float) : result float :=
  l ← ravel (arr t); Ok (fnorm l).

(** A 2 by 3 matrix of doubles with one large entry. *)
Definition big : float := 100000000%float.
Definition t_F23 : NPTensor float :=
  mk_NPTensor
    (mk_ndarray [1; 1; 1; big; 1; 1]%float [2; 3]%nat [3; 1]%nat false)
    [0; 1] 2 1 (list_to_map [(0, 0%nat); (1, 1%nat)]).

End FloatNorm.

(** ** The blocked multiply [myDgemm]

    [A] is [M] by [K], [B] is [K] by [N], [C] is [M] by [N], all row-major.
    The bits of [how] say which of [A] (4), [B] (2), [C] (1) live on the
    host; host and device memory are both lists here, a pointer is a
    buffer with an offset, and a copy between them is a copy. *)

Module Dgemm.

Inductive mmtype : Type :=
| MM_DDD | MM_DDH | MM_DHD | MM_DHH | MM_HDD | MM_HDH | MM_HHD | MM_HHH.

Definition mm_code (how : mmtype) : Z :=
  match how with
  | MM_DDD => 0 | MM_DDH => 1 | MM_DHD => 2 | MM_DHH => 3
  | MM_HDD => 4 | MM_HDH => 5 | MM_HHD => 6 | MM_HHH => 7
  end.

(** [how & b] as a condition. *)
Definition has_bit (how : mmtype) (b : Z) : bool :=
  negb (Z.land (mm_code how) b =? 0).

(** [int] is 32 bits wide: every operation wraps. *)
Definition INT_MAX : Z := 2 ^ 31 - 1.
Definition wrap (x : Z) : Z := (x + 2 ^ 31) `mod` 2 ^ 32 - 2 ^ 31.
Definition iadd (a b : Z) : Z := wrap (a + b).
Definition imul (a b : Z) : Z := wrap (a * b).
Definition idiv (a b : Z) : Z := wrap (a ÷ b).
Definition imod (a b : Z) : Z := Z.rem a b.

(** An [int] used as a size or added to a pointer; a negative value does
    not name a place in the buffer. *)
Definition to_size (z : Z) : option nat :=
  if decide (0 ≤ z) then Some (Z.to_nat z) else None.
Definition ptr_add (base : nat) (z : Z) : option nat :=
  to_size (Z.of_nat base + z).

(** [rows = pM + (M % p) * ((i + 1) / p)], and [cols] likewise. *)
Definition block_span (p M : Z) (i : nat) : Z :=
  iadd (idiv M p) (imul (imod M p) (idiv (iadd (Z.of_nat i) 1) p)).

Section MyDgemm.
Context {E : Type}.
(** The inner product of the device kernel, and the contents of freshly
    allocated memory. *)
Context (dot : list E → list E → E) (alloc : nat → list E).

(** [memcpy(dst + doff, src + soff, n)]; both ranges must lie inside
    their buffers. *)
Definition memcpy (dst : list E) (doff : nat) (src : list E) (soff n : nat)
  : option (list E) :=
  if decide (soff + n ≤ length src ∧ doff + n ≤ length dst)%nat
  then Some (list_inserts doff (take n (drop soff src)) dst)
  else None.

(** [for (pos = 0; pos < n; pos++) memcpy(dst + doff, src + soff, w)]
    with offsets computed from [pos]. *)
Fixpoint copy_loop (poss : list nat) (doff soff : nat → option nat) (w : nat)
    (dst src : list E) : option (list E) :=
  match poss with
  | [] => Some dst
  | pos :: poss' =>
      d ← doff pos; s ← soff pos;
      dst' ← memcpy dst d src s w;
      copy_loop poss' doff soff w dst' src
  end.

(** [cublasDgemm('N', 'N', m, n, k, 1, a, lda, b, ldb, 0, c, ldc)] on
    column-major operands: column [j] of [c] receives, for each row [i],
    the inner product of row [i] of [a] and column [j] of [b].  With
    [beta = 0] the old contents of [c] are not read. *)
Definition cell (k : nat) (a : list E) (aoff lda : nat)
    (b : list E) (boff ldb : nat) (i j : nat) : option E :=
  va ← mapM (λ l, a !! (aoff + i + l * lda)%nat) (seq 0 k);
  vb ← mapM (λ l, b !! (boff + l + j * ldb)%nat) (seq 0 k);
  Some (dot va vb).

Definition cublasDgemm (m n k : Z) (a : list E) (aoff : nat) (lda : Z)
    (b : list E) (boff : nat) (ldb : Z) (c : list E) (coff : nat) (ldc : Z)
  : option (list E) :=
  m' ← to_size m; n' ← to_size n; k' ← to_size k;
  lda' ← to_size lda; ldb' ← to_size ldb; ldc' ← to_size ldc;
  prod ← mapM (λ j,
            mapM (λ i, cell k' a aoff lda' b boff ldb' i j) (seq 0 m'))
          (seq 0 n');
  copy_loop (seq 0 n') (λ j, Some (coff + j * ldc')%nat)
    (λ j, Some (j * m')%nat) m' c (concat prod).

Definition c_assert (b : bool) : option unit := if b then Some tt else None.

Definition getRows (M N start span : Z) (iA fA : list E) (how : mmtype)
  : option (list E) :=
  c_assert (bool_decide (iadd start span ≤ M));;
  if has_bit how 4 then
    off ← to_size (imul start N);
    n ← to_size (N * span);
    memcpy fA 0 iA off n
  else Some fA.

Definition getCols (M N start span : Z) (iB fB : list E) (how : mmtype)
  : option (list E) :=
  c_assert (bool_decide (iadd start span ≤ N));;
  w ← to_size span;
  let src_off := λ i : nat,
    o ← to_size (imul (Z.of_nat i) N); ptr_add o start in
  let dst_off := λ i : nat, to_size (imul (Z.of_nat i) span) in
  if has_bit how 2 then
    sz ← to_size (imul M span);
    tmp ← copy_loop (seq 0 (Z.to_nat M)) dst_off src_off w (alloc sz) iB;
    n ← to_size (M * span);
    memcpy fB 0 tmp 0 n
  else
    copy_loop (seq 0 (Z.to_nat M)) dst_off src_off w fB iB.

Definition putBack (startR startC spanR spanC M N : Z) (subC C : list E)
    (how : mmtype) : option (list E) :=
  w ← to_size spanC;
  let dst_off := λ pos : nat,
    o ← to_size (imul (iadd (Z.of_nat pos) startR) N); ptr_add o startC in
  let src_off := λ pos : nat, to_size (imul (Z.of_nat pos) spanC) in
  if has_bit how 1 then
    sz ← to_size (imul spanR spanC);
    n ← to_size (spanR * spanC);
    tmp ← memcpy (alloc sz) 0 subC 0 n;
    copy_loop (seq 0 (Z.to_nat spanR)) dst_off src_off w C tmp
  else
    copy_loop (seq 0 (Z.to_nat spanR)) dst_off src_off w C subC.

(** The memory [myDgemm] writes: the result and its three scratch
    buffers. *)
Record mem : Type := mk_mem {
  mC : list E;
  subA : list E;
  subB : list E;
  subC : list E
}.

(** The body of the double loop, for block [(i, j)]. *)
Definition block (p q M N K : Z) (A B : list E) (how : mmtype) (i j : nat)
    (st : mem) : option mem :=
  let pM := idiv M p in
  let qN := idiv N q in
  let rows := block_span p M i in
  let cols := block_span q N j in
  '(a, aoff, sA) ←
     (if has_bit how 4 then
        sA ← getRows M K (imul (Z.of_nat i) pM) rows A (subA st) how;
        Some (sA, 0%nat, sA)
      else
        off ← to_size (imul (imul (Z.of_nat i) pM) K);
        Some (A, off, subA st));
  '(b, sB) ←
     (if has_bit how 2 || bool_decide (1 < q) then
        sB ← getCols K N (imul (Z.of_nat j) qN) cols B (subB st) how;
        Some (sB, sB)
      else Some (B, subB st));
  if has_bit how 1 || bool_decide (1 < q) then
    sC ← cublasDgemm cols rows K b 0 cols a aoff K (subC st) 0 cols;
    C ← putBack (imul (Z.of_nat i) pM) (imul (Z.of_nat j) qN) rows cols M N
          sC (mC st) how;
    Some (mk_mem C sA sB sC)
  else
    off ← to_size (imul (imul (Z.of_nat i) pM) N);
    C ← cublasDgemm cols rows K b 0 cols a aoff K (mC st) off cols;
    Some (mk_mem C sA sB (subC st)).

Fixpoint run_blocks (p q M N K : Z) (A B : list E) (how : mmtype)
    (blocks : list (nat * nat)) (st : mem) : option mem :=
  match blocks with
  | [] => Some st
  | (i, j) :: blocks' =>
      st' ← block p q M N K A B how i j st;
      run_blocks p q M N K A B how blocks' st'
  end.

(** The pairs [(i, j)] in the order the two loops visit them. *)
Definition loop_order (p q : Z) : list (nat * nat) :=
  i ← seq 0 (Z.to_nat p); (λ j, (i, j)) <$> seq 0 (Z.to_nat q).

Definition myDgemm (p q M N K : Z) (A B C : list E) (how : mmtype)
  : option (list E) :=
  let pM := idiv M p in
  let qN := idiv N q in
  let rows := iadd pM (imod M p) in
  let cols := iadd qN (imod N q) in
  sA ← (if has_bit how 4
        then n ← to_size (imul rows K); Some (alloc n) else Some []);
  sB ← (if has_bit how 2 || bool_decide (1 < q)
        then n ← to_size (imul K cols); Some (alloc n) else Some []);
  sC ← (if has_bit how 1 || bool_decide (1 < q)
        then n ← to_size (imul rows cols); Some (alloc n) else Some []);
  st ← run_blocks p q M N K A B how (loop_order p q) (mk_mem C sA sB sC);
  Some (mC st).

(** The single multiply the blocked one stands for:
    [cublasDgemm('N', 'N', N, M, K, 1, B, N, A, K, 0, C, N)]. *)
Definition single_dgemm (M N K : Z) (A B C : list E) : option (list E) :=
  cublasDgemm N M K B 0 N A 0 K C 0 N.

(** The product, element by element: entry [(r, c)] is the inner product
    of column [c] of [B] and row [r] of [A]. *)
Definition entry (N K : nat) (A B : list E) (r c : nat) : option E :=
  cell K B 0 N A 0 K c r.

Definition matmul (M N K : nat) (A B : list E) : option (list E) :=
  mapM (λ k, entry N K A B (k `div` N) (k `mod` N)) (seq 0 (M * N)).

End MyDgemm.

(** The result has its size and each scratch buffer in use has the size
    it was allocated with. *)
Definition mem_ok {E} (p q M N K : nat) (how : mmtype) (st : mem (E:=E))
  : Prop :=
  length (mC st) = (M * N)%nat ∧
  (has_bit how 4 = true →
     (K * (M / p + M `mod` p) ≤ length (subA st))%nat) ∧
  (has_bit how 2 || bool_decide (1 < Z.of_nat q) = true →
     (K * (N / q + N `mod` q) ≤ length (subB st))%nat) ∧
  (has_bit how 1 || bool_decide (1 < Z.of_nat q) = true →
     ((M / p + M `mod` p) * (N / q + N `mod` q) ≤ length (subC st))%nat).

(** The rows of block row [i] of [p], for [M] rows in all (and the
    columns of a block column likewise): the last block takes the
    remainder. *)
Definition span_of (p M i : nat) : nat :=
  (M / p + (if decide (S i = p) then M `mod` p else 0))%nat.

End Dgemm.

(** ** The symmetric tensor

    [UniTensor.h] declares the class with its bonds, its map from a block
    charge to a block and the maps from a partition class to a block, its
    offsets and its dimensions; [grouping], [initBlocks] and the
    operations have no body in the tree. *)

Module Sym.

(** Modelled from the spec: reversing the direction of a bond negates
    every charge and leaves the multiplicities. *)
Definition flip (d : bondType) : bondType :=
  match d with BD_IN => BD_OUT | BD_OUT => BD_IN end.

Definition reverse (b : Bond) : Bond :=
  mk_Bond (flip (btype b)) ((λ s, (qneg s.1, s.2)) <$> states b).

Definition set_dir (d : bondType) (b : Bond) : Bond :=
  if decide (btype b = d) then b else reverse b.

(** The charge of every index of a bond: a state of multiplicity [m]
    covers [m] indices. *)
Definition bond_charges (b : Bond) : list Qnum :=
  states b ≫= λ s, replicate s.2 s.1.

Definition charge_at (b : Bond) (i : nat) : Qnum :=
  default Qnum0 (bond_charges b !! i).

(** Modelled from the spec: the charge of a multi-index over some bonds,
    the sum of the charges of its constituent states. *)
Definition q_sum (bds : list Bond) (I : list nat) : Qnum :=
  foldr qadd Qnum0 (zip_with charge_at bds I).

Definition multi_indices (bds : list Bond) : list (list nat) :=
  indices (dim <$> bds).

(** The multi-indices of charge [q], in lexicographic order: the rows
    (over the incoming bonds) or the columns (over the outgoing bonds) of
    the block of charge [q]. *)
Definition sector (bds : list Bond) (q : Qnum) : list (list nat) :=
  filter (λ I, q_sum bds I = q) (multi_indices bds).

(** The total order of charges. *)
Definition qle (a b : Qnum) : Prop :=
  a.1 < b.1 ∨ (a.1 = b.1 ∧ (a.2 = false ∨ b.2 = true)).

Global Instance qle_dec a b : Decision (qle a b).
Proof. unfold qle. apply _. Defined.

Definition charges (bds : list Bond) : list Qnum :=
  merge_sort qle (remove_dups (q_sum bds <$> multi_indices bds)).

(** Modelled from the spec: the block of charge [q] exists iff some
    combination of incoming states and some combination of outgoing
    states both sum to [q]. *)
Definition block_charges (bds : list Bond) (R : nat) : list Qnum :=
  filter (λ q, q ∈ charges (drop R bds)) (charges (take R bds)).

(** Position of the first occurrence. *)
Definition index_of {A} `{EqDecision A} (x : A) (l : list A) : option nat :=
  fst <$> list_find (x =.) l.

(** Modelled from the spec: canonical form of a state list, entries of
    the same charge merged, sorted by charge; and the combination of two
    bonds. *)
Definition canon (sts : list (Qnum * nat)) : list (Qnum * nat) :=
  (λ q, (q, sum_list (snd <$> filter (λ s, s.1 = q) sts))) <$>
    merge_sort qle (remove_dups (fst <$> sts)).

Definition combine (a b : Bond) : Bond :=
  mk_Bond (btype a)
    (canon (s ← states a; u ← states b; [(qadd s.1 u.1, (s.2 * u.2)%nat)])).

(** The indices of a combined bond run through the combinations of the
    original indices by ascending charge. *)
Definition comb_order (bds : list Bond) : list (list nat) :=
  charges bds ≫= sector bds.

(** Modelled from the spec: compatible for contraction: one bond
    incoming, the other outgoing, the state sequences equal after
    negating the charges of one side. *)
Definition compatible (a b : Bond) : bool :=
  bool_decide (btype a ≠ btype b ∧ states a = states (reverse b)).

(** Compatible for a partial trace: opposite directions, equal charges. *)
Definition trace_compatible (a b : Bond) : bool :=
  bool_decide (btype a ≠ btype b ∧ states a = states b).

(** The first [R] bonds incoming, the rest outgoing; a bond that changes
    sides is reversed. *)
Definition redirect (R : nat) (bds : list Bond) : list Bond :=
  imap (λ k b, set_dir (if decide (k < R)%nat then BD_IN else BD_OUT) b) bds.

Definition insert_at {A} (p : nat) (x : A) (l : list A) : list A :=
  take p l ++ x :: drop p l.

Section Tensor.
Context {E : Type} (zero : E) (add mul : E → E → E).

(** A dense block: row-major payload. *)
Record Block : Type := mk_Block {
  b_rows : nat;
  b_cols : nat;
  payload : list E
}.

Record SymTensor : Type := mk_SymTensor {
  bonds : list Bond;
  RBondNum : nat;
  labels : list Z;
  blocks : gmap Qnum Block
}.

Definition in_bonds (t : SymTensor) : list Bond := take (RBondNum t) (bonds t).
Definition out_bonds (t : SymTensor) : list Bond := drop (RBondNum t) (bonds t).

Definition zero_block (r c : nat) : Block :=
  mk_Block r c (replicate (r * c) zero).

Definition read (B : Block) (r c : nat) : E :=
  default zero (payload B !! (r * b_cols B + c)%nat).

Definition write (B : Block) (r c : nat) (v : E) : Block :=
  mk_Block (b_rows B) (b_cols B) (<[(r * b_cols B + c)%nat := v]> (payload B)).

(** Modelled from the spec: the layout a bond list and a split dictate:
    one zero-filled block per block charge, its rows the row
    multi-indices of that charge, its columns the column multi-indices of
    that charge. *)
Definition initBlocks (bds : list Bond) (R : nat) : gmap Qnum Block :=
  list_to_map
    ((λ q, (q, zero_block (length (sector (take R bds) q))
                          (length (sector (drop R bds) q)))) <$>
     block_charges bds R).

Definition alloc (bds : list Bond) (R : nat) (labs : list Z) : SymTensor :=
  mk_SymTensor bds R labs (initBlocks bds R).

(** Modelled from the spec: creation from a bond list: allocated,
    zero-filled, no labels yet. *)
Definition construct (bds : list Bond) : SymTensor :=
  alloc bds (length (filter (λ b, btype b = BD_IN) bds)) [].

(** Modelled from the spec: the layout bijection, from a position of the
    block of charge [q] to the row and the column multi-index, and
    back. *)
Definition multi_index (t : SymTensor) (q : Qnum) (r c : nat)
  : option (list nat * list nat) :=
  I ← sector (in_bonds t) q !! r;
  J ← sector (out_bonds t) q !! c;
  Some (I, J).

Definition locate (t : SymTensor) (K : list nat) : option (Qnum * nat * nat) :=
  let I := take (RBondNum t) K in
  let J := drop (RBondNum t) K in
  let q := q_sum (in_bonds t) I in
  if decide (q_sum (out_bonds t) J = q) then
    r ← index_of I (sector (in_bonds t) q);
    c ← index_of J (sector (out_bonds t) q);
    Some (q, r, c)
  else None.

Definition with_blocks (t : SymTensor) (m : gmap Qnum Block) : SymTensor :=
  mk_SymTensor (bonds t) (RBondNum t) (labels t) m.

(** Writing and reading the element at a full multi-index; a multi-index
    that does not conserve the charge has no place: the write is dropped,
    the read gives zero. *)
Definition put (t : SymTensor) (K : list nat) (v : E) : SymTensor :=
  match locate t K with
  | Some (q, r, c) => with_blocks t (alter (λ B, write B r c v) q (blocks t))
  | None => t
  end.

Definition get (t : SymTensor) (K : list nat) : E :=
  match locate t K with
  | Some (q, r, c) =>
      match blocks t !! q with
      | Some B => read B r c
      | None => zero
      end
  | None => zero
  end.

Definition fill (t : SymTensor) (cells : list (list nat * E)) : SymTensor :=
  foldl (λ t' c, put t' c.1 c.2) t cells.

(** The stored elements with their full multi-indices, block by block,
    row by row. *)
Definition elements_of (t : SymTensor) : list (list nat * E) :=
  qB ← map_to_list (blocks t);
  r ← seq 0 (b_rows qB.2);
  c ← seq 0 (b_cols qB.2);
  match multi_index t qB.1 r c with
  | Some (ri, ci) => [(ri ++ ci, read qB.2 r c)]
  | None => []
  end.

(** Modelled from the spec: [setLabel]: one label per bond, all
    distinct. *)
Definition setLabel (t : SymTensor) (labs : list Z) : result SymTensor :=
  if decide (length labs = length (bonds t) ∧ NoDup labs)
  then Ok (mk_SymTensor (bonds t) (RBondNum t) labs (blocks t))
  else Raise LabelError.

(** Modelled from the spec: [setRawElem]: the buffer is the dense tensor
    in lexicographic order; an element whose row and column charges
    differ is dropped, or, under strict checking, must be zero. *)
Definition setRawElem (strict : option (E → bool)) (t : SymTensor)
    (dense : list E) : result SymTensor :=
  let cells := zip (multi_indices (bonds t)) dense in
  match strict with
  | Some is_zero =>
      if forallb (λ c, is_zero c.2 || bool_decide (is_Some (locate t c.1))) cells
      then Ok (fill t cells)
      else Raise SymmetryViolation
  | None => Ok (fill t cells)
  end.

(** Modelled from the spec: [permute]: the new bond order by matching the
    labels, the new split, both block decompositions recomputed; every
    stored element goes from its multi-index to the permuted one.  With
    the identity permutation nothing but the layout changes. *)
Definition permute (t : SymTensor) (new_labels : list Z) (new_R : nat)
  : result SymTensor :=
  if decide (length new_labels = length (labels t) ∧ NoDup new_labels ∧
             (new_R ≤ length new_labels)%nat) then
    match mapM (λ x, index_of x (labels t)) new_labels with
    | Some axes =>
        match gather (bonds t) axes with
        | Some bds =>
            Ok (fill (alloc (redirect new_R bds) new_R new_labels)
                  ((λ c, (gatherD axes c.1, c.2)) <$> elements_of t))
        | None => Raise LabelError
        end
    | None => Raise LabelError
    end
  else Raise LabelError.

(** Modelled from the spec: [contract].  Every shared label must name
    compatible bonds.  Then: [a] is permuted so that its shared bonds
    come last, in ascending order of the labels, as outgoing bonds; [b]
    so that they come first, as incoming bonds; for every charge in both
    block maps the block of the result takes the product of the two
    blocks; the result has the remaining bonds of [a], then those of [b];
    unless [fast], it is permuted to the order of the uncontracted
    labels. *)
Definition bond_of (t : SymTensor) (x : Z) : option Bond :=
  i ← index_of x (labels t); bonds t !! i.

Definition shared (a b : SymTensor) : list Z :=
  merge_sort Z.le (filter (λ x, x ∈ labels b) (labels a)).

(** [C += A . B] on one block: [A] seen as outer by inner, [B] as inner
    by outer. *)
Definition matmul_acc (Bc : option Block) (Ba Bb : Block) : Block :=
  mk_Block (b_rows Ba) (b_cols Bb)
    (r ← seq 0 (b_rows Ba);
     c ← seq 0 (b_cols Bb);
     [add (match Bc with Some B => read B r c | None => zero end)
          (foldr add zero
             ((λ k, mul (read Ba r k) (read Bb k c)) <$> seq 0 (b_cols Ba)))]).

Definition multiply (mc ma mb : gmap Qnum Block) : gmap Qnum Block :=
  foldl (λ m q,
           match ma !! q, mb !! q with
           | Some Ba, Some Bb => <[q := matmul_acc (m !! q) Ba Bb]> m
           | _, _ => m
           end) mc (fst <$> map_to_list ma).

Definition contract (a b : SymTensor) (fast : bool) : result SymTensor :=
  let sh := shared a b in
  if forallb (λ x, match bond_of a x, bond_of b x with
                   | Some ba, Some bb => compatible ba bb
                   | _, _ => false
                   end) sh then
    let rest_a := filter (λ x, x ∉ sh) (labels a) in
    let rest_b := filter (λ x, x ∉ sh) (labels b) in
    a' ← permute a (rest_a ++ sh) (length rest_a);
    b' ← permute b (sh ++ rest_b) (length sh);
    let c0 := alloc (in_bonds a' ++ out_bonds b') (length rest_a)
                (rest_a ++ rest_b) in
    let c := with_blocks c0 (multiply (blocks c0) (blocks a') (blocks b')) in
    if fast then Ok c else permute c (rest_a ++ rest_b) (length rest_a)
  else Raise BondMismatch.

(** Modelled from the spec: [partialTrace]: the two bonds go, every
    element of the result is the sum over their common index. *)
Definition partialTrace (t : SymTensor) (la lb : Z) : result SymTensor :=
  match index_of la (labels t), index_of lb (labels t) with
  | Some pa, Some pb =>
      match bonds t !! pa, bonds t !! pb with
      | Some ba, Some bb =>
          if trace_compatible ba bb then
            let lo := (pa `min` pb)%nat in
            let hi := (pa `max` pb)%nat in
            let bds := delete lo (delete hi (bonds t)) in
            let labs := delete lo (delete hi (labels t)) in
            let R := (RBondNum t - (if decide (lo < RBondNum t)%nat then 1 else 0)
                                 - (if decide (hi < RBondNum t)%nat then 1 else 0))%nat in
            Ok (fill (alloc bds R labs)
                  ((λ K, (K, foldr add zero
                               ((λ k, get t (insert_at hi k (insert_at lo k K)))
                                  <$> seq 0 (dim ba)))) <$> multi_indices bds))
          else Raise BondMismatch
      | _, _ => Raise LabelError
      end
  | _, _ => Raise LabelError
  end.

(** Modelled from the spec: [combineBond]: the listed bonds are brought
    together, in their listed order, where the first of them is; one
    bond of the combined states, in the direction of the first, replaces
    them. *)
Definition combineBond (t : SymTensor) (labs : list Z) : result SymTensor :=
  match labs with
  | [] => Ok t
  | l0 :: _ =>
      match index_of l0 (labels t) with
      | Some p0 =>
          let before := filter (λ x, x ∉ labs) (take p0 (labels t)) in
          let after := filter (λ x, x ∉ labs) (drop p0 (labels t)) in
          let first_in := bool_decide (p0 < RBondNum t)%nat in
          let rest_in := length (filter (λ x, x ∉ labs)
                                   (take (RBondNum t) (labels t))) in
          let R1 := (rest_in + if first_in then length labs else 0)%nat in
          t1 ← permute t (before ++ labs ++ after) R1;
          let n0 := length before in
          let k := length labs in
          let grp := take k (drop n0 (bonds t1)) in
          match grp with
          | [] => Raise LabelError
          | g0 :: gs =>
              let bds := take n0 (bonds t1) ++
                         foldl combine g0 gs :: drop (n0 + k) (bonds t1) in
              let R2 := (rest_in + if first_in then 1 else 0)%nat in
              Ok (fill (alloc bds R2 (before ++ l0 :: after))
                    ((λ K, (K, get t1 (take n0 K ++
                                       default [] (comb_order grp !!
                                                     default 0%nat (K !! n0)) ++
                                       drop (S n0) K))) <$> multi_indices bds))
          end
      | None => Raise LabelError
      end
  end.

(** The tensors the operations give. *)
Inductive built : SymTensor → Prop :=
| built_construct bds : built (construct bds)
| built_setLabel t labs t' :
    built t → setLabel t labs = Ok t' → built t'
| built_setRawElem strict t dense t' :
    built t → setRawElem strict t dense = Ok t' → built t'
| built_permute t labs R t' :
    built t → permute t labs R = Ok t' → built t'
| built_contract a b fast c :
    built a → built b → contract a b fast = Ok c → built c
| built_combineBond t labs t' :
    built t → combineBond t labs = Ok t' → built t'
| built_partialTrace t la lb t' :
    built t → partialTrace t la lb = Ok t' → built t'.

(** The block layout invariant: every position of every stored block is
    the place of a row and a column multi-index of equal charge, the
    charge of the block, and the layout sends that multi-index back to
    the position. *)
Definition layout_inv (t : SymTensor) : Prop :=
  ∀ q B, blocks t !! q = Some B →
  ∀ r c, (r < b_rows B)%nat → (c < b_cols B)%nat →
  ∃ I J, multi_index t q r c = Some (I, J) ∧
         q_sum (in_bonds t) I = q ∧ q_sum (out_bonds t) J = q ∧
         locate t (I ++ J) = Some (q, r, c).

(** The stored blocks have the dimensions the bonds and the split
    dictate, and the split is within the bonds. *)
Definition wf (t : SymTensor) : Prop :=
  (RBondNum t ≤ length (bonds t))%nat ∧
  ∀ q B, blocks t !! q = Some B →
    b_rows B = length (sector (in_bonds t) q) ∧
    b_cols B = length (sector (out_bonds t) q).

End Tensor.

Arguments Block E : clear implicits.
Arguments SymTensor E : clear implicits.

End Sym.

(** ** [Network::launch] with the fermionic swaps

    Modelled from the spec: [Network.h] declares [launch], [construct],
    [merge] and [recSwap] and the members [swaps_arr] and [swapflags],
    and no body of them is part of the tree.  The network holds its
    tensors by reference, so what [launch] does to a bound tensor stays
    with the network: the store of bound tensors is part of the state.

    [construct] caches the tree and regenerates the swap lists;
    [launch] visits the tree in postorder, applies the swap list of a
    leaf to the tensor bound to it on the first visit, which the flag of
    the leaf records, contracts the children of every internal node and
    permutes the result to the output labels when there are any.  The
    tensor operations [contract], [permute] and [addGate], the crossings
    [exSwap] of two label lists and the greedy choice of the tree are
    parameters. *)

Module Net.

(** The cached tree over the leaf positions. *)
Inductive Plan : Type :=
| Leaf (i : nat)
| Join (l r : Plan).

(** The leaves in the order of the postorder traversal. *)
Fixpoint leaves (p : Plan) : list nat :=
  match p with
  | Leaf i => [i]
  | Join l r => leaves l ++ leaves r
  end.

Section Launch.
Context {T Swap : Type}.
Context (contract : T → T → result T).
Context (permute : T → list Z → Z → result T).
Context (addGate : T → list Swap → T).
Context (exSwap : list Z → list Z → list Swap).
Context (plan_of : list (list Z) → option Plan).

Record Network : Type := mk_Network {
  load : bool;
  label_arr : list (list Z);     (* the label pattern of each leaf *)
  tensors : list (option T);     (* the tensor bound to each leaf *)
  root : option Plan;
  swaps_arr : list (list Swap);
  swapflags : list bool;
  label_TOUT : list Z;
  Rnum_TOUT : Z
}.

(** [recSwap]: for each leaf in the order in which it will be
    contracted, the crossings with every leaf contracted before it are
    accumulated in the swap list of the leaf. *)
Fixpoint recSwap_loop (labs : list (list Z)) (seen ord : list nat)
    (acc : list (list Swap)) : list (list Swap) :=
  match ord with
  | [] => acc
  | i :: ord' =>
      let li := default [] (labs !! i) in
      let sw := concat ((λ j, exSwap li (default [] (labs !! j))) <$> seen) in
      recSwap_loop labs (seen ++ [i]) ord' (alter (λ old, old ++ sw) i acc)
  end.

Definition recSwap (labs : list (list Z)) (p : Plan) : list (list Swap) :=
  recSwap_loop labs [] (leaves p) (replicate (length labs) []).

(** [construct]: the tree is built and cached, the swap lists are
    regenerated and no leaf has had its list applied. *)
Definition construct (net : Network) : Network * result unit :=
  match plan_of (label_arr net) with
  | None => (net, Raise InvalidNetwork)
  | Some p =>
      (mk_Network true (label_arr net) (tensors net) (Some p)
         (recSwap (label_arr net) p)
         (replicate (length (label_arr net)) false)
         (label_TOUT net) (Rnum_TOUT net),
       Ok tt)
  end.

Definition set_leaf (net : Network) (i : nat) (t : T) : Network :=
  mk_Network (load net) (label_arr net) (<[i := Some t]> (tensors net))
    (root net) (swaps_arr net) (<[i := true]> (swapflags net))
    (label_TOUT net) (Rnum_TOUT net).

(** The visit of a leaf: on the first one its swap list is applied to
    the tensor bound to it. *)
Definition visit (i : nat) (net : Network) : Network * result T :=
  match tensors net !! i with
  | Some (Some t) =>
      match swapflags net !! i with
      | Some true => (net, Ok t)
      | Some false =>
          match swaps_arr net !! i with
          | Some sw => let t' := addGate t sw in (set_leaf net i t', Ok t')
          | None => (net, Raise IndexError)
          end
      | None => (net, Raise IndexError)
      end
  | _ => (net, Raise UnboundTensor)
  end.

(** [merge]: the postorder traversal. *)
Fixpoint merge (p : Plan) (net : Network) : Network * result T :=
  match p with
  | Leaf i => visit i net
  | Join l r =>
      let '(net1, a) := merge l net in
      match a with
      | Raise e => (net1, Raise e)
      | Ok a =>
          let '(net2, b) := merge r net1 in
          (net2, b ← b; contract a b)
      end
  end.

Definition launch (net : Network) : Network * result T :=
  let '(net1, c) := if load net then (net, Ok tt) else construct net in
  match c with
  | Raise e => (net1, Raise e)
  | Ok _ =>
      match root net1 with
      | None => (net1, Raise InvalidNetwork)
      | Some p =>
          let '(net2, r) := merge p net1 in
          (net2,
           t ← r;
           if decide (label_TOUT net2 = []) then Ok t
           else permute t (label_TOUT net2) (Rnum_TOUT net2))
      end
  end.

(** [n] launches in a row. *)
Fixpoint launches (n : nat) (net : Network) : Network * list (result T) :=
  match n with
  | O => (net, [])
  | S n' =>
      let '(net1, r) := launch net in
      let '(net2, rs) := launches n' net1 in
      (net2, r :: rs)
  end.

(** The contraction of the tree over a store of bound tensors, nothing
    applied. *)
Fixpoint eval (p : Plan) (ts : list (option T)) : result T :=
  match p with
  | Leaf i =>
      match ts !! i with
      | Some (Some t) => Ok t
      | _ => Raise UnboundTensor
      end
  | Join l r => a ← eval l ts; b ← eval r ts; contract a b
  end.

(** The state of the network before the first visit of a launch. *)
Definition ready (net : Network) : Network :=
  if load net then net else (construct net).1.

(** The tensor bound to leaf [i] once its swap list has been applied,
    if it had not been already. *)
Definition once (net : Network) (i : nat) (t : T) : T :=
  match swapflags net !! i with
  | Some false => addGate t (default [] (swaps_arr net !! i))
  | _ => t
  end.

(** What a traversal of [p] leaves alone: the tree, the swap lists, the
    output labels, and the flag and the tensor of every leaf that is
    flagged or not in [p]. *)
Definition kept (p : Plan) (net net1 : Network) : Prop :=
  load net1 = load net ∧ label_arr net1 = label_arr net ∧
  root net1 = root net ∧ swaps_arr net1 = swaps_arr net ∧
  label_TOUT net1 = label_TOUT net ∧ Rnum_TOUT net1 = Rnum_TOUT net ∧
  ∀ i, swapflags net !! i = Some true ∨ i ∉ leaves p →
       swapflags net1 !! i = swapflags net !! i ∧
       tensors net1 !! i = tensors net !! i.

End Launch.
Arguments Network T Swap : clear implicits.

End Net.

(** ** Sample tensors *)

(** An integer inner product, to run the contraction on samples. *)
Definition zdot (u v : list Z) : Z := foldr Z.add 0 (zip_with Z.mul u v).

(** A rank-3 tensor with labels [0, 1, 2], two incoming bonds. *)
Definition t_234 : NPTensor Z :=
  mk_NPTensor
    (mk_ndarray (Z.of_nat <$> seq 0 24) [2; 3; 4]%nat [12; 4; 1]%nat false)
    [0; 1; 2] 3 2 (list_to_map [(0, 0%nat); (1, 1%nat); (2, 2%nat)]).

(** A real 2 by 3 matrix with labels [0, 1]. *)
Definition t_R23 : NPTensor R :=
  mk_NPTensor
    (mk_ndarray [1; 2; 3; 4; 5; 6]%R [2; 3]%nat [3; 1]%nat false)
    [0; 1] 2 1 (list_to_map [(0, 0%nat); (1, 1%nat)]).

(** A 2 by 3 matrix with labels [0, 1], bond 0 incoming, bond 1 outgoing. *)
Definition t_A : NPTensor Z :=
  mk_NPTensor (mk_ndarray [1; 2; 3; 4; 5; 6] [2; 3]%nat [3; 1]%nat false)
    [0; 1] 2 1 (list_to_map [(0, 0%nat); (1, 1%nat)]).

(** A 3 by 2 matrix with labels [1, 2], bond 1 incoming, bond 2 outgoing. *)
Definition t_B : NPTensor Z :=
  mk_NPTensor (mk_ndarray [1; 0; 0; 1; 1; 1] [3; 2]%nat [2; 1]%nat false)
    [1; 2] 2 1 (list_to_map [(1, 0%nat); (2, 1%nat)]).

(** The same matrix with both bonds outgoing. *)
Definition t_B_out : NPTensor Z :=
  mk_NPTensor (mk_ndarray [1; 0; 0; 1; 1; 1] [3; 2]%nat [2; 1]%nat false)
    [1; 2] 2 0 (list_to_map [(1, 0%nat); (2, 1%nat)]).

(** A 3 by 2 matrix with labels [5, 6]. *)
Definition t_C : NPTensor Z :=
  mk_NPTensor (mk_ndarray [1; 0; 0; 1; 1; 1] [3; 2]%nat [2; 1]%nat false)
    [5; 6] 2 1 (list_to_map [(5, 0%nat); (6, 1%nat)]).

(** Four leaves on a ring: neighbours share one label. *)
Definition leaf_lb (labs : list Z) (ds : list nat) : Node Z :=
  mk_Node None labs (Bond_of_dim BD_IN <$> ds)
    (cal_elemNum (Bond_of_dim BD_IN <$> ds)) 0 None None.

Definition ring4 : list (Node Z) :=
  [leaf_lb [0; 1] [2; 3]%nat; leaf_lb [1; 2] [3; 4]%nat;
   leaf_lb [2; 3] [4; 5]%nat; leaf_lb [3; 0] [5; 2]%nat].

Definition ring4_next : list (Node Z) := default [] (greedy_step ring4).

(** Two matrices as [UniTensor]s of trivially charged bonds, and the
    network over them, not yet constructed. *)
Definition u_A : UniTensor Z :=
  mk_UniTensor 1 [Bond_of_dim BD_IN 2; Bond_of_dim BD_OUT 3] [0; 1] 1
    [(Qnum0, (2, 3)%nat)] [1; 2; 3; 4; 5; 6] EmptyString.

Definition u_B : UniTensor Z :=
  mk_UniTensor 1 [Bond_of_dim BD_IN 3; Bond_of_dim BD_OUT 2] [1; 2] 1
    [(Qnum0, (3, 2)%nat)] [1; 0; 0; 1; 1; 1] EmptyString.

Definition net_AB : Network Z :=
  mk_Network false None [leaf_of u_A; leaf_of u_B] [] 0 [[]; []]
    [false; false].

(** The tree over the two matrices, and a third matrix on top of it; the
    loaded network over the first tree, its output labels turned
    around. *)
Definition root_AB : Node Z :=
  mk_Node None [0; 2] [] 4 0 (Some (leaf_of u_A)) (Some (leaf_of u_B)).

Definition u_D : UniTensor Z :=
  mk_UniTensor 1 [Bond_of_dim BD_IN 2; Bond_of_dim BD_OUT 2] [2; 5] 1
    [(Qnum0, (2, 2)%nat)] [0; 1; 1; 0] EmptyString.

Definition root_ABD : Node Z :=
  mk_Node None [0; 5] [] 4 0 (Some root_AB) (Some (leaf_of u_D)).

Definition net_AB_loaded : Network Z :=
  mk_Network true (Some root_AB) [leaf_of u_A; leaf_of u_B] [2; 0] 1
    [[]; []] [false; false].

(** A symmetric tensor: two incoming bonds of charge +1 and -1, of
    dimensions 2 and 3, and an outgoing bond of charge 0; every row has
    charge 0, so the one block of charge 0 holds all six elements. *)
Definition u_charged : UniTensor Z :=
  mk_UniTensor 1
    [mk_Bond BD_IN [((1, false), 2%nat)]; mk_Bond BD_IN [((-1, false), 3%nat)];
     mk_Bond BD_OUT [(Qnum0, 1%nat)]]
    [0; 1; 2] 2 [(Qnum0, (6, 1)%nat)] [1; 2; 3; 4; 5; 6] EmptyString.

(** The 2 by 3 matrix with the label 7 on both bonds, as
    [setLabel([7, 7])] leaves it, and a tensor that is neither real nor
    complex. *)
Definition t_77 : NPTensor Z :=
  mk_NPTensor (mk_ndarray [1; 2; 3; 4; 5; 6] [2; 3]%nat [3; 1]%nat false)
    [7; 7] 2 1 (<[7:=1%nat]> (<[7:=0%nat]> ∅)).

Definition u_untyped : UniTensor Z :=
  mk_UniTensor 0 [Bond_of_dim BD_IN 2; Bond_of_dim BD_OUT 3] [0; 1] 1
    [(Qnum0, (2, 3)%nat)] [] EmptyString.

(** A network of two fermionic scalars, one crossing between them: a
    swap flips the sign, contraction multiplies. *)
Definition sw_contract (a b : Z) : result Z := Ok (a * b).
Definition sw_permute (a : Z) (lab : list Z) (k : Z) : result Z := Ok a.
Definition sw_addGate (a : Z) (sw : list (Z * Z)) : Z :=
  foldr (λ _ x, - x) a sw.
Definition sw_exSwap (l1 l2 : list Z) : list (Z * Z) :=
  x ← l1; (λ y, (x, y)) <$> filter (λ y, y ≠ x) l2.
Definition sw_plan (labs : list (list Z)) : option Net.Plan :=
  Some (Net.Join (Net.Leaf 0) (Net.Leaf 1)).
Definition net_sw : Net.Network Z (Z * Z) :=
  Net.mk_Network false [[0]; [1]] [Some 2; Some 3] None [] [] [] 0.

(** Symmetric tensors over bonds of charges 0 and 1: a rank-4 tensor
    filled from a dense buffer, labelled, permuted, traced over a pair of
    bonds, contracted with a rank-2 tensor, two bonds combined. *)
Definition b_in : Bond :=
  mk_Bond BD_IN [((0, false), 1%nat); ((1, false), 1%nat)].
Definition b_out : Bond :=
  mk_Bond BD_OUT [((0, false), 1%nat); ((1, false), 1%nat)].

Definition ok_or {A} (d : A) (r : result A) : A :=
  match r with Ok a => a | Raise _ => d end.

Definition s_0 : Sym.SymTensor Z := Sym.construct 0 [b_in; b_in; b_out; b_out].
Definition s_1 : Sym.SymTensor Z :=
  ok_or s_0 (Sym.setRawElem None s_0 (Z.of_nat <$> seq 1 16)).
Definition s_2 : Sym.SymTensor Z :=
  ok_or s_1 (Sym.setLabel s_1 [10; 11; 12; 13]).
Definition s_3 : Sym.SymTensor Z :=
  ok_or s_2 (Sym.permute 0 s_2 [12; 10; 13; 11] 2).
Definition s_4 : Sym.SymTensor Z :=
  ok_or s_3 (Sym.partialTrace 0 Z.add s_3 10 13).

Definition r_0 : Sym.SymTensor Z := Sym.construct 0 [b_in; b_out].
Definition r_1 : Sym.SymTensor Z :=
  ok_or r_0 (Sym.setRawElem None r_0 [5; 6; 7; 8]).
Definition r_2 : Sym.SymTensor Z := ok_or r_1 (Sym.setLabel r_1 [11; 20]).

Definition s_5 : Sym.SymTensor Z :=
  ok_or s_4 (Sym.contract 0 Z.add Z.mul s_4 r_2 false).
Definition s_6 : Sym.SymTensor Z :=
  ok_or s_5 (Sym.combineBond 0 s_5 [20; 12]).

(** ** Reading a tensor by its labels *)

(** The element at the coordinates [f] gives to the labels of the
    tensor. *)
Definition at_labels {E} (t : NPTensor E) (f : Z → nat) : option E :=
  get (arr t) (f <$> label t).

(** [f], with the coordinates [c] at the labels [xs]. *)
Definition override (f : Z → nat) (xs : list Z) (c : list nat) (x : Z) : nat :=
  match list_find (x =.) xs with
  | Some (i, _) => default 0%nat (c !! i)
  | None => f x
  end.

(** ** The tree under a node, as [mergeNPT] walks it

    A child that holds a tensor is a leaf and gives that tensor; any
    other child is merged in turn. *)

Section Tree.
Context {E : Type}.

Fixpoint merged_tensors (nd : Node E) : list (UniTensor E) :=
  match nd with
  | mk_Node _ _ _ _ _ nleft nright =>
      (match nleft with
       | Some ln =>
           match node_T ln with Some u => [u] | None => merged_tensors ln end
       | None => []
       end) ++
      (match nright with
       | Some rn =>
           match node_T rn with Some u => [u] | None => merged_tensors rn end
       | None => []
       end)
  end.

(** The labels on one of two lists only. *)
Definition sym_diff (l1 l2 : list Z) : list Z :=
  filter (λ x, x ∉ l2) l1 ++ filter (λ x, x ∉ l1) l2.

Fixpoint merged_labels (nd : Node E) : list Z :=
  match nd with
  | mk_Node _ _ _ _ _ nleft nright =>
      sym_diff
        (match nleft with
         | Some ln =>
             match node_T ln with
             | Some u => u_labels u
             | None => merged_labels ln
             end
         | None => []
         end)
        (match nright with
         | Some rn =>
             match node_T rn with
             | Some u => u_labels u
             | None => merged_labels rn
             end
         | None => []
         end)
  end.

(** Every node [mergeNPT] enters has both children. *)
Fixpoint two_children (nd : Node E) : Prop :=
  match nd with
  | mk_Node _ _ _ _ _ nleft nright =>
      (match nleft with
       | Some ln =>
           match node_T ln with Some _ => True | None => two_children ln end
       | None => False
       end) ∧
      (match nright with
       | Some rn =>
           match node_T rn with Some _ => True | None => two_children rn end
       | None => False
       end)
  end.

(** The same, for one child. *)
Definition child_tensors (o : option (Node E)) : list (UniTensor E) :=
  match o with
  | Some c => match node_T c with Some u => [u] | None => merged_tensors c end
  | None => []
  end.

Definition child_labels (o : option (Node E)) : list Z :=
  match o with
  | Some c => match node_T c with Some u => u_labels u | None => merged_labels c end
  | None => []
  end.

Definition child_ok (o : option (Node E)) : Prop :=
  match o with
  | Some c => match node_T c with Some _ => True | None => two_children c end
  | None => False
  end.

Fixpoint height (nd : Node E) : nat :=
  match nd with
  | mk_Node _ _ _ _ _ nleft nright =>
      S (match nleft with Some ln => height ln | None => 0 end `max`
         match nright with Some rn => height rn | None => 0 end)
  end.

(** What [mergeNPT] contracts for a child: the tensor of a leaf turned
    into an [NPTensor], or the merged subtree. *)
Definition operand (dot : list E → list E → E) (o : option (Node E))
  : result (NPTensor E) :=
  match o with
  | None => Raise AttributeError
  | Some c =>
      match node_T c with
      | Some u => NPTensor_new (PyUni u)
      | None => mergeNPT dot c
      end
  end.

End Tree.

(** * Properties *)

(** ** The error monad *)

Lemma rbind_Ok {A B} (c : result A) (k : A → result B) r :
  c ≫= k = Ok r ↔ ∃ a, c = Ok a ∧ k a = Ok r.
Proof.
  destruct c as [a|e]; simpl; split.
  - intros H. by exists a.
  - by intros (a' & [= ->] & H).
  - intros H. inversion H.
  - by intros (a' & H & _).
Qed.

Lemma mapR_Ok {A B} (f : A → result B) xs ys :
  mapR f xs = Ok ys ↔ Forall2 (λ x y, f x = Ok y) xs ys.
Proof.
  revert ys. induction xs as [|x xs IH]; intros ys; simpl.
  - split; [intros [= <-]; constructor | by inversion 1].
  - split.
    + intros (y & Hy & (ys' & Hys & [= <-])%rbind_Ok)%rbind_Ok.
      constructor; [done | by apply IH].
    + inversion 1 as [|? y ? ys' Hy Hys]; subst.
      apply rbind_Ok. exists y. split; [done|].
      apply rbind_Ok. exists ys'. split; [by apply IH | done].
Qed.

Lemma mapR_total {A B} (f : A → result B) xs :
  Forall (λ x, ∃ y, f x = Ok y) xs → ∃ ys, mapR f xs = Ok ys.
Proof.
  induction 1 as [|x xs [y Hy] _ [ys Hys]]; simpl.
  - by exists [].
  - exists (y :: ys). by rewrite Hy, Hys.
Qed.

(** ** [mapLabelBond] *)

Lemma mapLabelBond_loop_total lab rng m :
  Forall (λ i, (i < length lab)%nat) rng →
  ∃ m', mapLabelBond_loop lab rng m = Ok m'.
Proof.
  intros H. revert m. induction H as [|i rng Hi _ IH]; intros m; simpl.
  - by exists m.
  - destruct (lookup_lt_is_Some_2 lab i Hi) as [x Hx].
    unfold py_index. rewrite Hx. simpl. apply IH.
Qed.

Lemma mapLabelBond_loop_lookup lab rng m m' :
  NoDup lab →
  mapLabelBond_loop lab rng m = Ok m' →
  ∀ x i, lab !! i = Some x → i ∈ rng ∨ m !! x = Some i → m' !! x = Some i.
Proof.
  intros Hnd. revert m. induction rng as [|j rng IH]; intros m; simpl.
  - intros [= <-] x i _ [Hin|Hm]; [by apply elem_of_nil in Hin | done].
  - intros (y & Hy & Hloop)%rbind_Ok x i Hx Hor.
    unfold py_index in Hy. destruct (lab !! j) as [y'|] eqn:Hj; [|done].
    injection Hy as ->.
    apply (IH _ Hloop x i Hx).
    destruct Hor as [[->|Hin]%elem_of_cons|Hm].
    + right. rewrite Hx in Hj. injection Hj as ->. apply lookup_insert_eq.
    + by left.
    + right. destruct (decide (y = x)) as [->|Hne].
      * rewrite (NoDup_lookup _ _ _ _ Hnd Hx Hj). apply lookup_insert_eq.
      * by rewrite lookup_insert_ne.
Qed.

(** ** Picking entries by position *)

Lemma gather_lookup {A} (xs ys : list A) axes :
  gather xs axes = Some ys →
  length ys = length axes ∧
  ∀ i a, axes !! i = Some a → ys !! i = xs !! a ∧ (a < length xs)%nat.
Proof.
  unfold gather. intros H%mapM_Some_1. split.
  - symmetry. by eapply Forall2_length.
  - intros i a Hi.
    destruct (Forall2_lookup_l _ _ _ _ _ H Hi) as (y & Hy & Hxa).
    rewrite Hy, Hxa. split; [done|]. by eapply lookup_lt_Some.
Qed.

Lemma gather_total {A} (xs : list A) axes :
  Forall (λ a, (a < length xs)%nat) axes → ∃ ys, gather xs axes = Some ys.
Proof.
  intros H. unfold gather.
  assert (is_Some (mapM (λ a, xs !! a) axes)) as [ys Hys]; [|by exists ys].
  apply mapM_is_Some. eapply Forall_impl; [exact H|].
  intros a Ha. by apply lookup_lt_is_Some_2.
Qed.

Lemma pos_of_bound {A} (l1 l2 : list A) axes :
  pos_of l1 l2 axes → Forall (λ a, (a < length l2)%nat) axes.
Proof.
  intros [Hlen H]. apply Forall_lookup. intros i a Hi.
  destruct (lookup_lt_is_Some_2 l1 i) as [x Hx].
  { rewrite <- Hlen. by eapply lookup_lt_Some. }
  destruct (H i x Hx) as (j & Hj & Hl2).
  rewrite Hi in Hj. injection Hj as <-. by eapply lookup_lt_Some.
Qed.

Lemma pos_of_NoDup {A} (l1 l2 : list A) axes :
  NoDup l1 → pos_of l1 l2 axes → NoDup axes.
Proof.
  intros Hnd [Hlen H]. apply NoDup_alt. intros i i' a Hi Hi'.
  destruct (lookup_lt_is_Some_2 l1 i) as [x Hx].
  { rewrite <- Hlen. by eapply lookup_lt_Some. }
  destruct (lookup_lt_is_Some_2 l1 i') as [x' Hx'].
  { rewrite <- Hlen. by eapply lookup_lt_Some. }
  destruct (H i x Hx) as (j & Hj & Hl2).
  destruct (H i' x' Hx') as (j' & Hj' & Hl2').
  rewrite Hi in Hj. rewrite Hi' in Hj'.
  injection Hj as <-. injection Hj' as <-.
  rewrite Hl2 in Hl2'. injection Hl2' as <-.
  by eapply NoDup_lookup.
Qed.

(** Gathering along [axes1] and then along the inverse positions gives
    the list back. *)
Lemma gather_inverse {A B} (l1 l2 : list A) axes1 axes2 (xs ys zs : list B) :
  NoDup l2 → length xs = length l2 →
  pos_of l1 l2 axes1 → pos_of l2 l1 axes2 →
  gather xs axes1 = Some ys → gather ys axes2 = Some zs → zs = xs.
Proof.
  intros Hnd Hxs [Hlen1 H1] [Hlen2 H2] Hys Hzs.
  destruct (gather_lookup _ _ _ Hys) as [Hlys Hy].
  destruct (gather_lookup _ _ _ Hzs) as [Hlzs Hz].
  apply list_eq_same_length with (length l2); [lia | lia |].
  intros i z x Hi Hzi Hxi.
  destruct (lookup_lt_is_Some_2 l2 i Hi) as [v Hv].
  destruct (H2 i v Hv) as (j & Hj & Hl1).
  destruct (H1 j v Hl1) as (i' & Hi' & Hl2).
  assert (i' = i) as -> by by eapply NoDup_lookup.
  destruct (Hz i j Hj) as [Hzy _]. destruct (Hy j i Hi') as [Hyx _].
  congruence.
Qed.

(** ** [NPTensor.permute] *)

Section Permute.
Context {E : Type}.
Implicit Types t : NPTensor E.

Lemma permute_axes t lab :
  consistent t → NoDup (label t) → lab ≡ₚ label t →
  ∃ axes,
    mapR (λ i, x ← py_index lab i; py_getitem (lbmap t) x) (xrange (bn t))
      = Ok axes ∧
    pos_of lab (label t) axes.
Proof.
  intros (_ & _ & Hlen & Hmap) Hnd Hperm.
  assert (length lab = bn t) as Hlab by (by rewrite Hperm).
  assert (∀ i x, lab !! i = Some x →
            ∃ j, label t !! j = Some x ∧ lbmap t !! x = Some j) as Hpos.
  { intros i x Hi.
    assert (x ∈ label t) as [j Hj]%list_elem_of_lookup.
    { rewrite <- Hperm. by eapply list_elem_of_lookup_2. }
    exists j. split; [done|].
    eapply mapLabelBond_loop_lookup; [done | exact Hmap | exact Hj |].
    left. apply elem_of_seq. apply lookup_lt_Some in Hj. lia. }
  destruct (mapR_total
    (λ i, x ← py_index lab i; py_getitem (lbmap t) x) (xrange (bn t)))
    as [axes Haxes].
  { apply Forall_forall. intros i [_ Hi]%elem_of_seq.
    destruct (lookup_lt_is_Some_2 lab i) as [x Hx]; [lia|].
    destruct (Hpos i x Hx) as (j & _ & Hj).
    exists j. unfold py_index, py_getitem. rewrite Hx. simpl. by rewrite Hj. }
  exists axes. split; [done|].
  apply mapR_Ok in Haxes. split.
  - apply Forall2_length in Haxes. unfold xrange in Haxes.
    rewrite length_seq in Haxes. lia.
  - intros i x Hx.
    assert (xrange (bn t) !! i = Some i) as Hseq.
    { apply lookup_seq. split; [done|]. apply lookup_lt_Some in Hx. lia. }
    destruct (Forall2_lookup_l _ _ _ _ _ Haxes Hseq) as (a & Ha & Hf).
    destruct (Hpos i x Hx) as (j & Hj & Hm).
    unfold py_index, py_getitem in Hf. rewrite Hx in Hf. simpl in Hf.
    rewrite Hm in Hf. injection Hf as <-. by exists j.
Qed.

(** What [permute] returns on a permutation of the labels. *)
Lemma permute_spec t lab k :
  consistent t → NoDup (label t) → lab ≡ₚ label t →
  ∃ axes sh st m,
    pos_of lab (label t) axes ∧
    gather (shape (arr t)) axes = Some sh ∧
    gather (strides (arr t)) axes = Some st ∧
    mapLabelBond_loop lab (xrange (bn t)) ∅ = Ok m ∧
    permute t lab k =
      Ok (mk_NPTensor (mk_ndarray (buf (arr t)) sh st (cplx (arr t))) lab (bn t)
            (if bool_decide (0 ≤ k) then Z.to_nat k else ibn t) m) ∧
    transpose (arr t) axes =
      Ok (mk_ndarray (buf (arr t)) sh st (cplx (arr t))).
Proof.
  intros Hc Hnd Hperm.
  destruct (permute_axes t lab Hc Hnd Hperm) as (axes & Haxes & Hpos).
  destruct Hc as (Hst & Hbn & Hlen & Hmap).
  assert (length lab = bn t) as Hlab by (by rewrite Hperm).
  pose proof (pos_of_bound _ _ _ Hpos) as Hbound.
  assert (NoDup axes) as Hndax.
  { eapply pos_of_NoDup; [|exact Hpos]. by rewrite Hperm. }
  destruct (gather_total (shape (arr t)) axes) as [sh Hsh].
  { eapply Forall_impl; [exact Hbound|]. unfold ndim in *. simpl. lia. }
  destruct (gather_total (strides (arr t)) axes) as [st Hstr].
  { eapply Forall_impl; [exact Hbound|]. unfold ndim in *. simpl. lia. }
  destruct (mapLabelBond_loop_total lab (xrange (bn t)) ∅) as [m Hm].
  { apply Forall_forall. intros i [_ Hi]%elem_of_seq. lia. }
  assert (transpose (arr t) axes =
            Ok (mk_ndarray (buf (arr t)) sh st (cplx (arr t)))) as Htr.
  { unfold transpose. destruct Hpos as [Hla _].
    rewrite decide_True by (unfold ndim in *; split; [lia | done]).
    by rewrite Hsh, Hstr. }
  exists axes, sh, st, m. repeat split; try done; try apply Hpos.
  unfold permute.
  rewrite (bool_decide_true (length lab = length (label t))) by lia.
  assert (same_set lab (label t) = true) as ->.
  { unfold same_set. apply bool_decide_eq_true. by rewrite Hperm. }
  simpl. rewrite Haxes. simpl. rewrite Htr. simpl.
  destruct Hpos as [Hla _].
  destruct (gather_lookup _ _ _ Hsh) as [Hlsh _].
  rewrite (bool_decide_true (length lab = _)) by (unfold ndim; simpl; lia).
  simpl. unfold mapLabelBond. by rewrite Hm.
Qed.

End Permute.

Section PermuteRoundtrip.
Context {E : Type}.
Implicit Types t : NPTensor E.

Lemma permute_consistent t lab k t' :
  consistent t → NoDup (label t) → lab ≡ₚ label t →
  permute t lab k = Ok t' →
  consistent t' ∧ label t' = lab ∧ bn t' = bn t ∧ buf (arr t') = buf (arr t) ∧
  ibn t' = (if bool_decide (0 ≤ k) then Z.to_nat k else ibn t).
Proof.
  intros Hc Hnd Hperm Hp.
  destruct (permute_spec t lab k Hc Hnd Hperm)
    as (axes & sh & st & m & Hpos & Hsh & Hst & Hm & Heq & _).
  rewrite Heq in Hp. injection Hp as <-. simpl.
  destruct Hc as (Hstr & Hbn & Hlen & Hmap).
  destruct (gather_lookup _ _ _ Hsh) as [Hlsh _].
  destruct (gather_lookup _ _ _ Hst) as [Hlst _].
  destruct Hpos as [Hla _].
  assert (length lab = bn t) as Hlab by (by rewrite Hperm).
  repeat split; unfold ndim; simpl; try done; lia.
Qed.

(** C1, on the numpy path: permuting by any rearrangement of the labels
    (with any new IN count) and then back to the original label order with
    the original IN count gives back the very same tensor: same buffer,
    shape, strides, labels, bond counts and label dictionary. *)
Theorem permute_roundtrip t lab k :
  consistent t → NoDup (label t) → lab ≡ₚ label t →
  ∃ t', permute t lab k = Ok t' ∧
        permute t' (label t) (Z.of_nat (ibn t)) = Ok t.
Proof.
  intros Hc Hnd Hperm.
  destruct (permute_spec t lab k Hc Hnd Hperm)
    as (axes & sh & st & m & Hpos & Hsh & Hst & Hm & Heq & _).
  eexists. split; [exact Heq|].
  destruct (permute_consistent t lab k _ Hc Hnd Hperm Heq)
    as (Hc' & Hl' & _).
  set (t' := mk_NPTensor _ _ _ _ _) in *.
  assert (NoDup (label t')) as Hnd' by (by rewrite Hl', Hperm).
  assert (label t ≡ₚ label t') as Hperm' by (by rewrite Hl').
  destruct (permute_spec t' (label t) (Z.of_nat (ibn t)) Hc' Hnd' Hperm')
    as (axes' & sh' & st' & m' & Hpos' & Hsh' & Hst' & Hm' & Heq' & _).
  rewrite Heq'. f_equal.
  destruct Hc as (Hstr & Hbn & Hlen & Hmap).
  subst t'. simpl in *.
  rewrite Hmap in Hm'. injection Hm' as <-.
  rewrite bool_decide_true by lia. rewrite Nat2Z.id.
  assert (sh' = shape (arr t)) as ->.
  { eapply (gather_inverse lab (label t) axes axes');
      [done | unfold ndim in *; lia | done | done | exact Hsh | exact Hsh']. }
  assert (st' = strides (arr t)) as ->.
  { eapply (gather_inverse lab (label t) axes axes');
      [done | unfold ndim in *; lia | done | done | exact Hst | exact Hst']. }
  by destruct t as [[] ? ? ? ?].
Qed.

End PermuteRoundtrip.

Lemma t_234_consistent : consistent t_234.
Proof. repeat split. Defined.

Lemma permute_roundtrip_witness :
  ∃ t', permute t_234 [2; 0; 1] 1 = Ok t' ∧
        permute t' (label t_234) (Z.of_nat (ibn t_234)) = Ok t_234.
Proof.
  apply permute_roundtrip.
  - exact t_234_consistent.
  - apply (bool_decide_unpack _). vm_compute. exact I.
  - simpl. by rewrite (Permutation_cons_append [0; 1] 2).
Defined.

(** ** [NPTensor.setLabel] *)

Section SetLabel.
Context {E : Type}.
Implicit Types t : NPTensor E.

Lemma setLabel_cases t lab :
  consistent t →
  ((∃ t', setLabel t lab = Ok t') ↔ length lab = bondNum_of t) ∧
  (length lab ≠ bondNum_of t → setLabel t lab = Raise AssertionError) ∧
  (∀ t', setLabel t lab = Ok t' →
         label t' = lab ∧ arr t' = arr t ∧ bn t' = bn t ∧ ibn t' = ibn t ∧
         consistent t').
Proof.
  intros (Hst & Hbn & Hlen & Hmap). unfold bondNum_of.
  assert (∀ t', setLabel t lab = Ok t' → length lab = bn t) as Hlab.
  { unfold setLabel. intros t' H.
    destruct (decide (length lab = ndim (arr t))) as [Heq|Hne]; [lia|].
    by rewrite bool_decide_false in H. }
  split; [split|split].
  - intros [t' Ht']. rewrite <- Hbn. eauto.
  - intros Heq. unfold setLabel.
    rewrite bool_decide_true by lia. simpl.
    destruct (mapLabelBond_loop_total lab (xrange (bn t)) ∅) as [m Hm].
    { apply Forall_forall. intros i [_ Hi]%elem_of_seq. lia. }
    eexists. unfold mapLabelBond. by rewrite Hm.
  - intros Hne. unfold setLabel. by rewrite bool_decide_false by lia.
  - intros t' Ht'. pose proof (Hlab t' Ht') as Heq.
    unfold setLabel in Ht'. rewrite bool_decide_true in Ht' by lia.
    simpl in Ht'. unfold mapLabelBond in Ht'.
    apply rbind_Ok in Ht' as (m & Hm & [= <-]). simpl.
    repeat split; done.
Qed.

(** C6, as the numpy path has it: [setLabel] succeeds exactly when there is
    one new label per axis (an [AssertionError] otherwise); nothing asks
    the labels to be distinct.  On success only the labels and the label
    dictionary change: the array, [bn] and [ibn] stay. *)
Theorem setLabel_spec t lab :
  consistent t →
  ((∃ t', setLabel t lab = Ok t') ↔ length lab = bondNum_of t) ∧
  (length lab ≠ bondNum_of t → setLabel t lab = Raise AssertionError) ∧
  (∀ t', setLabel t lab = Ok t' →
         label t' = lab ∧ arr t' = arr t ∧ bn t' = bn t ∧ ibn t' = ibn t ∧
         consistent t').
Proof. apply setLabel_cases. Qed.

End SetLabel.

Lemma setLabel_spec_witness :
  (∃ t', setLabel t_234 [5; 6; 7] = Ok t') ↔ length [5; 6; 7] = bondNum_of t_234.
Proof. apply (setLabel_spec t_234 [5; 6; 7] t_234_consistent). Defined.

(** C6 as stated fails on the numpy path: repeated labels are accepted. *)
Lemma setLabel_accepts_duplicates :
  ¬ (∀ (t : NPTensor Z) lab,
       (∃ t', setLabel t lab = Ok t') ↔
       length lab = bondNum_of t ∧ NoDup lab).
Proof.
  intros H. destruct (H t_234 [7; 7; 7]) as [H1 _].
  destruct H1 as [_ Hnd]; [by eexists|].
  apply NoDup_cons in Hnd as [Hnin _]. apply Hnin. by left.
Qed.

(** ** Multi-indices in C order *)

Lemma length_bind_uniform {A B} (f : A → list B) (l : list A) m :
  (∀ x, x ∈ l → length (f x) = m) → length (l ≫= f) = (length l * m)%nat.
Proof.
  induction l as [|x l IH]; intros Hf; [done|].
  change ((x :: l) ≫= f) with (f x ++ (l ≫= f)).
  rewrite length_app, IH, Hf; [simpl; lia | by left |].
  intros y Hy. apply Hf. by right.
Qed.

Lemma lookup_bind_uniform {A B} (f : A → list B) (l : list A) m i x r :
  (∀ y, y ∈ l → length (f y) = m) →
  l !! i = Some x → (r < m)%nat →
  (l ≫= f) !! (i * m + r)%nat = f x !! r.
Proof.
  revert i. induction l as [|y l IH]; intros i Hf Hi Hr; [done|].
  change ((y :: l) ≫= f) with (f y ++ (l ≫= f)).
  destruct i as [|i]; simpl in Hi.
  - injection Hi as ->. rewrite lookup_app_l; [done|].
    rewrite Hf; [lia | by left].
  - rewrite lookup_app_r; rewrite Hf; try (by left); [|lia].
    replace (S i * m + r - m)%nat with (i * m + r)%nat by lia.
    apply IH; [|done..]. intros z Hz. apply Hf. by right.
Qed.

Lemma indices_cons d sh :
  indices (d :: sh) = seq 0 d ≫= (λ i, (i ::.) <$> indices sh).
Proof. done. Qed.

Lemma elem_of_indices idx sh : idx ∈ indices sh ↔ in_shape idx sh.
Proof.
  unfold in_shape. revert idx. induction sh as [|d sh IH]; intros idx.
  - simpl. rewrite list_elem_of_singleton. split; [by intros -> | by inversion 1].
  - rewrite indices_cons, list_elem_of_bind. split.
    + intros (i & (idx' & -> & Hidx')%list_elem_of_fmap & [_ Hi]%elem_of_seq).
      constructor; [lia | by apply IH].
    + inversion 1 as [|i ? idx' ? Hi Hidx']; subst.
      exists i. split; [|apply elem_of_seq; lia].
      apply list_elem_of_fmap. exists idx'. split; [done | by apply IH].
Qed.

Lemma in_shape_length idx sh : in_shape idx sh → length idx = length sh.
Proof. apply Forall2_length. Qed.

Lemma NoDup_indices sh : NoDup (indices sh).
Proof.
  induction sh as [|d sh IH].
  - apply NoDup_singleton.
  - rewrite indices_cons. apply NoDup_bind.
    + intros i j idx _ _ (a & -> & _)%list_elem_of_fmap
        (b & [= -> _] & _)%list_elem_of_fmap. done.
    + intros i _. apply NoDup_fmap_2; [|done]. by intros ?? [= ->].
    + apply NoDup_seq.
Qed.

Lemma length_indices sh : length (indices sh) = size_of sh.
Proof.
  induction sh as [|d sh IH]; [done|].
  rewrite indices_cons.
  rewrite (length_bind_uniform _ _ (size_of sh)).
  - by rewrite length_seq.
  - intros i _. by rewrite length_fmap.
Qed.

Lemma bind_bind {A B C} (f : A → list B) (g : B → list C) (l : list A) :
  (l ≫= f) ≫= g = l ≫= (λ x, f x ≫= g).
Proof.
  induction l as [|x l IH]; [done|].
  rewrite !bind_cons, bind_app. by rewrite IH.
Qed.

Lemma fmap_bind_list {A B C} (f : A → list B) (h : B → C) (l : list A) :
  h <$> (l ≫= f) = l ≫= (λ x, h <$> f x).
Proof.
  induction l as [|x l IH]; [done|].
  rewrite !bind_cons, fmap_app. by rewrite IH.
Qed.

Lemma bind_fmap_list {A B C} (h : A → B) (g : B → list C) (l : list A) :
  (h <$> l) ≫= g = l ≫= (λ x, g (h x)).
Proof.
  induction l as [|x l IH]; [done|].
  rewrite fmap_cons, !bind_cons. by rewrite IH.
Qed.

Lemma indices_app sh1 sh2 :
  indices (sh1 ++ sh2) = indices sh1 ≫= (λ i, (i ++.) <$> indices sh2).
Proof.
  induction sh1 as [|d sh1 IH].
  - simpl. rewrite app_nil_r. by rewrite list_fmap_id.
  - rewrite <- app_comm_cons, !indices_cons, IH, bind_bind.
    apply list_bind_ext; [|done]. intros i.
    rewrite fmap_bind_list, bind_fmap_list.
    apply list_bind_ext; [|done]. intros idx.
    by rewrite <- list_fmap_compose.
Qed.

(** Row-major addressing: the position of a multi-index among the indices
    of its shape is its offset under the C strides. *)
Lemma flat_pos_c_strides idx sh :
  in_shape idx sh →
  (flat_pos idx (c_strides sh) < size_of sh)%nat ∧
  indices sh !! flat_pos idx (c_strides sh) = Some idx.
Proof.
  unfold in_shape. induction 1 as [|i d idx sh Hi _ [IHlt IH]].
  - simpl. split; [lia | done].
  - simpl c_strides. simpl flat_pos.
    change (foldr Nat.mul 1%nat sh) with (size_of sh).
    split.
    + change (size_of (d :: sh)) with (d * size_of sh)%nat. nia.
    + rewrite indices_cons.
      rewrite (lookup_bind_uniform _ _ (size_of sh) i i).
      * by rewrite list_lookup_fmap, IH.
      * intros j _. by rewrite length_fmap, length_indices.
      * by apply lookup_seq_lt.
      * done.
Qed.

(** ** Axis permutations *)

Lemma is_perm_seq axes n : is_perm axes n → axes ≡ₚ seq 0 n.
Proof.
  intros (Hlen & Hnd & Hlt).
  apply submseteq_length_Permutation.
  - apply NoDup_submseteq; [done|]. intros a Ha.
    apply elem_of_seq. rewrite Forall_forall in Hlt. specialize (Hlt a Ha). lia.
  - by rewrite length_seq, Hlen.
Qed.

Lemma is_perm_surj axes n j : is_perm axes n → (j < n)%nat → ∃ k, axes !! k = Some j.
Proof.
  intros Hp Hj. apply list_elem_of_lookup.
  rewrite (is_perm_seq _ _ Hp). apply elem_of_seq. lia.
Qed.

Lemma gather_fmap {A} (xs ys : list A) axes :
  gather xs axes = Some ys ↔ (xs !!.) <$> axes = Some <$> ys.
Proof.
  unfold gather. rewrite mapM_Some. revert ys.
  induction axes as [|a axes IH]; intros ys.
  - split; [by inversion 1 | by destruct ys].
  - split.
    + inversion 1 as [|? y ? ys' Hy Hys]; subst. simpl.
      f_equal; [done | by apply IH].
    + destruct ys as [|y ys]; [done|]. simpl. intros [= Hy Hys].
      constructor; [done | by apply IH].
Qed.

Lemma lookup_seq_self {A} (xs : list A) :
  (xs !!.) <$> seq 0 (length xs) = Some <$> xs.
Proof.
  apply list_eq. intros i. rewrite !list_lookup_fmap.
  destruct (decide (i < length xs)%nat) as [Hi|Hi].
  - rewrite lookup_seq_lt by done. simpl.
    destruct (lookup_lt_is_Some_2 xs i Hi) as [x Hx]. by rewrite Hx.
  - rewrite lookup_seq_ge by lia. by rewrite lookup_ge_None_2 by lia.
Qed.

Lemma gather_seq {A} (xs : list A) : gather xs (seq 0 (length xs)) = Some xs.
Proof. apply gather_fmap, lookup_seq_self. Qed.

Lemma fmap_Some_Permutation {A} (l1 l2 : list A) :
  Some <$> l1 ≡ₚ Some <$> l2 → l1 ≡ₚ l2.
Proof.
  intros H. apply Permutation_map_inv in H as (l3 & Heq & Hp).
  assert (l1 = l3) as ->; [|by symmetry].
  revert Heq. clear. revert l3. induction l1 as [|x l1 IH]; intros [|y l3]; try done.
  simpl. intros [= -> H]. f_equal. by apply IH.
Qed.

Lemma gather_Permutation {A} (xs ys : list A) axes :
  is_perm axes (length xs) → gather xs axes = Some ys → ys ≡ₚ xs.
Proof.
  intros Hp Hg. apply fmap_Some_Permutation.
  apply gather_fmap in Hg. rewrite <- Hg, <- lookup_seq_self.
  by rewrite (is_perm_seq _ _ Hp).
Qed.

Lemma gather_gatherD idx axes :
  Forall (λ a, (a < length idx)%nat) axes →
  gather idx axes = Some (gatherD axes idx).
Proof.
  intros H. apply gather_fmap. unfold gatherD.
  rewrite <- list_fmap_compose. apply Forall_fmap_ext.
  eapply Forall_impl; [exact H|]. intros a Ha. simpl.
  destruct (lookup_lt_is_Some_2 idx a Ha) as [x Hx]. by rewrite Hx.
Qed.

Lemma flat_pos_sum idx st :
  flat_pos idx st = sum_list (zip_with Nat.mul idx st).
Proof.
  revert st. induction idx as [|i idx IH]; intros [|s st]; simpl; try done.
  by rewrite IH.
Qed.

Lemma gather_zip_with {A B C} (f : A → B → C) xs ys axes xs' ys' :
  gather xs axes = Some xs' → gather ys axes = Some ys' →
  gather (zip_with f xs ys) axes = Some (zip_with f xs' ys').
Proof.
  unfold gather. rewrite !mapM_Some. revert xs' ys'.
  induction axes as [|a axes IH]; intros xs' ys'.
  - inversion 1; inversion 1; subst. constructor.
  - inversion 1 as [|? x ? xs'' Hx Hxs]; inversion 1 as [|? y ? ys'' Hy Hys]; subst.
    simpl. constructor; [|by apply IH].
    rewrite lookup_zip_with, Hx. simpl. by rewrite Hy.
Qed.

(** The offset of an index does not change when index and strides are
    gathered along the same axes. *)
Lemma flat_pos_gather idx st axes idx' st' :
  length idx = length st → is_perm axes (length st) →
  gather idx axes = Some idx' → gather st axes = Some st' →
  flat_pos idx' st' = flat_pos idx st.
Proof.
  intros Hlen Hp Hi Hs. rewrite !flat_pos_sum.
  pose proof (gather_zip_with Nat.mul _ _ _ _ _ Hi Hs) as Hz.
  apply gather_Permutation in Hz; [by rewrite Hz|].
  rewrite length_zip_with. by replace (length idx `min` length st)%nat
    with (length st) by lia.
Qed.

Lemma in_shape_gather idx sh axes idx' sh' :
  in_shape idx sh →
  gather idx axes = Some idx' → gather sh axes = Some sh' →
  in_shape idx' sh'.
Proof.
  unfold in_shape, gather. rewrite !mapM_Some. intros Hin. revert idx' sh'.
  induction axes as [|a axes IH]; intros idx' sh'.
  - inversion 1; inversion 1; subst. constructor.
  - inversion 1 as [|? x ? xs'' Hx Hxs]; inversion 1 as [|? y ? ys'' Hy Hys]; subst.
    constructor; [|by apply IH].
    by eapply (Forall2_lookup_lr _ _ _ a).
Qed.

Lemma size_of_Permutation sh1 sh2 : sh1 ≡ₚ sh2 → size_of sh1 = size_of sh2.
Proof.
  unfold size_of. induction 1; simpl; lia.
Qed.

Lemma gatherD_inj axes n idx1 idx2 :
  is_perm axes n → length idx1 = n → length idx2 = n →
  gatherD axes idx1 = gatherD axes idx2 → idx1 = idx2.
Proof.
  intros Hp H1 H2 Heq.
  apply list_eq_same_length with n; [done..|].
  intros j x y Hj Hx Hy.
  destruct (is_perm_surj axes n j Hp Hj) as [k Hk].
  assert (gatherD axes idx1 !! k = Some x) as Hgx.
  { unfold gatherD. by rewrite list_lookup_fmap, Hk; simpl; rewrite Hx. }
  assert (gatherD axes idx2 !! k = Some y) as Hgy.
  { unfold gatherD. by rewrite list_lookup_fmap, Hk; simpl; rewrite Hy. }
  congruence.
Qed.

(** The indices of the gathered shape are the gathered indices. *)
Lemma indices_gather sh axes sh' :
  is_perm axes (length sh) → gather sh axes = Some sh' →
  gatherD axes <$> indices sh ≡ₚ indices sh'.
Proof.
  intros Hp Hsh.
  apply submseteq_length_Permutation.
  - apply NoDup_submseteq.
    + apply NoDup_fmap_2_strong; [|apply NoDup_indices].
      intros i1 i2 H1%elem_of_indices H2%elem_of_indices.
      apply (gatherD_inj axes (length sh)); [done|by apply in_shape_length..].
    + intros idx' (idx & -> & Hidx%elem_of_indices)%list_elem_of_fmap.
      apply elem_of_indices.
      eapply in_shape_gather; [exact Hidx | | exact Hsh].
      apply gather_gatherD. rewrite (in_shape_length _ _ Hidx). apply Hp.
  - rewrite length_fmap, !length_indices.
    by rewrite (size_of_Permutation _ _ (gather_Permutation _ _ _ Hp Hsh)).
Qed.

(** ** [transpose] and [ravel] *)

Section Transpose.
Context {E : Type}.
Implicit Types a : ndarray E.

Lemma Forall2_fmap_Some {A B} (g : A → option B) xs ys :
  Forall2 (λ x y, g x = Some y) xs ys ↔ g <$> xs = Some <$> ys.
Proof.
  revert ys. induction xs as [|x xs IH]; intros ys.
  - split; [by inversion 1 | by destruct ys].
  - split.
    + inversion 1 as [|? y ? ys' Hy Hys]; subst. simpl.
      f_equal; [done | by apply IH].
    + destruct ys as [|y ys]; [done|]. simpl. intros [= Hy Hys].
      constructor; [done | by apply IH].
Qed.

Lemma Forall2_impl_elem {A B} (P Q : A → B → Prop) xs ys :
  Forall2 P xs ys → (∀ x y, x ∈ xs → P x y → Q x y) → Forall2 Q xs ys.
Proof.
  induction 1 as [|x y xs ys Hxy _ IH]; intros HPQ; constructor.
  - apply HPQ; [by left | done].
  - apply IH. intros x' y' Hx'. apply HPQ. by right.
Qed.

Lemma transpose_Ok a axes a' :
  length (strides a) = ndim a → transpose a axes = Ok a' →
  is_perm axes (ndim a) ∧
  gather (shape a) axes = Some (shape a') ∧
  gather (strides a) axes = Some (strides a') ∧
  buf a' = buf a ∧ cplx a' = cplx a.
Proof.
  intros Hst. unfold transpose.
  destruct (decide _) as [[Hlen Hnd]|]; [|done].
  destruct (gather (shape a) axes) as [sh|] eqn:Hsh; [|done].
  destruct (gather (strides a) axes) as [st|] eqn:Hstr; [|done].
  intros [= <-]. simpl. repeat split; try done.
  apply Forall_lookup. intros i x Hx.
  by destruct (gather_lookup _ _ _ Hsh) as [_ H]; destruct (H i x Hx).
Qed.

Lemma get_indices a idx :
  idx ∈ indices (shape a) → get a idx = buf a !! flat_pos idx (strides a).
Proof.
  intros H%elem_of_indices. unfold get. by rewrite decide_True.
Qed.

Lemma ravel_Ok a l :
  ravel a = Ok l ↔
  (λ idx, buf a !! flat_pos idx (strides a)) <$> indices (shape a) = Some <$> l.
Proof.
  unfold ravel. rewrite mapR_Ok, <- Forall2_fmap_Some.
  split; intros H; (eapply Forall2_impl_elem; [exact H|]);
    intros idx x Hidx; unfold getR; rewrite (get_indices _ _ Hidx).
  - by destruct (buf a !! _) as [y|]; [intros [= ->]|].
  - by intros ->.
Qed.

Lemma ravel_total a : valid a → ∃ l, ravel a = Ok l.
Proof.
  intros [_ Hv]. apply mapR_total.
  apply Forall_forall. intros idx Hidx.
  rewrite Forall_forall in Hv. specialize (Hv idx Hidx).
  destruct (lookup_lt_is_Some_2 _ _ Hv) as [x Hx].
  exists x. unfold getR. by rewrite (get_indices _ _ Hidx), Hx.
Qed.

Lemma ravel_length a l : ravel a = Ok l → length l = size_of (shape a).
Proof.
  intros H%mapR_Ok%Forall2_length. by rewrite <- H, length_indices.
Qed.

(** The offsets a transposed view visits are those of the array. *)
Lemma transpose_offsets a axes a' :
  length (strides a) = ndim a → transpose a axes = Ok a' →
  (λ idx, flat_pos idx (strides a')) <$> indices (shape a')
  ≡ₚ (λ idx, flat_pos idx (strides a)) <$> indices (shape a).
Proof.
  intros Hst Ht.
  destruct (transpose_Ok _ _ _ Hst Ht) as (Hp & Hsh & Hstr & _).
  rewrite <- (indices_gather _ _ _ Hp Hsh), <- list_fmap_compose.
  assert (∀ A (l1 l2 : list A), l1 = l2 → l1 ≡ₚ l2) as Heq by (by intros ??? ->).
  apply Heq, list_fmap_ext.
  intros i idx Hidx%list_elem_of_lookup_2%elem_of_indices%in_shape_length. simpl.
  eapply flat_pos_gather; [| |apply gather_gatherD|exact Hstr].
  - unfold ndim in Hst. lia.
  - by rewrite Hst.
  - rewrite Hidx. apply Hp.
Qed.

Lemma valid_transpose a axes a' :
  valid a → transpose a axes = Ok a' → valid a'.
Proof.
  intros [Hst Hv] Ht.
  destruct (transpose_Ok _ _ _ Hst Ht) as (Hp & Hsh & Hstr & Hbuf & _).
  split.
  - destruct (gather_lookup _ _ _ Hsh), (gather_lookup _ _ _ Hstr).
    unfold ndim. lia.
  - rewrite Hbuf.
    apply (Forall_fmap (λ idx, flat_pos idx (strides a'))
             (λ o, (o < length (buf a))%nat)).
    rewrite (transpose_offsets _ _ _ Hst Ht).
    by apply Forall_fmap.
Qed.

(** A transposed view holds the same elements, each as often. *)
Lemma ravel_transpose a axes a' l :
  valid a → transpose a axes = Ok a' → ravel a = Ok l →
  ∃ l', ravel a' = Ok l' ∧ l' ≡ₚ l.
Proof.
  intros Hv Ht Hl.
  destruct (ravel_total a' (valid_transpose _ _ _ Hv Ht)) as [l' Hl'].
  exists l'. split; [done|].
  destruct Hv as [Hst _].
  destruct (transpose_Ok _ _ _ Hst Ht) as (_ & _ & _ & Hbuf & _).
  apply fmap_Some_Permutation.
  apply ravel_Ok in Hl, Hl'. rewrite <- Hl, <- Hl', Hbuf.
  change (λ idx, buf a !! flat_pos idx (strides a'))
    with ((buf a !!.) ∘ (λ idx, flat_pos idx (strides a'))).
  change (λ idx, buf a !! flat_pos idx (strides a))
    with ((buf a !!.) ∘ (λ idx, flat_pos idx (strides a))).
  rewrite !list_fmap_compose.
  by rewrite (transpose_offsets _ _ _ Hst Ht).
Qed.

End Transpose.

(** ** Norm and element count under [permute] *)

Lemma permute_inv {E} (t t' : NPTensor E) lab k :
  permute t lab k = Ok t' →
  ∃ axes, transpose (arr t) axes = Ok (arr t') ∧ label t' = lab ∧
          bn t' = bn t.
Proof.
  unfold permute. intros (_ & _ & H)%rbind_Ok.
  apply rbind_Ok in H as (axes & _ & H).
  apply rbind_Ok in H as (npt & Ht & H).
  apply rbind_Ok in H as (_ & _ & H).
  unfold mapLabelBond in H. apply rbind_Ok in H as (m & _ & [= <-]).
  by exists axes.
Qed.

Lemma sum_with_Permutation {E} (sq : E → R) (l1 l2 : list E) :
  l1 ≡ₚ l2 → foldr Rplus 0%R (sq <$> l1) = foldr Rplus 0%R (sq <$> l2).
Proof.
  induction 1 as [|x l l' _ IH| |l l' l'' _ IH1 _ IH2].
  - done.
  - rewrite !fmap_cons. simpl. by rewrite IH.
  - rewrite !fmap_cons. simpl. lra.
  - by rewrite IH1.
Qed.




(** ** The outer product: [np.tensordot(a, b, axes=0)] *)

Section Outer.
Context {E : Type} (dot : list E → list E → E).
Implicit Types a b : ndarray E.

Lemma transpose_id a :
  length (strides a) = ndim a → transpose a (seq 0 (ndim a)) = Ok a.
Proof.
  intros Hst. unfold transpose.
  rewrite decide_True by (split; [apply length_seq | apply NoDup_seq]).
  unfold ndim at 1. rewrite gather_seq.
  rewrite <- Hst, gather_seq. by destruct a.
Qed.

Lemma notin_nil n : notin n [] = seq 0 n.
Proof.
  unfold notin. induction (seq 0 n) as [|k l IH]; [done|].
  rewrite filter_cons_True; [by rewrite IH | apply not_elem_of_nil].
Qed.

Lemma get_Some a idx x :
  get a idx = Some x ↔
  in_shape idx (shape a) ∧ buf a !! flat_pos idx (strides a) = Some x.
Proof. unfold get. destruct (decide _); [tauto|]. split; [done | tauto]. Qed.

Lemma Forall2_bind_concat {A B C} (P : B → C → Prop) (g : A → list B) xs
    (res : list (list C)) :
  Forall2 (λ x row, Forall2 P (g x) row) xs res →
  Forall2 P (xs ≫= g) (concat res).
Proof.
  induction 1 as [|x row xs res Hrow _ IH]; [constructor|].
  rewrite bind_cons. simpl. by apply Forall2_app.
Qed.

(** A C-contiguous array reads back the value computed for each index. *)
Lemma get_c_contiguous (P : list nat → E → Prop) sh (vs : list E) c idx :
  Forall2 P (indices sh) vs → in_shape idx sh →
  ∃ v, get (mk_ndarray vs sh (c_strides sh) c) idx = Some v ∧ P idx v.
Proof.
  intros HF Hin. destruct (flat_pos_c_strides _ _ Hin) as [_ Hpos].
  destruct (Forall2_lookup_l _ _ _ _ _ HF Hpos) as (v & Hv & HP).
  exists v. split; [|done]. by apply get_Some.
Qed.

Lemma length_c_strides sh : length (c_strides sh) = length sh.
Proof. induction sh; simpl; [done | by f_equal]. Qed.

Lemma valid_c_contiguous sh (vs : list E) c :
  length vs = size_of sh → valid (mk_ndarray vs sh (c_strides sh) c).
Proof.
  intros Hlen. split; simpl.
  - apply length_c_strides.
  - apply Forall_forall. intros idx Hidx%elem_of_indices.
    rewrite Hlen. by apply flat_pos_c_strides.
Qed.

Lemma getR_valid a idx :
  valid a → in_shape idx (shape a) → ∃ x, getR a idx = Ok x ∧ get a idx = Some x.
Proof.
  intros [_ Hv] Hin. rewrite Forall_forall in Hv.
  specialize (Hv idx (proj2 (elem_of_indices _ _) Hin)).
  destruct (lookup_lt_is_Some_2 _ _ Hv) as [x Hx].
  exists x. unfold getR, get. by rewrite decide_True, Hx.
Qed.

Lemma tensordot_outer a b :
  valid a → valid b →
  ∃ d, tensordot dot a b [] [] = Ok d ∧
       shape d = shape a ++ shape b ∧ valid d ∧
       ∀ i j x y, get a i = Some x → get b j = Some y →
                  get d (i ++ j) = Some (dot [x] [y]).
Proof.
  intros Hva Hvb. unfold tensordot. simpl.
  rewrite !notin_nil, app_nil_r, length_seq.
  rewrite !transpose_id by (apply Hva || apply Hvb). simpl.
  unfold ndim. rewrite take_ge, (drop_ge (shape a)) by lia. rewrite drop_0.
  set (cell := λ fa fb,
    va ← mapR (λ c, getR a (fa ++ c)) (indices []);
    vb ← mapR (λ c, getR b (c ++ fb)) (indices []);
    Ok (dot va vb)).
  set (P := λ (idx : list nat) (v : E),
    ∃ i j x y, idx = i ++ j ∧ i ∈ indices (shape a) ∧
               get a i = Some x ∧ get b j = Some y ∧ v = dot [x] [y]).
  assert (∀ fa fb, fa ∈ indices (shape a) → fb ∈ indices (shape b) →
            ∃ x y, cell fa fb = Ok (dot [x] [y]) ∧
                   get a fa = Some x ∧ get b fb = Some y) as Hcell.
  { intros fa fb Hfa%elem_of_indices Hfb%elem_of_indices.
    destruct (getR_valid a fa Hva Hfa) as (x & Hx & Hgx).
    destruct (getR_valid b fb Hvb Hfb) as (y & Hy & Hgy).
    exists x, y. split; [|done]. unfold cell. simpl.
    by rewrite app_nil_r, Hx; simpl; rewrite Hy. }
  destruct (mapR_total (λ fa, mapR (cell fa) (indices (shape b)))
              (indices (shape a))) as [res Hres].
  { apply Forall_forall. intros fa Hfa. apply mapR_total.
    apply Forall_forall. intros fb Hfb.
    destruct (Hcell fa fb Hfa Hfb) as (x & y & Hc & _). eauto. }
  change (mapR _ (indices (shape a)))
    with (mapR (λ fa, mapR (cell fa) (indices (shape b))) (indices (shape a))).
  rewrite Hres. simpl.
  assert (Forall2 P (indices (shape a ++ shape b)) (concat res)) as HP.
  { rewrite indices_app. apply Forall2_bind_concat.
    apply mapR_Ok in Hres. eapply Forall2_impl_elem; [exact Hres|].
    intros fa row Hfa Hrow%mapR_Ok.
    apply Forall2_fmap_l. eapply Forall2_impl_elem; [exact Hrow|].
    intros fb v Hfb Hv. change (cell fa fb = Ok v) in Hv. simpl.
    destruct (Hcell fa fb Hfa Hfb) as (x & y & Hc & Hx & Hy).
    rewrite Hc in Hv. injection Hv as <-. by exists fa, fb, x, y. }
  eexists. split; [done|]. simpl. split; [done|]. split.
  - apply valid_c_contiguous.
    by rewrite <- (Forall2_length _ _ _ HP), length_indices.
  - intros i j x y [Hi Hx]%get_Some [Hj Hy]%get_Some.
    destruct (get_c_contiguous P _ _ (cplx a || cplx b) (i ++ j) HP)
      as (v & Hv & (i' & j' & x' & y' & Heq & Hi' & Hx' & Hy' & ->)).
    { by apply Forall2_app. }
    apply app_inj_1 in Heq as [<- <-].
    + rewrite Hv. apply get_Some in Hx' as [_ Hx'], Hy' as [_ Hy']. congruence.
    + apply elem_of_indices, in_shape_length in Hi'.
      apply in_shape_length in Hi. lia.
Qed.

End Outer.

(** ** Rearrangements that commute with [fmap] *)

Section Natural.
Context (F : ∀ A, list A → list A).
Context (HF : ∀ A B (f : A → B) l, F B (f <$> l) = f <$> F A l).

Lemma gather_natural {A} (l : list A) :
  gather l (F nat (seq 0 (length l))) = Some (F A l).
Proof. apply gather_fmap. by rewrite <- !HF, lookup_seq_self. Qed.

Lemma pos_of_natural {A} (l : list A) axes :
  NoDup l → pos_of (F A l) l axes → axes = F nat (seq 0 (length l)).
Proof.
  intros Hnd [Hlen Hpos].
  destruct (gather_lookup _ _ _ (gather_natural l)) as [HlenF HF'].
  apply list_eq_same_length with (length axes); [lia | lia |].
  intros k j j' Hk Hj Hj'.
  destruct (lookup_lt_is_Some_2 (F A l) k) as [x Hx]; [lia|].
  destruct (Hpos k x Hx) as (j0 & Hj0 & Hl0).
  destruct (HF' k j' Hj') as [Hl' _].
  rewrite Hx in Hl'. rewrite Hj in Hj0. injection Hj0 as <-.
  by eapply NoDup_lookup.
Qed.

End Natural.

Lemma in_out_order_fmap a b n1 A B (f : A → B) (l : list A) :
  in_out_order a b n1 (f <$> l) = f <$> in_out_order a b n1 l.
Proof.
  unfold in_out_order.
  by rewrite !fmap_app, !fmap_take, !fmap_drop, !fmap_take.
Qed.

Lemma in_out_order_app a b {A} (l1 l2 : list A) :
  in_out_order a b (length l1) (l1 ++ l2) =
  take a l1 ++ take b l2 ++ drop a l1 ++ drop b l2.
Proof.
  unfold in_out_order. by rewrite take_app_length, drop_app_length.
Qed.

(** ** Pieces of [contractNPT] *)

Lemma mapR_py_index_take {A} (l : list A) n :
  (n ≤ length l)%nat → mapR (py_index l) (xrange n) = Ok (take n l).
Proof.
  intros Hn. apply mapR_Ok, Forall2_same_length_lookup. split.
  - unfold xrange. rewrite length_seq, length_take. lia.
  - intros i j x [-> _]%lookup_seq Hx. unfold py_index.
    rewrite lookup_take_Some in Hx. destruct Hx as [Hx _].
    simpl. by rewrite Hx.
Qed.

Lemma mapR_py_index_drop {A} (l : list A) n :
  mapR (py_index l) (xrange2 n (length l)) = Ok (drop n l).
Proof.
  apply mapR_Ok, Forall2_same_length_lookup. split.
  - unfold xrange2. by rewrite length_seq, length_drop.
  - intros i j x [-> _]%lookup_seq Hx. unfold py_index.
    rewrite lookup_drop in Hx. by rewrite Hx.
Qed.

Lemma lab_common_disjoint (l1 l2 : list Z) :
  (∀ x, x ∈ l1 → x ∉ l2) →
  elements (list_to_set l1 ∩ list_to_set l2 : gset Z) = [].
Proof.
  intros H. apply elements_empty_iff. apply elem_of_equiv_empty.
  intros x [H1%elem_of_list_to_set H2%elem_of_list_to_set]%elem_of_intersection.
  by apply (H x).
Qed.

Lemma filter_notin_nil (l : list Z) : filter (λ x, x ∉ []) l = l.
Proof.
  induction l as [|x l IH]; [done|].
  rewrite filter_cons_True; [by rewrite IH | apply not_elem_of_nil].
Qed.

Lemma NPTensor_new_PyArr {E} (d : ndarray E) :
  length (strides d) = ndim d →
  ∃ npt, NPTensor_new (PyArr d) = Ok npt ∧ arr npt = d ∧
         label npt = Z.of_nat <$> seq 0 (ndim d) ∧
         bn npt = ndim d ∧ ibn npt = ndim d ∧ consistent npt.
Proof.
  intros Hst. simpl. unfold mapLabelBond.
  destruct (mapLabelBond_loop_total (Z.of_nat <$> seq 0 (ndim d))
              (xrange (ndim d)) ∅) as [m Hm].
  { apply Forall_forall. intros i [_ Hi]%elem_of_seq. cbv beta.
    rewrite length_fmap, length_seq. lia. }
  rewrite Hm. eexists. split; [done|].
  repeat split; try done. cbn [label bn]. by rewrite length_fmap, length_seq.
Qed.

Lemma in_out_order_Permutation a b n1 {A} (l : list A) :
  in_out_order a b n1 l ≡ₚ l.
Proof.
  unfold in_out_order.
  rewrite (Permutation_app_swap_app (take b _)), (assoc_L (++)).
  by rewrite !take_drop.
Qed.

Lemma get_transpose {E} (a a' : ndarray E) axes idx x :
  length (strides a) = ndim a → transpose a axes = Ok a' →
  get a idx = Some x → get a' (gatherD axes idx) = Some x.
Proof.
  intros Hst Ht [Hin Hx]%get_Some.
  destruct (transpose_Ok _ _ _ Hst Ht) as (Hp & Hsh & Hstr & Hbuf & _).
  pose proof (in_shape_length _ _ Hin) as Hlen.
  assert (gather idx axes = Some (gatherD axes idx)) as Hg.
  { apply gather_gatherD. rewrite Hlen. apply Hp. }
  apply get_Some. split.
  - by eapply in_shape_gather.
  - rewrite Hbuf, (flat_pos_gather idx (strides a) axes); try done.
    + unfold ndim in Hst. lia.
    + by rewrite Hst.
Qed.

(** ** [contractNPT] without shared labels *)

Section ContractDisjoint.
Context {E : Type} (dot : list E → list E → E).
Implicit Types t : NPTensor E.

(** The branch of [contractNPT] for tensors without a common label. *)
Lemma contractNPT_outer t1 t2 :
  consistent t1 → consistent t2 → valid (arr t1) → valid (arr t2) →
  NoDup (label t1) → NoDup (label t2) →
  (ibn t1 ≤ bn t1)%nat → (ibn t2 ≤ bn t2)%nat →
  (∀ x, x ∈ label t1 → x ∉ label t2) →
  ∃ r, contractNPT dot t1 t2 = Ok r ∧
    label r = take (ibn t1) (label t1) ++ take (ibn t2) (label t2) ++
              drop (ibn t1) (label t1) ++ drop (ibn t2) (label t2) ∧
    ibn r = (ibn t1 + ibn t2)%nat ∧
    bn r = (bn t1 + bn t2)%nat ∧
    shape (arr r) =
      take (ibn t1) (shape (arr t1)) ++ take (ibn t2) (shape (arr t2)) ++
      drop (ibn t1) (shape (arr t1)) ++ drop (ibn t2) (shape (arr t2)) ∧
    ∀ i j x y,
      get (arr t1) i = Some x → get (arr t2) j = Some y →
      get (arr r) (take (ibn t1) i ++ take (ibn t2) j ++
                   drop (ibn t1) i ++ drop (ibn t2) j) = Some (dot [x] [y]).
Proof.
  intros Hc1 Hc2 Hv1 Hv2 Hnd1 Hnd2 Hi1 Hi2 Hdisj.
  destruct Hc1 as (Hst1 & Hbn1 & Hlen1 & Hmap1).
  destruct Hc2 as (Hst2 & Hbn2 & Hlen2 & Hmap2).
  unfold contractNPT. rewrite (lab_common_disjoint _ _ Hdisj).
  rewrite decide_False by (simpl; lia). rewrite filter_notin_nil.
  destruct (tensordot_outer dot _ _ Hv1 Hv2) as (d & Hd & Hshd & Hvd & Hget).
  rewrite Hd. simpl.
  destruct (NPTensor_new_PyArr d (proj1 Hvd))
    as (npt0 & Hnew & Harr0 & Hlab0 & Hbn0 & Hibn0 & Hc0).
  change (mapLabelBond d _ _ _) with (NPTensor_new (PyArr d)).
  rewrite Hnew. simpl.
  assert (ndim d = (bn t1 + bn t2)%nat) as Hnd.
  { unfold ndim in *. rewrite Hshd, length_app. lia. }
  destruct (setLabel_cases npt0 (label t1 ++ label t2) Hc0)
    as ([_ Hset] & _ & Hset').
  destruct Hset as [npt1 Hnpt1].
  { unfold bondNum_of. rewrite Harr0, length_app. lia. }
  destruct (Hset' npt1 Hnpt1) as (Hlab1 & Harr1 & Hbn1' & _ & Hc1').
  rewrite Hnpt1. simpl.
  rewrite (mapR_py_index_take (label t1)) by lia.
  rewrite (mapR_py_index_take (label t2)) by lia.
  rewrite <- Hlen1, <- Hlen2, !mapR_py_index_drop. simpl.
  rewrite Hlen1, Hlen2.
  set (F := λ A, @in_out_order (ibn t1) (ibn t2) (bn t1) A).
  assert (∀ A (l1 l2 : list A), length l1 = bn t1 →
            take (ibn t1) l1 ++ take (ibn t2) l2 ++
            drop (ibn t1) l1 ++ drop (ibn t2) l2 = F A (l1 ++ l2)) as HF.
  { intros A l1 l2 Hl. unfold F. by rewrite <- Hl, in_out_order_app. }
  rewrite (HF _ (label t1) (label t2) Hlen1).
  assert (NoDup (label npt1)) as Hnd1'.
  { rewrite Hlab1. apply NoDup_app. done. }
  destruct (permute_spec npt1 (F Z (label t1 ++ label t2))
              (Z.of_nat (ibn t1 + ibn t2)) Hc1' Hnd1')
    as (axes & sh & st & m & Hpos & Hsh & Hstr & Hm & Heq & Htr).
  { rewrite Hlab1. apply in_out_order_Permutation. }
  rewrite Heq. eexists. split; [done|]. simpl.
  rewrite bool_decide_true by lia. rewrite Nat2Z.id.
  rewrite Hlab1 in Hpos.
  apply (pos_of_natural F) in Hpos;
    [|intros; apply in_out_order_fmap | by rewrite <- Hlab1].
  rewrite Harr1, Harr0 in Hsh, Htr.
  assert (length (shape d) = length (label t1 ++ label t2)) as Hlsh.
  { rewrite Hshd, !length_app. unfold ndim in *. lia. }
  repeat split; try lia.
  - rewrite Hshd, Hpos, <- Hlsh, <- Hshd in Hsh.
    rewrite (gather_natural F) in Hsh by (intros; apply in_out_order_fmap).
    injection Hsh as <-. rewrite Hshd. symmetry. apply HF.
    unfold ndim in *. lia.
  - intros i j x y Hx Hy.
    pose proof (Hget i j x y Hx Hy) as Hxy.
    apply (get_transpose _ _ _ _ _ (proj1 Hvd) Htr) in Hxy.
    apply get_Some in Hx as [Hx%in_shape_length _].
    apply get_Some in Hy as [Hy%in_shape_length _].
    assert (gatherD axes (i ++ j) = F nat (i ++ j)) as Hgd.
    { assert (Some (gatherD axes (i ++ j)) = Some (F nat (i ++ j))) as [=]; [|done].
      rewrite <- (gather_natural F) by (intros; apply in_out_order_fmap).
      rewrite <- gather_gatherD.
      - rewrite Hpos.
        replace (length (i ++ j)) with (length (label t1 ++ label t2));
          [done|].
        rewrite !length_app. unfold ndim in *. lia.
      - rewrite Hpos.
        pose proof (gather_natural F (in_out_order_fmap _ _ _)
                      (label t1 ++ label t2)) as Hg.
        apply gather_lookup in Hg as [_ Hg].
        apply Forall_lookup. intros k a Ha.
        destruct (Hg k a Ha) as [_ Hlt].
        rewrite !length_app in *. unfold ndim in *. lia. }
    rewrite Hgd in Hxy.
    rewrite (HF nat i j) by (unfold ndim in *; lia).
    simpl. by rewrite Harr1, Harr0.
Qed.

(** C10: for two tensors without a common label, [contractNPT] returns the
    outer product with the bonds regrouped: its labels are the incoming
    labels of [t1], the incoming labels of [t2], the outgoing labels of
    [t1], the outgoing labels of [t2]; it has [ibn t1 + ibn t2] incoming
    bonds; its shape is regrouped likewise and the element at the
    regrouped index of [i] and [j] is the product of [t1[i]] and
    [t2[j]]. *)
Theorem contractNPT_disjoint t1 t2 :
  consistent t1 → consistent t2 → valid (arr t1) → valid (arr t2) →
  NoDup (label t1) → NoDup (label t2) →
  (ibn t1 ≤ bn t1)%nat → (ibn t2 ≤ bn t2)%nat →
  (∀ x, x ∈ label t1 → x ∉ label t2) →
  ∃ r, contractNPT dot t1 t2 = Ok r ∧
    label r = take (ibn t1) (label t1) ++ take (ibn t2) (label t2) ++
              drop (ibn t1) (label t1) ++ drop (ibn t2) (label t2) ∧
    ibn r = (ibn t1 + ibn t2)%nat ∧
    bn r = (bn t1 + bn t2)%nat ∧
    shape (arr r) =
      take (ibn t1) (shape (arr t1)) ++ take (ibn t2) (shape (arr t2)) ++
      drop (ibn t1) (shape (arr t1)) ++ drop (ibn t2) (shape (arr t2)) ∧
    ∀ i j x y,
      get (arr t1) i = Some x → get (arr t2) j = Some y →
      get (arr r) (take (ibn t1) i ++ take (ibn t2) j ++
                   drop (ibn t1) i ++ drop (ibn t2) j) = Some (dot [x] [y]).
Proof. apply contractNPT_outer. Qed.

End ContractDisjoint.

(** ** [np.tensordot] over paired axes *)

Lemma is_perm_of_Permutation l n : l ≡ₚ seq 0 n → is_perm l n.
Proof.
  intros H. repeat split.
  - by rewrite H, length_seq.
  - rewrite H. apply NoDup_seq.
  - rewrite H. apply Forall_forall. intros a Ha%elem_of_seq. lia.
Qed.

Lemma notin_Permutation n axes :
  NoDup axes → Forall (λ a, (a < n)%nat) axes →
  notin n axes ++ axes ≡ₚ seq 0 n.
Proof.
  intros Hnd Hlt. rewrite Forall_forall in Hlt. unfold notin.
  apply NoDup_Permutation.
  - apply NoDup_app. split; [apply NoDup_filter, NoDup_seq|]. split; [|done].
    by intros x [Hx _]%list_elem_of_filter.
  - apply NoDup_seq.
  - intros x. rewrite elem_of_app, list_elem_of_filter, !elem_of_seq. split.
    + intros [[_ ?]|Hx%Hlt]; lia.
    + intros Hx. destruct (decide (x ∈ axes)); [by right | by left].
Qed.

Lemma is_perm_notin n axes :
  NoDup axes → Forall (λ a, (a < n)%nat) axes →
  is_perm (notin n axes ++ axes) n ∧ is_perm (axes ++ notin n axes) n.
Proof.
  intros Hnd Hlt. split; apply is_perm_of_Permutation.
  - by apply notin_Permutation.
  - rewrite Permutation_app_comm. by apply notin_Permutation.
Qed.

Lemma gather_app {A} (xs : list A) l1 l2 y1 y2 :
  gather xs l1 = Some y1 → gather xs l2 = Some y2 →
  gather xs (l1 ++ l2) = Some (y1 ++ y2).
Proof.
  rewrite !gather_fmap, !fmap_app. by intros -> ->.
Qed.

Lemma gather_bound {A} (xs ys : list A) axes :
  gather xs axes = Some ys → Forall (λ a, (a < length xs)%nat) axes.
Proof.
  intros H. apply Forall_lookup. intros i a Ha.
  by destruct (gather_lookup _ _ _ H) as [_ H']; destruct (H' i a Ha).
Qed.

Lemma notin_bound n axes : Forall (λ a, (a < n)%nat) (notin n axes).
Proof.
  apply Forall_forall. intros a [_ Ha%elem_of_seq]%list_elem_of_filter. lia.
Qed.

Lemma transpose_is_perm {E} (a : ndarray E) axes :
  length (strides a) = ndim a → is_perm axes (ndim a) →
  ∃ sh st, gather (shape a) axes = Some sh ∧
           gather (strides a) axes = Some st ∧
           transpose a axes = Ok (mk_ndarray (buf a) sh st (cplx a)).
Proof.
  intros Hst (Hlen & Hnd & Hlt).
  destruct (gather_total (shape a) axes Hlt) as [sh Hsh].
  destruct (gather_total (strides a) axes) as [st Hstr]; [by rewrite Hst|].
  exists sh, st. split; [done|]. split; [done|].
  unfold transpose. rewrite decide_True by done. by rewrite Hsh, Hstr.
Qed.

Lemma shape_match_gather sa sb xa xb inner :
  gather sa xa = Some inner → gather sb xb = Some inner →
  shape_match sa sb (zip xa xb) = Ok true.
Proof.
  unfold gather. rewrite !mapM_Some. revert xb inner.
  induction xa as [|x xa IH]; intros xb inner Ha Hb; [done|].
  inversion Ha as [|? d ? inner' Hx Hxa]; subst.
  inversion Hb as [|y ? xb' ? Hy Hxb]; subst.
  simpl. unfold py_index. rewrite Hx, Hy. simpl.
  rewrite decide_True by done. by eapply IH.
Qed.

Section Tensordot.
Context {E : Type} (dot : list E → list E → E).
Implicit Types a b : ndarray E.

(** [tensordot] succeeds when the paired axes are distinct and have the
    same dimensions; the result has the free axes of [a], then those of
    [b]. *)
Lemma tensordot_Ok a b axes_a axes_b inner :
  valid a → valid b → NoDup axes_a → NoDup axes_b →
  gather (shape a) axes_a = Some inner →
  gather (shape b) axes_b = Some inner →
  ∃ d olda oldb,
    tensordot dot a b axes_a axes_b = Ok d ∧
    gather (shape a) (notin (ndim a) axes_a) = Some olda ∧
    gather (shape b) (notin (ndim b) axes_b) = Some oldb ∧
    shape d = olda ++ oldb ∧ valid d.
Proof.
  intros Hva Hvb Hnda Hndb Hia Hib.
  pose proof (gather_bound _ _ _ Hia) as Hba.
  pose proof (gather_bound _ _ _ Hib) as Hbb.
  destruct (gather_lookup _ _ _ Hia) as [Hla _].
  destruct (gather_lookup _ _ _ Hib) as [Hlb _].
  destruct (gather_total (shape a) (notin (ndim a) axes_a)) as [olda Holda];
    [apply notin_bound|].
  destruct (gather_total (shape b) (notin (ndim b) axes_b)) as [oldb Holdb];
    [apply notin_bound|].
  destruct (gather_lookup _ _ _ Holda) as [Hloa _].
  destruct (gather_lookup _ _ _ Holdb) as [Hlob _].
  destruct (is_perm_notin (ndim a) axes_a Hnda Hba) as [Hpa _].
  destruct (is_perm_notin (ndim b) axes_b Hndb Hbb) as [_ Hpb].
  destruct (transpose_is_perm a _ (proj1 Hva) Hpa) as (sha & sta & Hsha & _ & Hta).
  destruct (transpose_is_perm b _ (proj1 Hvb) Hpb) as (shb & stb & Hshb & _ & Htb).
  rewrite (gather_app _ _ _ _ _ Holda Hia) in Hsha. injection Hsha as <-.
  rewrite (gather_app _ _ _ _ _ Hib Holdb) in Hshb. injection Hshb as <-.
  pose proof (valid_transpose _ _ _ Hva Hta) as Hvat.
  pose proof (valid_transpose _ _ _ Hvb Htb) as Hvbt.
  unfold tensordot.
  rewrite decide_True by lia.
  rewrite (shape_match_gather _ _ _ _ _ Hia Hib). simpl.
  rewrite Hta, Htb. simpl.
  rewrite <- Hloa, take_app_length, drop_app_length.
  replace (length axes_b) with (length inner) by lia.
  rewrite drop_app_length.
  set (at_ := mk_ndarray (buf a) _ _ _) in *.
  set (bt := mk_ndarray (buf b) _ _ _) in *.
  set (cell := λ fa fb,
    va ← mapR (λ c, getR at_ (fa ++ c)) (indices inner);
    vb ← mapR (λ c, getR bt (c ++ fb)) (indices inner);
    Ok (dot va vb)).
  change (mapR _ (indices olda))
    with (mapR (λ fa, mapR (cell fa) (indices oldb)) (indices olda)).
  destruct (mapR_total (λ fa, mapR (cell fa) (indices oldb)) (indices olda))
    as [res Hres].
  { apply Forall_forall. intros fa Hfa%elem_of_indices. apply mapR_total.
    apply Forall_forall. intros fb Hfb%elem_of_indices.
    destruct (mapR_total (λ c, getR at_ (fa ++ c)) (indices inner)) as [va Hva'].
    { apply Forall_forall. intros c Hc%elem_of_indices.
      destruct (getR_valid at_ (fa ++ c) Hvat) as (x & Hx & _); [|by exists x].
      by apply Forall2_app. }
    destruct (mapR_total (λ c, getR bt (c ++ fb)) (indices inner)) as [vb Hvb'].
    { apply Forall_forall. intros c Hc%elem_of_indices.
      destruct (getR_valid bt (c ++ fb) Hvbt) as (x & Hx & _); [|by exists x].
      by apply Forall2_app. }
    exists (dot va vb). unfold cell. rewrite Hva'. simpl. by rewrite Hvb'. }
  rewrite Hres. simpl.
  exists (mk_ndarray (concat res) (olda ++ oldb) (c_strides (olda ++ oldb))
            (cplx a || cplx b)), olda, oldb.
  repeat split; try done.
  - apply length_c_strides.
  - simpl. apply Forall_forall. intros idx Hidx%elem_of_indices.
    assert (length (concat res) = size_of (olda ++ oldb)) as ->;
      [|by apply flat_pos_c_strides].
    rewrite <- length_indices, indices_app.
    symmetry. apply (Forall2_length (λ _ _, True)).
    apply Forall2_bind_concat. apply mapR_Ok in Hres.
    eapply Forall2_impl; [exact Hres|].
    intros fa row Hrow%mapR_Ok. simpl.
    apply Forall2_fmap_l. eapply Forall2_impl; [exact Hrow | done].
Qed.

End Tensordot.

Lemma shape_match_differ sa sb xa xb ia ib :
  gather sa xa = Some ia → gather sb xb = Some ib →
  length xa = length xb → ia ≠ ib →
  shape_match sa sb (zip xa xb) = Ok false.
Proof.
  unfold gather. rewrite !mapM_Some. revert xb ia ib.
  induction xa as [|x xa IH]; intros xb ia ib Ha Hb Hlen Hne.
  - destruct xb; [|done]. inversion Ha; inversion Hb; by subst.
  - destruct xb as [|y xb]; [done|].
    inversion Ha as [|? d ? ia' Hx Hxa]; subst.
    inversion Hb as [|? d' ? ib' Hy Hxb]; subst.
    simpl. unfold py_index. rewrite Hx, Hy. simpl.
    destruct (decide (d = d')) as [->|]; [|done].
    eapply IH; [done | done | by injection Hlen | congruence].
Qed.

Lemma tensordot_mismatch {E} (dot : list E → list E → E) (a b : ndarray E)
    axes_a axes_b ia ib :
  gather (shape a) axes_a = Some ia → gather (shape b) axes_b = Some ib →
  ia ≠ ib → tensordot dot a b axes_a axes_b = Raise ValueError.
Proof.
  intros Ha Hb Hne. unfold tensordot.
  destruct (decide (length axes_a = length axes_b)) as [Hlen|]; [|done].
  by rewrite (shape_match_differ _ _ _ _ _ _ Ha Hb Hlen Hne).
Qed.

(** ** Labels and positions *)

Lemma gather_app_l {A} (xs ys : list A) l :
  Forall (λ a, (a < length xs)%nat) l → gather (xs ++ ys) l = gather xs l.
Proof.
  intros H. unfold gather. induction H as [|a l Ha _ IH]; [done|].
  simpl. by rewrite lookup_app_l, IH.
Qed.

Lemma filter_ext_elem {A} (P Q : A → Prop) `{!∀ x, Decision (P x)}
    `{!∀ x, Decision (Q x)} (l : list A) :
  (∀ x, x ∈ l → (P x ↔ Q x)) → filter P l = filter Q l.
Proof.
  induction l as [|x l IH]; intros Hl; [done|].
  rewrite !filter_cons.
  rewrite IH by (intros y Hy; apply Hl; by right).
  apply decide_ext, Hl. by left.
Qed.

(** Filtering the entries by [P] picks the positions filtered by [Q], when
    [P] on an entry says what [Q] says on its position. *)
Lemma filter_positions {A} (P : A → Prop) (Q : nat → Prop)
    `{!∀ x, Decision (P x)} `{!∀ k, Decision (Q k)} (lab : list A) :
  (∀ k x, lab !! k = Some x → (P x ↔ Q k)) →
  gather lab (filter Q (seq 0 (length lab))) = Some (filter P lab).
Proof.
  induction lab as [|x lab IH] using rev_ind; intros Hlab; [done|].
  rewrite length_app, Nat.add_comm. simpl length. cbn [Nat.add].
  rewrite seq_S, !filter_app. simpl.
  apply gather_app.
  - rewrite gather_app_l.
    + apply IH. intros k y Hk. apply Hlab. by apply lookup_app_l_Some.
    + apply Forall_forall. intros a [_ Ha%elem_of_seq]%list_elem_of_filter. lia.
  - assert (P x ↔ Q (length lab)) as HPQ.
    { apply Hlab. by rewrite lookup_app_r, Nat.sub_diag. }
    rewrite !filter_cons, !filter_nil.
    destruct (decide (Q (length lab))) as [HQ|HQ].
    + rewrite decide_True by tauto. unfold gather. simpl.
      by rewrite lookup_app_r, Nat.sub_diag.
    + by rewrite decide_False by tauto.
Qed.

Section Positions.
Context {E : Type}.
Implicit Types t : NPTensor E.

Lemma lbmap_lookup t x p :
  consistent t → NoDup (label t) → label t !! p = Some x →
  lbmap t !! x = Some p.
Proof.
  intros (_ & _ & Hlen & Hmap) Hnd Hp.
  eapply mapLabelBond_loop_lookup; [done | exact Hmap | exact Hp |].
  left. apply elem_of_seq. apply lookup_lt_Some in Hp. lia.
Qed.

Lemma lookup_positions t common :
  consistent t → NoDup (label t) → (∀ x, x ∈ common → x ∈ label t) →
  ∃ idx, mapR (py_getitem (lbmap t)) common = Ok idx ∧
         pos_of common (label t) idx.
Proof.
  intros Hc Hnd Hsub.
  assert (∀ x, x ∈ common → ∃ p, label t !! p = Some x ∧ lbmap t !! x = Some p)
    as Hpos.
  { intros x [p Hp]%Hsub%list_elem_of_lookup. exists p. split; [done|].
    by apply lbmap_lookup. }
  destruct (mapR_total (py_getitem (lbmap t)) common) as [idx Hidx].
  { apply Forall_forall. intros x (p & _ & Hp)%Hpos.
    exists p. unfold py_getitem. by rewrite Hp. }
  exists idx. split; [done|]. apply mapR_Ok in Hidx. split.
  - symmetry. by eapply Forall2_length.
  - intros i x Hx.
    destruct (Forall2_lookup_l _ _ _ _ _ Hidx Hx) as (a & Ha & Hf).
    destruct (Hpos x) as (p & Hp & Hm); [by eapply list_elem_of_lookup_2|].
    unfold py_getitem in Hf. rewrite Hm in Hf. injection Hf as <-. by exists p.
Qed.

(** A position is among those of the common labels exactly when its label
    is common. *)
Lemma pos_of_elem (common lab : list Z) idx k x :
  NoDup lab → pos_of common lab idx → lab !! k = Some x →
  x ∈ common ↔ k ∈ idx.
Proof.
  intros Hnd [Hlen Hpos] Hk. split.
  - intros [m Hm]%list_elem_of_lookup.
    destruct (Hpos m x Hm) as (p & Hp & Hl).
    rewrite (NoDup_lookup _ _ _ _ Hnd Hk Hl). by eapply list_elem_of_lookup_2.
  - intros [m Hm]%list_elem_of_lookup.
    destruct (lookup_lt_is_Some_2 common m) as [y Hy].
    { rewrite <- Hlen. by eapply lookup_lt_Some. }
    destruct (Hpos m y Hy) as (p & Hp & Hl).
    rewrite Hm in Hp. injection Hp as <-.
    rewrite Hk in Hl. injection Hl as ->. by eapply list_elem_of_lookup_2.
Qed.

(** The dimensions at the positions of the common labels. *)
Lemma gather_dim_of t common idx dims :
  consistent t → NoDup (label t) → pos_of common (label t) idx →
  gather (shape (arr t)) idx = Some dims →
  ∀ m x, common !! m = Some x → dims !! m = dim_of t x.
Proof.
  intros Hc Hnd [Hlen Hpos] Hg m x Hm.
  destruct (Hpos m x Hm) as (p & Hp & Hl).
  destruct (gather_lookup _ _ _ Hg) as [_ Hd].
  destruct (Hd m p Hp) as [-> _].
  unfold dim_of. by rewrite (lbmap_lookup t x p Hc Hnd Hl).
Qed.

End Positions.

(** ** [contractNPT] over shared labels *)

Section ContractShared.
Context {E : Type} (dot : list E → list E → E).
Implicit Types t : NPTensor E.

Lemma elem_of_shared (l1 l2 : list Z) x :
  x ∈ elements (list_to_set l1 ∩ list_to_set l2 : gset Z) ↔ x ∈ l1 ∧ x ∈ l2.
Proof.
  by rewrite elem_of_elements, elem_of_intersection, !elem_of_list_to_set.
Qed.

(** The positions and dimensions of the shared labels in both tensors. *)
Lemma shared_axes t1 t2 :
  consistent t1 → consistent t2 → NoDup (label t1) → NoDup (label t2) →
  let common := elements (list_to_set (label t1) ∩ list_to_set (label t2)
                          : gset Z) in
  ∃ idx1 idx2 d1 d2,
    mapR (py_getitem (lbmap t1)) common = Ok idx1 ∧
    mapR (py_getitem (lbmap t2)) common = Ok idx2 ∧
    pos_of common (label t1) idx1 ∧ pos_of common (label t2) idx2 ∧
    gather (shape (arr t1)) idx1 = Some d1 ∧
    gather (shape (arr t2)) idx2 = Some d2 ∧
    (d1 = d2 ↔ ∀ x, x ∈ label t1 → x ∈ label t2 → dim_of t1 x = dim_of t2 x).
Proof.
  intros Hc1 Hc2 Hnd1 Hnd2 common.
  destruct (lookup_positions t1 common Hc1 Hnd1) as (idx1 & Hidx1 & Hpos1).
  { by intros x [? _]%elem_of_shared. }
  destruct (lookup_positions t2 common Hc2 Hnd2) as (idx2 & Hidx2 & Hpos2).
  { by intros x [_ ?]%elem_of_shared. }
  destruct (gather_total (shape (arr t1)) idx1) as [d1 Hd1].
  { pose proof (pos_of_bound _ _ _ Hpos1) as Hb.
    destruct Hc1 as (_ & Hbn & Hlen & _). unfold ndim in *.
    eapply Forall_impl; [exact Hb|]. simpl. lia. }
  destruct (gather_total (shape (arr t2)) idx2) as [d2 Hd2].
  { pose proof (pos_of_bound _ _ _ Hpos2) as Hb.
    destruct Hc2 as (_ & Hbn & Hlen & _). unfold ndim in *.
    eapply Forall_impl; [exact Hb|]. simpl. lia. }
  exists idx1, idx2, d1, d2. repeat split; try done; try apply Hpos1;
    try apply Hpos2.
  - intros <- x Hx1 Hx2.
    assert (x ∈ common) as [m Hm]%list_elem_of_lookup by by apply elem_of_shared.
    rewrite <- (gather_dim_of t1 common idx1 d1 Hc1 Hnd1 Hpos1 Hd1 m x Hm).
    by rewrite <- (gather_dim_of t2 common idx2 d1 Hc2 Hnd2 Hpos2 Hd2 m x Hm).
  - intros Hdim.
    destruct (gather_lookup _ _ _ Hd1) as [Hl1 _].
    destruct (gather_lookup _ _ _ Hd2) as [Hl2 _].
    pose proof (proj1 Hpos1) as Hp1. pose proof (proj1 Hpos2) as Hp2.
    apply list_eq_same_length with (length common); [lia | lia |].
    intros m x y Hm Hx Hy.
    destruct (lookup_lt_is_Some_2 common m Hm) as [z Hz].
    assert (z ∈ common) as [Hz1 Hz2]%elem_of_shared
      by by eapply list_elem_of_lookup_2.
    rewrite (gather_dim_of t1 common idx1 d1 Hc1 Hnd1 Hpos1 Hd1 m z Hz) in Hx.
    rewrite (gather_dim_of t2 common idx2 d2 Hc2 Hnd2 Hpos2 Hd2 m z Hz) in Hy.
    rewrite (Hdim z Hz1 Hz2) in Hx. congruence.
Qed.

Lemma filter_all {A} (P : A → Prop) `{!∀ x, Decision (P x)} (l : list A) :
  (∀ x, x ∈ l → P x) → filter P l = l.
Proof.
  induction l as [|x l IH]; intros Hl; [done|].
  rewrite filter_cons_True by (apply Hl; by left).
  rewrite IH; [done|]. intros y Hy. apply Hl. by right.
Qed.

(** The remaining labels of one tensor sit at the axes [tensordot] keeps. *)
Lemma free_labels (common lab : list Z) idx :
  NoDup lab → pos_of common lab idx →
  length (filter (λ x, x ∉ common) lab) = length (notin (length lab) idx).
Proof.
  intros Hnd Hpos.
  assert (gather lab (notin (length lab) idx)
            = Some (filter (λ x, x ∉ common) lab)) as Hg.
  { apply filter_positions. intros k x Hk.
    by rewrite (pos_of_elem common lab idx k x Hnd Hpos Hk). }
  by destruct (gather_lookup _ _ _ Hg) as [-> _].
Qed.

(** The branch of [contractNPT] for tensors with common labels of equal
    dimensions. *)
Lemma contractNPT_inner t1 t2 :
  consistent t1 → consistent t2 → valid (arr t1) → valid (arr t2) →
  NoDup (label t1) → NoDup (label t2) →
  (∃ x, x ∈ label t1 ∧ x ∈ label t2) →
  (∀ x, x ∈ label t1 → x ∈ label t2 → dim_of t1 x = dim_of t2 x) →
  ∃ r, contractNPT dot t1 t2 = Ok r ∧
       label r = filter (λ x, x ∉ label t2) (label t1) ++
                 filter (λ x, x ∉ label t1) (label t2).
Proof.
  intros Hc1 Hc2 Hv1 Hv2 Hnd1 Hnd2 (x0 & Hx1 & Hx2) Hdim.
  destruct (shared_axes t1 t2 Hc1 Hc2 Hnd1 Hnd2)
    as (idx1 & idx2 & d1 & d2 & Hi1 & Hi2 & Hp1 & Hp2 & Hd1 & Hd2 & Heq).
  apply Heq in Hdim as <-. clear Heq.
  unfold contractNPT.
  set (common := elements _) in *.
  assert (NoDup common) as Hndc by apply NoDup_elements.
  assert (0 < length common)%nat as Hpos.
  { assert (x0 ∈ common) as [m Hm%lookup_lt_Some]%list_elem_of_lookup
      by by apply elem_of_shared. lia. }
  rewrite decide_True by done. rewrite Hi1, Hi2. simpl.
  destruct (tensordot_Ok dot (arr t1) (arr t2) idx1 idx2 d1 Hv1 Hv2)
    as (d & olda & oldb & Hd & Holda & Holdb & Hshd & Hvd); try done.
  { by eapply pos_of_NoDup. }
  { by eapply pos_of_NoDup. }
  rewrite Hd. simpl.
  destruct (NPTensor_new_PyArr d (proj1 Hvd))
    as (npt0 & Hnew & Harr0 & Hlab0 & Hbn0 & Hibn0 & Hc0).
  change (mapLabelBond d _ _ _) with (NPTensor_new (PyArr d)).
  rewrite Hnew. simpl.
  destruct (setLabel_cases npt0
              (filter (λ x, x ∉ common) (label t1 ++ label t2)) Hc0)
    as ([_ Hset] & _ & Hset').
  destruct Hset as [npt1 Hnpt1].
  { unfold bondNum_of, ndim. rewrite Harr0, Hshd, filter_app, !length_app.
    destruct (gather_lookup _ _ _ Holda) as [-> _].
    destruct (gather_lookup _ _ _ Holdb) as [-> _].
    destruct Hc1 as (_ & Hbn1 & Hlen1 & _).
    destruct Hc2 as (_ & Hbn2 & Hlen2 & _).
    rewrite (free_labels common (label t1) idx1 Hnd1 Hp1).
    rewrite (free_labels common (label t2) idx2 Hnd2 Hp2).
    by rewrite Hlen1, Hlen2, Hbn1, Hbn2. }
  destruct (Hset' npt1 Hnpt1) as (Hlab1 & _).
  rewrite Hnpt1. simpl. eexists. split; [done|]. simpl.
  rewrite Hlab1, filter_app. f_equal; apply filter_ext_elem; intros x Hx.
  - unfold common. rewrite elem_of_shared. tauto.
  - unfold common. rewrite elem_of_shared. tauto.
Qed.

End ContractShared.

(** ** The theorems on sample tensors *)

Lemma t_A_consistent : consistent t_A.
Proof. repeat split. Defined.

Lemma t_B_consistent : consistent t_B.
Proof. repeat split. Defined.

Lemma t_C_consistent : consistent t_C.
Proof. repeat split. Defined.

Lemma contractNPT_disjoint_witness :
  ∃ r, contractNPT zdot t_A t_C = Ok r ∧
    label r = [0; 5; 1; 6] ∧ ibn r = 2%nat ∧ bn r = 4%nat ∧
    shape (arr r) = [2; 3; 3; 2]%nat ∧
    ∀ i j x y,
      get (arr t_A) i = Some x → get (arr t_C) j = Some y →
      get (arr r) (take 1 i ++ take 1 j ++ drop 1 i ++ drop 1 j)
        = Some (zdot [x] [y]).
Proof.
  apply (contractNPT_disjoint zdot t_A t_C).
  - exact t_A_consistent.
  - exact t_C_consistent.
  - apply (bool_decide_unpack _). vm_compute. exact I.
  - apply (bool_decide_unpack _). vm_compute. exact I.
  - apply (bool_decide_unpack _). vm_compute. exact I.
  - apply (bool_decide_unpack _). vm_compute. exact I.
  - simpl. lia.
  - simpl. lia.
  - intros x Hx Hy. simpl in *. set_solver.
Defined.

(** C3 as stated fails on the numpy path: a label shared by two outgoing
    bonds of equal dimension is contracted. *)
Lemma contractNPT_ignores_direction :
  ¬ (∀ (t1 t2 : NPTensor Z) x,
       x ∈ label t1 → x ∈ label t2 → bond_dir t1 x = bond_dir t2 x →
       ∃ e, contractNPT zdot t1 t2 = Raise e).
Proof.
  intros H. destruct (H t_A t_B_out 1) as [e He].
  - simpl. set_solver.
  - simpl. set_solver.
  - reflexivity.
  - vm_compute in He. discriminate He.
Qed.

(** ** [NPTensor.__new__] on a [UniTensor] *)

(** ** The blocked multiply *)

Module DgemmFacts.
Import Dgemm.

Lemma wrap_small x : - 2 ^ 31 ≤ x < 2 ^ 31 → wrap x = x.
Proof. intros H. unfold wrap. rewrite Z.mod_small; lia. Qed.

Lemma to_size_of_nat (n : nat) : to_size (Z.of_nat n) = Some n.
Proof. unfold to_size. rewrite decide_True by lia. by rewrite Nat2Z.id. Qed.

Lemma ptr_add_of_nat (a b : nat) : ptr_add a (Z.of_nat b) = Some (a + b)%nat.
Proof. unfold ptr_add. by rewrite <- Nat2Z.inj_add, to_size_of_nat. Qed.

Section Memory.
Context {E : Type}.
Implicit Types dst src : list E.

Lemma memcpy_Some dst doff src soff n :
  (soff + n ≤ length src)%nat → (doff + n ≤ length dst)%nat →
  ∃ dst', memcpy dst doff src soff n = Some dst' ∧
    length dst' = length dst ∧
    (∀ c, (c < n)%nat → dst' !! (doff + c)%nat = src !! (soff + c)%nat) ∧
    (∀ k, (k < doff ∨ doff + n ≤ k)%nat → dst' !! k = dst !! k).
Proof.
  intros Hs Hd. unfold memcpy. rewrite decide_True by done.
  eexists. split; [done|].
  assert (length (take n (drop soff src)) = n) as Hlen.
  { rewrite length_take, length_drop. lia. }
  split; [apply length_inserts|]. split.
  - intros c Hc. rewrite list_lookup_inserts by lia.
    replace (doff + c - doff)%nat with c by lia.
    by rewrite lookup_take_lt, lookup_drop.
  - intros k [Hk|Hk].
    + by apply list_lookup_inserts_lt.
    + apply list_lookup_inserts_ge. lia.
Qed.

(** The row copies of [getCols] and [putBack]: row [pos] goes to
    [d0 + pos * ds] from [s0 + pos * ss]; rows do not overlap when the
    width is at most the stride. *)
Lemma copy_loop_Some poss doff soff w dst src d0 ds s0 ss :
  NoDup poss → (w ≤ ds)%nat →
  (∀ pos, pos ∈ poss →
     doff pos = Some (d0 + pos * ds)%nat ∧ soff pos = Some (s0 + pos * ss)%nat ∧
     (d0 + pos * ds + w ≤ length dst)%nat ∧
     (s0 + pos * ss + w ≤ length src)%nat) →
  ∃ dst', copy_loop poss doff soff w dst src = Some dst' ∧
    length dst' = length dst ∧
    (∀ pos c, pos ∈ poss → (c < w)%nat →
       dst' !! (d0 + pos * ds + c)%nat = src !! (s0 + pos * ss + c)%nat) ∧
    (∀ k, (∀ pos, pos ∈ poss →
             (k < d0 + pos * ds ∨ d0 + pos * ds + w ≤ k)%nat) →
          dst' !! k = dst !! k).
Proof.
  intros Hnd Hw. revert dst.
  induction Hnd as [|pos poss Hnotin Hnd IH]; intros dst Hall.
  - exists dst. repeat split; try done. intros pos c Hin. by apply elem_of_nil in Hin.
  - destruct (Hall pos) as (Hd & Hs & Hbd & Hbs); [by left|].
    destruct (memcpy_Some dst (d0 + pos * ds) src (s0 + pos * ss) w Hbs Hbd)
      as (dst1 & Hcp & Hlen1 & Hin1 & Hout1).
    destruct (IH dst1) as (dst' & Hloop & Hlen' & Hin' & Hout').
    { intros pos' Hpos'. destruct (Hall pos') as (? & ? & ? & ?); [by right|].
      rewrite Hlen1. done. }
    exists dst'. simpl. rewrite Hd, Hs. simpl. rewrite Hcp. simpl.
    split; [done|]. split; [lia|]. split.
    + intros pos' c [->|Hpos']%elem_of_cons Hc.
      * rewrite Hout'; [by apply Hin1|].
        intros pos' Hpos'.
        assert (pos' ≠ pos) as Hne by (intros ->; done).
        destruct (decide (pos' < pos)%nat); [right|left]; nia.
      * by apply Hin'.
    + intros k Hk. rewrite Hout'.
      * apply Hout1. apply Hk. by left.
      * intros pos' Hpos'. apply Hk. by right.
Qed.

End Memory.

Section Kernel.
Context {E : Type} (dot : list E → list E → E).

Lemma concat_lookup_uniform (prod : list (list E)) m j i row :
  Forall (λ r, length r = m) prod → prod !! j = Some row → (i < m)%nat →
  concat prod !! (j * m + i)%nat = row !! i.
Proof.
  intros Hall. revert j. induction Hall as [|r prod Hr _ IH]; intros j Hj Hi.
  - done.
  - destruct j as [|j]; simpl in *.
    + injection Hj as ->. by rewrite lookup_app_l by lia.
    + rewrite lookup_app_r by lia.
      replace (m + j * m + i - length r)%nat with (j * m + i)%nat by lia.
      by apply IH.
Qed.

Lemma mapM_seq_is_Some {A} (f : nat → option A) n :
  (∀ i, (i < n)%nat → is_Some (f i)) → is_Some (mapM f (seq 0 n)).
Proof.
  intros H. apply mapM_is_Some, Forall_forall.
  intros i [_ Hi]%elem_of_seq. apply H. lia.
Qed.

Lemma mapM_seq_lookup {A} (f : nat → option A) n l i :
  mapM f (seq 0 n) = Some l → (i < n)%nat → l !! i = f i.
Proof.
  intros H%mapM_Some_1 Hi.
  destruct (Forall2_lookup_l _ _ _ i i H) as (y & Hy & Hf).
  { by apply lookup_seq_lt. }
  by rewrite Hy, Hf.
Qed.

Lemma mapM_seq_length {A} (f : nat → option A) n l :
  mapM f (seq 0 n) = Some l → length l = n.
Proof. intros H%length_mapM. by rewrite <- H, length_seq. Qed.

Lemma cell_is_Some k (a : list E) aoff lda b boff ldb i j :
  (∀ l, (l < k)%nat → (aoff + i + l * lda < length a)%nat) →
  (∀ l, (l < k)%nat → (boff + l + j * ldb < length b)%nat) →
  is_Some (cell dot k a aoff lda b boff ldb i j).
Proof.
  intros Ha Hb. unfold cell.
  destruct (mapM_seq_is_Some (λ l, a !! (aoff + i + l * lda)%nat) k) as [va ->].
  { intros l Hl. by apply lookup_lt_is_Some_2, Ha. }
  destruct (mapM_seq_is_Some (λ l, b !! (boff + l + j * ldb)%nat) k) as [vb ->].
  { intros l Hl. by apply lookup_lt_is_Some_2, Hb. }
  by eexists.
Qed.

(** What the kernel leaves in [c]: the product in the [m] by [n] window
    at [coff], everything else as it was. *)
Lemma cublasDgemm_Some (m n k lda ldb ldc : nat) (a : list E) aoff b boff
    c coff :
  (m ≤ ldc)%nat →
  (∀ i j, (i < m)%nat → (j < n)%nat →
          is_Some (cell dot k a aoff lda b boff ldb i j)) →
  (∀ j, (j < n)%nat → (coff + j * ldc + m ≤ length c)%nat) →
  ∃ c', cublasDgemm dot (Z.of_nat m) (Z.of_nat n) (Z.of_nat k) a aoff
          (Z.of_nat lda) b boff (Z.of_nat ldb) c coff (Z.of_nat ldc) = Some c' ∧
    length c' = length c ∧
    (∀ i j, (i < m)%nat → (j < n)%nat →
       c' !! (coff + j * ldc + i)%nat = cell dot k a aoff lda b boff ldb i j) ∧
    (∀ x, (∀ j, (j < n)%nat →
             (x < coff + j * ldc ∨ coff + j * ldc + m ≤ x)%nat) →
          c' !! x = c !! x).
Proof.
  intros Hm Hcell Hc. unfold cublasDgemm.
  rewrite !to_size_of_nat. simpl.
  destruct (mapM_seq_is_Some
    (λ j, mapM (λ i, cell dot k a aoff lda b boff ldb i j) (seq 0 m)) n)
    as [prod Hprod].
  { intros j Hj. apply mapM_seq_is_Some. intros i Hi. by apply Hcell. }
  rewrite Hprod. simpl.
  assert (Forall (λ r, length r = m) prod) as Hlen.
  { apply Forall_lookup. intros j row Hrow.
    assert (j < n)%nat as Hj.
    { rewrite <- (mapM_seq_length _ _ _ Hprod). by eapply lookup_lt_Some. }
    rewrite (mapM_seq_lookup _ _ _ _ Hprod Hj) in Hrow.
    by apply mapM_seq_length in Hrow. }
  assert (length (concat prod) = (n * m)%nat) as Hlc.
  { rewrite <- (mapM_seq_length _ _ _ Hprod). clear -Hlen.
    induction Hlen as [|r prod Hr _ IH]; simpl; [done|].
    rewrite length_app. lia. }
  destruct (copy_loop_Some (seq 0 n) (λ j, Some (coff + j * ldc)%nat)
              (λ j, Some (j * m)%nat) m c (concat prod) coff ldc 0%nat m)
    as (c' & Hloop & Hlen' & Hin & Hout).
  { apply NoDup_seq. }
  { done. }
  { intros j [_ Hj]%elem_of_seq. repeat split; try done.
    - apply Hc. lia.
    - rewrite Hlc. nia. }
  exists c'. repeat split; try done.
  - intros i j Hi Hj. rewrite Hin; [|apply elem_of_seq; lia|done].
    destruct (lookup_lt_is_Some_2 prod j) as [row Hrow].
    { by rewrite (mapM_seq_length _ _ _ Hprod). }
    simpl. rewrite (concat_lookup_uniform prod m j i row Hlen Hrow Hi).
    rewrite (mapM_seq_lookup _ _ _ _ Hprod Hj) in Hrow.
    by rewrite (mapM_seq_lookup _ _ _ _ Hrow Hi).
  - intros x Hx. apply Hout. intros j [_ Hj]%elem_of_seq. apply Hx. lia.
Qed.

End Kernel.

(** *** [int] arithmetic on values that fit *)

Lemma imul_nat (a b : nat) :
  Z.of_nat (a * b) ≤ INT_MAX →
  imul (Z.of_nat a) (Z.of_nat b) = Z.of_nat (a * b).
Proof.
  intros H. unfold imul, INT_MAX in *. rewrite wrap_small; lia.
Qed.

Lemma iadd_nat (a b : nat) :
  Z.of_nat (a + b) ≤ INT_MAX →
  iadd (Z.of_nat a) (Z.of_nat b) = Z.of_nat (a + b).
Proof.
  intros H. unfold iadd, INT_MAX in *. rewrite wrap_small; lia.
Qed.

Lemma idiv_nat (a b : nat) :
  Z.of_nat a ≤ INT_MAX → b ≠ 0%nat →
  idiv (Z.of_nat a) (Z.of_nat b) = Z.of_nat (a / b).
Proof.
  intros H Hb. unfold idiv, INT_MAX in *.
  rewrite Z.quot_div_nonneg by lia. rewrite <- Nat2Z.inj_div.
  rewrite wrap_small; [done|].
  pose proof (Nat.Div0.div_le_upper_bound a b a) as Hle.
  assert (a / b ≤ a)%nat by (apply Nat.Div0.div_le_upper_bound; nia). lia.
Qed.

Lemma imod_nat (a b : nat) :
  b ≠ 0%nat → imod (Z.of_nat a) (Z.of_nat b) = Z.of_nat (a `mod` b).
Proof.
  intros Hb. unfold imod. rewrite Z.rem_mod_nonneg by lia.
  by rewrite <- Nat2Z.inj_mod.
Qed.

Lemma span_of_int (p M i : nat) :
  (i < p)%nat → Z.of_nat p ≤ INT_MAX → Z.of_nat M ≤ INT_MAX →
  block_span (Z.of_nat p) (Z.of_nat M) i = Z.of_nat (span_of p M i).
Proof.
  intros Hi HpI HM. unfold span_of, block_span.
  assert (p ≠ 0)%nat as Hp by lia.
  pose proof (Nat.div_mod_eq M p) as Hdm.
  pose proof (Nat.mod_upper_bound M p Hp) as Hmod.
  assert (M / p * p ≤ M)%nat as Hdiv by nia.
  assert (M / p ≤ M)%nat as Hdiv' by nia.
  rewrite idiv_nat, imod_nat by done.
  change 1 with (Z.of_nat 1). rewrite iadd_nat by (unfold INT_MAX in *; lia).
  rewrite idiv_nat by (unfold INT_MAX in *; lia).
  assert ((i + 1) / p = if decide (S i = p) then 1 else 0)%nat as ->.
  { destruct (decide (S i = p)) as [<-|Hne].
    - replace (i + 1)%nat with (S i) by lia. apply Nat.div_same. lia.
    - apply Nat.div_small. lia. }
  destruct (decide (S i = p)).
  - rewrite imul_nat by (unfold INT_MAX in *; lia).
    rewrite iadd_nat by (unfold INT_MAX in *; lia). f_equal. lia.
  - rewrite imul_nat by (unfold INT_MAX in *; lia).
    rewrite iadd_nat by (unfold INT_MAX in *; lia). f_equal. lia.
Qed.

(** Block row [i] starts at row [i * (M / p)] and stays inside [M]; two
    different block rows share no row. *)
Lemma span_of_le (p M i : nat) :
  (i < p)%nat → (i * (M / p) + span_of p M i ≤ M)%nat.
Proof.
  intros Hi. unfold span_of.
  pose proof (Nat.div_mod_eq M p) as Hdm.
  destruct (decide (S i = p)); nia.
Qed.

Lemma span_of_disjoint (p M i i' r r' : nat) :
  (i < p)%nat → (i' < p)%nat →
  (r < span_of p M i)%nat → (r' < span_of p M i')%nat →
  (i * (M / p) + r = i' * (M / p) + r')%nat → i = i'.
Proof.
  unfold span_of. intros Hi Hi' Hr Hr' Heq.
  destruct (decide (S i = p)), (decide (S i' = p)); try lia; nia.
Qed.

Lemma span_of_cover (p M R : nat) :
  (1 ≤ p)%nat → (R < M)%nat →
  ∃ i r, (i < p)%nat ∧ (r < span_of p M i)%nat ∧ R = (i * (M / p) + r)%nat.
Proof.
  intros Hp HR. unfold span_of.
  pose proof (Nat.div_mod_eq M p) as Hdm.
  assert (p ≠ 0)%nat as Hp0 by lia.
  pose proof (Nat.mod_upper_bound M p Hp0) as Hmod.
  destruct (decide (R < (p - 1) * (M / p))%nat) as [Hlt|Hge].
  - assert (M / p ≠ 0)%nat as Hd by nia.
    exists (R / (M / p))%nat, (R `mod` (M / p))%nat.
    pose proof (Nat.div_mod_eq R (M / p)) as HR'.
    pose proof (Nat.mod_upper_bound R (M / p) Hd) as HRm.
    assert (R / (M / p) < p - 1)%nat as Hq.
    { apply Nat.Div0.div_lt_upper_bound. nia. }
    split; [lia|]. split; [|nia].
    rewrite decide_False by lia. lia.
  - exists (p - 1)%nat, (R - (p - 1) * (M / p))%nat.
    split; [lia|]. rewrite decide_True by lia. split; nia.
Qed.

(** *** The copies between the matrices and the scratch buffers *)

Section Copies.
Context {E : Type} (alloc : nat → list E).
Context (Halloc : ∀ n, length (alloc n) = n).

Lemma getRows_Some (M N start span : nat) (iA fA : list E) how :
  has_bit how 4 = true →
  (start + span ≤ M)%nat → Z.of_nat (M * N) ≤ INT_MAX →
  Z.of_nat M ≤ INT_MAX →
  length iA = (M * N)%nat → (N * span ≤ length fA)%nat →
  ∃ fA', getRows (Z.of_nat M) (Z.of_nat N) (Z.of_nat start) (Z.of_nat span)
           iA fA how = Some fA' ∧
    length fA' = length fA ∧
    ∀ c, (c < N * span)%nat → fA' !! c = iA !! (start * N + c)%nat.
Proof.
  intros Hbit Hle HMN HM HiA HfA. unfold getRows.
  rewrite iadd_nat by lia. rewrite bool_decide_true by lia. simpl.
  rewrite Hbit. rewrite imul_nat by nia. rewrite to_size_of_nat. simpl.
  rewrite <- Nat2Z.inj_mul, to_size_of_nat. simpl.
  destruct (memcpy_Some fA 0 iA (start * N) (N * span))
    as (fA' & Hcp & Hlen & Hin & _); [nia | lia |].
  exists fA'. split; [done|]. split; [done|].
  intros c Hc. by rewrite <- (Hin c Hc).
Qed.

Lemma getCols_Some (K N start span : nat) (iB fB : list E) how :
  (start + span ≤ N)%nat → Z.of_nat (K * N) ≤ INT_MAX →
  Z.of_nat N ≤ INT_MAX →
  length iB = (K * N)%nat → (K * span ≤ length fB)%nat →
  ∃ fB', getCols alloc (Z.of_nat K) (Z.of_nat N) (Z.of_nat start)
           (Z.of_nat span) iB fB how = Some fB' ∧
    length fB' = length fB ∧
    ∀ l c, (l < K)%nat → (c < span)%nat →
           fB' !! (l * span + c)%nat = iB !! (start + l * N + c)%nat.
Proof.
  intros Hle HKN HN HiB HfB. unfold getCols.
  rewrite iadd_nat by lia. rewrite bool_decide_true by lia. simpl.
  rewrite to_size_of_nat. simpl. rewrite Nat2Z.id.
  assert (∀ dst, (K * span ≤ length dst)%nat →
    ∃ dst', copy_loop (seq 0 K)
        (λ i, to_size (imul (Z.of_nat i) (Z.of_nat span)))
        (λ i, o ← to_size (imul (Z.of_nat i) (Z.of_nat N));
              ptr_add o (Z.of_nat start)) span dst iB = Some dst' ∧
      length dst' = length dst ∧
      ∀ l c, (l < K)%nat → (c < span)%nat →
             dst' !! (l * span + c)%nat = iB !! (start + l * N + c)%nat)
    as Hloop.
  { intros dst Hdst.
    destruct (copy_loop_Some (seq 0 K)
        (λ i, to_size (imul (Z.of_nat i) (Z.of_nat span)))
        (λ i, o ← to_size (imul (Z.of_nat i) (Z.of_nat N));
              ptr_add o (Z.of_nat start)) span dst iB 0%nat span start N)
      as (dst' & Hl & Hlen & Hin & _).
    - apply NoDup_seq.
    - done.
    - intros l [_ Hl]%elem_of_seq.
      rewrite !imul_nat by nia. rewrite !to_size_of_nat. simpl.
      rewrite ptr_add_of_nat. repeat split; [f_equal; lia | nia | nia].
    - exists dst'. split; [done|]. split; [done|].
      intros l c Hl' Hc. apply (Hin l c); [apply elem_of_seq; lia | done]. }
  destruct (has_bit how 2).
  - rewrite imul_nat by nia. rewrite to_size_of_nat. simpl.
    destruct (Hloop (alloc (K * span))) as (tmp & Htmp & Hlt & Hint).
    { by rewrite Halloc. }
    rewrite Htmp. simpl.
    rewrite <- Nat2Z.inj_mul, to_size_of_nat. simpl.
    destruct (memcpy_Some fB 0 tmp 0 (K * span))
      as (fB' & Hcp & Hlen & Hin & _).
    { rewrite Hlt, Halloc. lia. }
    { lia. }
    exists fB'. split; [done|]. split; [done|].
    intros l c Hl Hc. rewrite <- Hint by done.
    apply (Hin (l * span + c)%nat). nia.
  - by apply Hloop.
Qed.

Lemma putBack_Some (startR startC spanR spanC M N : nat) (sC C : list E) how :
  (startR + spanR ≤ M)%nat → (startC + spanC ≤ N)%nat →
  Z.of_nat (M * N) ≤ INT_MAX → Z.of_nat M ≤ INT_MAX →
  length C = (M * N)%nat → (spanR * spanC ≤ length sC)%nat →
  ∃ C', putBack alloc (Z.of_nat startR) (Z.of_nat startC) (Z.of_nat spanR)
          (Z.of_nat spanC) (Z.of_nat M) (Z.of_nat N) sC C how = Some C' ∧
    length C' = length C ∧
    (∀ r c, (r < spanR)%nat → (c < spanC)%nat →
       C' !! ((startR + r) * N + startC + c)%nat = sC !! (r * spanC + c)%nat) ∧
    (∀ x, (∀ r, (r < spanR)%nat →
             (x < (startR + r) * N + startC ∨
              (startR + r) * N + startC + spanC ≤ x)%nat) →
          C' !! x = C !! x).
Proof.
  intros HR HC HMN HM HlC HlsC. unfold putBack.
  rewrite to_size_of_nat. simpl. rewrite Nat2Z.id.
  assert (∀ src, (spanR * spanC ≤ length src)%nat →
    ∃ C', copy_loop (seq 0 spanR)
        (λ pos, o ← to_size (imul (iadd (Z.of_nat pos) (Z.of_nat startR))
                               (Z.of_nat N));
                ptr_add o (Z.of_nat startC))
        (λ pos, to_size (imul (Z.of_nat pos) (Z.of_nat spanC)))
        spanC C src = Some C' ∧
      length C' = length C ∧
      (∀ r c, (r < spanR)%nat → (c < spanC)%nat →
         C' !! ((startR + r) * N + startC + c)%nat
           = src !! (r * spanC + c)%nat) ∧
      (∀ x, (∀ r, (r < spanR)%nat →
               (x < (startR + r) * N + startC ∨
                (startR + r) * N + startC + spanC ≤ x)%nat) →
            C' !! x = C !! x)) as Hloop.
  { intros src Hsrc.
    destruct (copy_loop_Some (seq 0 spanR)
        (λ pos, o ← to_size (imul (iadd (Z.of_nat pos) (Z.of_nat startR))
                               (Z.of_nat N));
                ptr_add o (Z.of_nat startC))
        (λ pos, to_size (imul (Z.of_nat pos) (Z.of_nat spanC)))
        spanC C src (startR * N + startC)%nat N 0%nat spanC)
      as (C' & Hl & Hlen & Hin & Hout).
    - apply NoDup_seq.
    - lia.
    - intros r [_ Hr]%elem_of_seq.
      rewrite iadd_nat by lia. rewrite !imul_nat by nia.
      rewrite !to_size_of_nat. simpl. rewrite ptr_add_of_nat.
      repeat split; [f_equal; lia | nia | nia].
    - exists C'. split; [done|]. split; [done|]. split.
      + intros r c Hr Hc.
        replace ((startR + r) * N + startC + c)%nat
          with (startR * N + startC + r * N + c)%nat by lia.
        apply (Hin r c); [apply elem_of_seq; lia | done].
      + intros x Hx. apply Hout. intros r [_ Hr]%elem_of_seq.
        destruct (Hx r) as [?|?]; [lia | left | right]; lia. }
  destruct (has_bit how 1).
  - rewrite imul_nat by nia. rewrite to_size_of_nat. simpl.
    rewrite <- Nat2Z.inj_mul, to_size_of_nat. simpl.
    destruct (memcpy_Some (alloc (spanR * spanC)) 0 sC 0 (spanR * spanC))
      as (tmp & Hcp & Hlen & Hin & _).
    { lia. }
    { rewrite Halloc. lia. }
    rewrite Hcp. simpl.
    destruct (Hloop tmp) as (C' & HC' & Hlen' & Hin' & Hout').
    { rewrite Hlen, Halloc. lia. }
    exists C'. split; [done|]. split; [done|]. split; [|done].
    intros r c Hr Hc. rewrite Hin' by done.
    apply (Hin (r * spanC + c)%nat). nia.
  - by apply Hloop.
Qed.

End Copies.

(** *** One block *)

Section Block.
Context {E : Type} (dot : list E → list E → E) (alloc : nat → list E).
Context (Halloc : ∀ n, length (alloc n) = n).
Context (p q M N K : nat) (A B : list E) (how : mmtype).
Context (Hp : (1 ≤ p ≤ M)%nat) (Hq : (1 ≤ q ≤ N)%nat).
Context (HMK : Z.of_nat (M * K) ≤ INT_MAX) (HKN : Z.of_nat (K * N) ≤ INT_MAX)
        (HMN : Z.of_nat (M * N) ≤ INT_MAX).
Context (HA : length A = (M * K)%nat) (HB : length B = (K * N)%nat).

Let rows0 := (M / p + M `mod` p)%nat.
Let cols0 := (N / q + N `mod` q)%nat.
Local Abbreviation mem_ok := (mem_ok p q M N K how).

Lemma cell_ext k (a : list E) aoff lda b boff ldb a' aoff' lda' b' boff' ldb'
    i j i' j' :
  (∀ l, (l < k)%nat →
        a !! (aoff + i + l * lda)%nat = a' !! (aoff' + i' + l * lda')%nat) →
  (∀ l, (l < k)%nat →
        b !! (boff + l + j * ldb)%nat = b' !! (boff' + l + j' * ldb')%nat) →
  cell dot k a aoff lda b boff ldb i j = cell dot k a' aoff' lda' b' boff' ldb' i' j'.
Proof.
  intros Ha Hb. unfold cell.
  rewrite (Forall_mapM_ext (λ l, a !! (aoff + i + l * lda)%nat)
             (λ l, a' !! (aoff' + i' + l * lda')%nat)).
  2:{ apply Forall_forall. intros l [_ Hl]%elem_of_seq. apply Ha. lia. }
  rewrite (Forall_mapM_ext (λ l, b !! (boff + l + j * ldb)%nat)
             (λ l, b' !! (boff' + l + j' * ldb')%nat)).
  2:{ apply Forall_forall. intros l [_ Hl]%elem_of_seq. apply Hb. lia. }
  done.
Qed.

Lemma entry_is_Some r c :
  (r < M)%nat → (c < N)%nat → is_Some (entry dot N K A B r c).
Proof using HA HB.
  intros Hr Hc. apply cell_is_Some; intros l Hl; [rewrite HB | rewrite HA];
    clear - Hr Hc Hl; nia.
Qed.

Lemma bounds : Z.of_nat M ≤ INT_MAX ∧ Z.of_nat N ≤ INT_MAX ∧
               Z.of_nat K ≤ INT_MAX ∧ Z.of_nat p ≤ INT_MAX ∧
               Z.of_nat q ≤ INT_MAX.
Proof using Hp Hq HMK HKN HMN.
  clear - Hp Hq HMK HKN HMN. repeat split; nia.
Qed.

Lemma span_of_rows0 i : (i < p)%nat → (span_of p M i ≤ rows0)%nat.
Proof. intros _. unfold span_of, rows0. destruct (decide _); lia. Qed.

Lemma span_of_cols0 j : (j < q)%nat → (span_of q N j ≤ cols0)%nat.
Proof. intros _. unfold span_of, cols0. destruct (decide _); lia. Qed.

Lemma block_Some i j st :
  (i < p)%nat → (j < q)%nat → mem_ok st →
  ∃ st', block dot alloc (Z.of_nat p) (Z.of_nat q) (Z.of_nat M) (Z.of_nat N)
           (Z.of_nat K) A B how i j st = Some st' ∧
    mem_ok st' ∧
    (∀ r c, (r < span_of p M i)%nat → (c < span_of q N j)%nat →
       mC st' !! ((i * (M / p) + r) * N + j * (N / q) + c)%nat
         = entry dot N K A B (i * (M / p) + r) (j * (N / q) + c)) ∧
    (∀ x, (∀ r, (r < span_of p M i)%nat →
             (x < (i * (M / p) + r) * N + j * (N / q) ∨
              (i * (M / p) + r) * N + j * (N / q) + span_of q N j ≤ x)%nat) →
          mC st' !! x = mC st !! x).
Proof.
  intros Hi Hj (HlC & HlA & HlB & HlsC).
  destruct bounds as (HMi & HNi & HKi & Hpi & Hqi).
  pose proof (span_of_le p M i Hi) as Hrle.
  pose proof (span_of_le q N j Hj) as Hcle.
  pose proof (span_of_rows0 i Hi) as Hr0.
  pose proof (span_of_cols0 j Hj) as Hc0.
  set (rn := span_of p M i) in *. set (cn := span_of q N j) in *.
  set (r0 := (i * (M / p))%nat) in *. set (c0 := (j * (N / q))%nat) in *.
  unfold block. cbv zeta.
  rewrite (span_of_int p M i Hi Hpi HMi), (span_of_int q N j Hj Hqi HNi).
  rewrite !idiv_nat by lia.
  rewrite (imul_nat i (M / p)), (imul_nat j (N / q)) by (fold r0 c0; lia).
  fold rn cn r0 c0.
  (* the view of A *)
  assert (∃ a aoff sA,
    (if has_bit how 4
     then sA ← getRows (Z.of_nat M) (Z.of_nat K) (Z.of_nat r0) (Z.of_nat rn)
                  A (subA st) how; Some (sA, 0%nat, sA)
     else off ← to_size (imul (Z.of_nat r0) (Z.of_nat K));
          Some (A, off, subA st)) = Some (a, aoff, sA) ∧
    (has_bit how 4 = true → (K * rows0 ≤ length sA)%nat) ∧
    ∀ r l, (r < rn)%nat → (l < K)%nat →
      a !! (aoff + l + r * K)%nat = A !! (0 + l + (r0 + r) * K)%nat)
    as (a & aoff & sA & -> & HlA' & Hav).
  { destruct (has_bit how 4) eqn:Hb4.
    - destruct (getRows_Some M K r0 rn A (subA st) how Hb4)
        as (sA & HsA & Hlen & Hin); try done.
      { specialize (HlA eq_refl). nia. }
      rewrite HsA. exists sA, 0%nat, sA. split; [done|]. split.
      + intros _. rewrite Hlen. by apply HlA.
      + intros r l Hr Hl. rewrite Hin by nia. f_equal. lia.
    - rewrite imul_nat by nia. rewrite to_size_of_nat.
      exists A, (r0 * K)%nat, (subA st). split; [done|]. split; [done|].
      intros r l Hr Hl. f_equal. lia. }
  simpl.
  (* the view of B *)
  assert (∃ b sB,
    (if has_bit how 2 || bool_decide (1 < Z.of_nat q)
     then sB ← getCols alloc (Z.of_nat K) (Z.of_nat N) (Z.of_nat c0)
                  (Z.of_nat cn) B (subB st) how; Some (sB, sB)
     else Some (B, subB st)) = Some (b, sB) ∧
    (has_bit how 2 || bool_decide (1 < Z.of_nat q) = true →
       (K * cols0 ≤ length sB)%nat) ∧
    ∀ l c, (l < K)%nat → (c < cn)%nat →
      b !! (0 + c + l * cn)%nat = B !! (0 + (c0 + c) + l * N)%nat)
    as (b & sB & -> & HlB' & Hbv).
  { destruct (has_bit how 2 || bool_decide (1 < Z.of_nat q)) eqn:Hb2.
    - destruct (getCols_Some alloc Halloc K N c0 cn B (subB st) how)
        as (sB & HsB & Hlen & Hin); try done.
      { specialize (HlB eq_refl). nia. }
      rewrite HsB. exists sB, sB. split; [done|]. split.
      + intros _. rewrite Hlen. by apply HlB.
      + intros l c Hl Hc.
        replace (0 + c + l * cn)%nat with (l * cn + c)%nat by lia.
        rewrite (Hin l c) by done. f_equal. lia.
    - apply orb_false_iff in Hb2 as [_ Hq1%bool_decide_eq_false].
      assert (q = 1)%nat as Hq1' by lia.
      assert (j = 0)%nat as Hj0 by lia.
      assert (cn = N) as HcnN.
      { unfold cn, span_of. rewrite Hj0, Hq1', Nat.div_1_r, Nat.mod_1_r.
        destruct (decide _); lia. }
      exists B, (subB st). split; [done|]. split; [done|].
      intros l c Hl Hc. f_equal. unfold c0. rewrite HcnN. lia. }
  simpl.
  (* the product of the two views *)
  assert (∀ r c, (r < rn)%nat → (c < cn)%nat →
            cell dot K b 0 cn a aoff K c r
              = entry dot N K A B (r0 + r) (c0 + c)) as Hcell.
  { intros r c Hr Hc. unfold entry. apply cell_ext.
    - intros l Hl. by apply Hbv.
    - intros l Hl. by apply Hav. }
  destruct (has_bit how 1 || bool_decide (1 < Z.of_nat q)) eqn:Hb1.
  - destruct (cublasDgemm_Some dot cn rn K cn K cn b 0 a aoff (subC st) 0)
      as (sC & HsC & HlsC' & Hin & _).
    { done. }
    { intros c r Hc Hr. rewrite Hcell by done. apply entry_is_Some; lia. }
    { intros r Hr. specialize (HlsC eq_refl). nia. }
    rewrite HsC. simpl.
    destruct (putBack_Some alloc Halloc r0 c0 rn cn M N sC (mC st) how)
      as (C' & HC' & HlC' & Hin' & Hout'); try done.
    { rewrite HlsC'. specialize (HlsC eq_refl). nia. }
    rewrite HC'. simpl. eexists. split; [done|]. simpl.
    split; [|split].
    + unfold Dgemm.mem_ok. simpl. split; [lia|]. split; [done|]. split; [done|].
      intros _. rewrite HlsC'. by apply HlsC.
    + intros r c Hr Hc. rewrite Hin' by done.
      rewrite <- Hcell by done. by apply (Hin c r).
    + done.
  - pose proof Hb1 as Hb1'.
    apply orb_false_iff in Hb1 as [_ Hq1%bool_decide_eq_false].
    assert (q = 1)%nat as Hq1' by lia.
    assert (j = 0)%nat as Hj0 by lia.
    assert (cn = N ∧ c0 = 0%nat) as [HcnN Hc00].
    { unfold cn, c0, span_of. rewrite Hj0, Hq1', Nat.div_1_r, Nat.mod_1_r.
      destruct (decide _); lia. }
    rewrite imul_nat by nia. rewrite to_size_of_nat. simpl.
    destruct (cublasDgemm_Some dot cn rn K cn K cn b 0 a aoff (mC st)
                (r0 * N)%nat)
      as (C' & HC' & HlC' & Hin & Hout).
    { done. }
    { intros c r Hc Hr. rewrite Hcell by done. apply entry_is_Some; lia. }
    { intros r Hr. rewrite HlC, HcnN. nia. }
    rewrite HC'. simpl. eexists. split; [done|]. simpl.
    split; [|split].
    + unfold Dgemm.mem_ok. simpl. split; [lia|]. split; [done|]. split; [done|].
      intros Htrue. by rewrite Hb1' in Htrue.
    + intros r c Hr Hc. rewrite <- Hcell by done.
      rewrite <- (Hin c r) by done. f_equal. rewrite HcnN, Hc00. lia.
    + intros x Hx. apply Hout. intros r Hr.
      destruct (Hx r Hr) as [?|?]; [left | right];
        rewrite ?HcnN, ?Hc00 in *; lia.
Qed.

End Block.

(** *** All blocks *)

Section Blocked.
Context {E : Type} (dot : list E → list E → E) (alloc : nat → list E).
Context (Halloc : ∀ n, length (alloc n) = n).
Context (p q M N K : nat) (A B : list E) (how : mmtype).
Context (Hp : (1 ≤ p ≤ M)%nat) (Hq : (1 ≤ q ≤ N)%nat).
Context (HMK : Z.of_nat (M * K) ≤ INT_MAX) (HKN : Z.of_nat (K * N) ≤ INT_MAX)
        (HMN : Z.of_nat (M * N) ≤ INT_MAX).
Context (HA : length A = (M * K)%nat) (HB : length B = (K * N)%nat).

(** An entry of one block lies outside every row of another block. *)
Lemma window_disjoint i j r c i' j' r' :
  (i < p)%nat → (j < q)%nat → (i' < p)%nat → (j' < q)%nat →
  (r < span_of p M i)%nat → (c < span_of q N j)%nat →
  (r' < span_of p M i')%nat → (i, j) ≠ (i', j') →
  let x := ((i * (M / p) + r) * N + j * (N / q) + c)%nat in
  (x < (i' * (M / p) + r') * N + j' * (N / q) ∨
   (i' * (M / p) + r') * N + j' * (N / q) + span_of q N j' ≤ x)%nat.
Proof.
  intros Hi Hj Hi' Hj' Hr Hc Hr' Hne x. subst x.
  pose proof (span_of_le q N j Hj) as Hcle.
  pose proof (span_of_le q N j' Hj') as Hcle'.
  destruct (lt_eq_lt_dec (i * (M / p) + r) (i' * (M / p) + r'))
    as [[Hlt|Heq]|Hgt].
  - left. nia.
  - assert (i = i') as <- by by eapply span_of_disjoint.
    assert (j ≠ j') as Hjne by congruence.
    rewrite Heq. unfold span_of in *.
    destruct (decide (S j = q)), (decide (S j' = q)); try lia.
    + right. nia.
    + left. nia.
    + destruct (decide (j < j')%nat); [left | right]; nia.
  - right. nia.
Qed.

Lemma run_blocks_Some blocks st :
  NoDup blocks →
  (∀ i j, (i, j) ∈ blocks → (i < p)%nat ∧ (j < q)%nat) →
  mem_ok p q M N K how st →
  ∃ st', run_blocks dot alloc (Z.of_nat p) (Z.of_nat q) (Z.of_nat M)
           (Z.of_nat N) (Z.of_nat K) A B how blocks st = Some st' ∧
    mem_ok p q M N K how st' ∧
    ∀ i j r c, (i, j) ∈ blocks →
      (r < span_of p M i)%nat → (c < span_of q N j)%nat →
      mC st' !! ((i * (M / p) + r) * N + j * (N / q) + c)%nat
        = entry dot N K A B (i * (M / p) + r) (j * (N / q) + c).
Proof.
  intros Hnd. revert st.
  assert (∀ st, (∀ i j, (i, j) ∈ blocks → (i < p)%nat ∧ (j < q)%nat) →
    mem_ok p q M N K how st →
    ∃ st', run_blocks dot alloc (Z.of_nat p) (Z.of_nat q) (Z.of_nat M)
             (Z.of_nat N) (Z.of_nat K) A B how blocks st = Some st' ∧
      mem_ok p q M N K how st' ∧
      (∀ i j r c, (i, j) ∈ blocks →
        (r < span_of p M i)%nat → (c < span_of q N j)%nat →
        mC st' !! ((i * (M / p) + r) * N + j * (N / q) + c)%nat
          = entry dot N K A B (i * (M / p) + r) (j * (N / q) + c)) ∧
      (∀ x, (∀ i j r, (i, j) ∈ blocks → (r < span_of p M i)%nat →
               (x < (i * (M / p) + r) * N + j * (N / q) ∨
                (i * (M / p) + r) * N + j * (N / q) + span_of q N j ≤ x)%nat) →
            mC st' !! x = mC st !! x)) as Hgen.
  { induction Hnd as [|[i j] blocks Hnotin Hnd IH]; intros st Hin Hok.
    - exists st. split; [done|]. split; [done|]. split; [|done].
      intros i j r c Hel. by apply elem_of_nil in Hel.
    - destruct (Hin i j) as [Hi Hj]; [by left|].
      destruct (block_Some dot alloc Halloc p q M N K A B how Hp Hq HMK HKN
                  HMN HA HB i j st Hi Hj Hok)
        as (st1 & Hst1 & Hok1 & Hin1 & Hout1).
      destruct (IH st1) as (st' & Hst' & Hok' & Hin' & Hout').
      { intros i' j' Hel. apply Hin. by right. }
      { done. }
      exists st'. simpl. rewrite Hst1. simpl. split; [done|].
      split; [done|]. split.
      + intros i' j' r c [[= -> ->]|Hel]%elem_of_cons Hr Hc.
        * rewrite Hout'; [by apply Hin1|].
          intros i' j' r' Hel Hr'.
          destruct (Hin i' j') as [Hi' Hj']; [by right|].
          apply window_disjoint; try done.
          intros [= -> ->]. done.
        * by apply Hin'.
      + intros x Hx. rewrite Hout'.
        * apply Hout1. intros r Hr. apply (Hx i j r); [by left | done].
        * intros i' j' r Hel Hr. apply (Hx i' j' r); [by right | done]. }
  intros st Hin Hok.
  destruct (Hgen st Hin Hok) as (st' & H1 & H2 & H3 & _). eauto.
Qed.

Lemma loop_order_elem i j :
  (i, j) ∈ loop_order (Z.of_nat p) (Z.of_nat q) ↔ (i < p)%nat ∧ (j < q)%nat.
Proof.
  unfold loop_order. rewrite !Nat2Z.id, list_elem_of_bind. split.
  - intros (i' & (j' & [= -> ->] & [_ Hj]%elem_of_seq)%list_elem_of_fmap
            & [_ Hi]%elem_of_seq). lia.
  - intros [Hi Hj]. exists i. split; [|apply elem_of_seq; lia].
    apply list_elem_of_fmap. exists j. split; [done|]. apply elem_of_seq. lia.
Qed.

Lemma loop_order_NoDup : NoDup (loop_order (Z.of_nat p) (Z.of_nat q)).
Proof.
  unfold loop_order. apply NoDup_bind.
  - intros i i' [a b] _ _ (? & [= -> _] & _)%list_elem_of_fmap
      (? & [= -> _] & _)%list_elem_of_fmap. done.
  - intros i _. apply NoDup_fmap_2; [|apply NoDup_seq]. by intros ?? [= ->].
  - apply NoDup_seq.
Qed.

(** A list that holds the entries of the product is the product. *)
Lemma matmul_Some (L : list E) :
  length L = (M * N)%nat →
  (∀ R Cc, (R < M)%nat → (Cc < N)%nat →
           L !! (R * N + Cc)%nat = entry dot N K A B R Cc) →
  matmul dot M N K A B = Some L.
Proof.
  intros Hlen Hent. unfold matmul. apply mapM_Some_2.
  apply Forall2_same_length_lookup. split; [by rewrite length_seq|].
  intros k k' y [-> Hk]%lookup_seq Hy. simpl.
  assert (N ≠ 0)%nat as HN by lia.
  pose proof (Nat.div_mod_eq k N) as Hdm.
  pose proof (Nat.mod_upper_bound k N HN) as Hmod.
  rewrite <- Hent; [|apply Nat.Div0.div_lt_upper_bound; lia|done].
  rewrite <- Hy. f_equal. lia.
Qed.

Lemma myDgemm_nat (C : list E) :
  length C = (M * N)%nat →
  ∃ C', myDgemm dot alloc (Z.of_nat p) (Z.of_nat q) (Z.of_nat M) (Z.of_nat N)
          (Z.of_nat K) A B C how = Some C' ∧
        single_dgemm dot (Z.of_nat M) (Z.of_nat N) (Z.of_nat K) A B C
          = Some C' ∧
        matmul dot M N K A B = Some C'.
Proof.
  intros HC.
  destruct (bounds p q M N K Hp Hq HMK HKN HMN) as (HMi & HNi & HKi & Hpi & Hqi).
  assert (p ≠ 0 ∧ q ≠ 0)%nat as [Hp0 Hq0] by lia.
  pose proof (Nat.div_mod_eq M p) as HdmM.
  pose proof (Nat.div_mod_eq N q) as HdmN.
  pose proof (Nat.mod_upper_bound M p Hp0) as HmodM.
  pose proof (Nat.mod_upper_bound N q Hq0) as HmodN.
  assert (M / p + M `mod` p ≤ M)%nat as Hr0 by nia.
  assert (N / q + N `mod` q ≤ N)%nat as Hc0 by nia.
  (* the single multiply *)
  destruct (cublasDgemm_Some dot N M K N K N B 0 A 0 C 0)
    as (L & HL & HlL & HinL & _).
  { done. }
  { intros c r Hc Hr. by apply (entry_is_Some dot M N K A B HA HB). }
  { intros r Hr. rewrite HC. nia. }
  assert (matmul dot M N K A B = Some L) as HmmL.
  { apply matmul_Some; [lia|]. intros R Cc HR HCc.
    unfold entry. by rewrite <- (HinL Cc R). }
  (* the blocked multiply *)
  unfold myDgemm. cbv zeta.
  rewrite !idiv_nat, !imod_nat by done.
  rewrite !iadd_nat by lia. rewrite !imul_nat by nia.
  rewrite !to_size_of_nat.
  set (sA := if has_bit how 4 then _ else _).
  set (sB := if has_bit how 2 || _ then _ else _).
  set (sC := if has_bit how 1 || _ then _ else _).
  assert (∃ a b c, sA = Some a ∧ sB = Some b ∧ sC = Some c ∧
            mem_ok p q M N K how (mk_mem C a b c))
    as (a & b & c & -> & -> & -> & Hok).
  { subst sA sB sC. unfold mem_ok.
    destruct (has_bit how 4), (has_bit how 2 || _), (has_bit how 1 || _);
      simpl; do 3 eexists; (do 3 (split; [reflexivity|])); simpl;
      repeat split; try done; intros _; rewrite Halloc; lia. }
  simpl.
  destruct (run_blocks_Some (loop_order (Z.of_nat p) (Z.of_nat q))
              (mk_mem C a b c) loop_order_NoDup)
    as (st' & Hrun & Hok' & Hent); [by intros i j ?%loop_order_elem | done |].
  rewrite Hrun. simpl. exists (mC st').
  assert (matmul dot M N K A B = Some (mC st')) as Hmm.
  { apply matmul_Some; [apply Hok'|]. intros R Cc HR HCc.
    destruct (span_of_cover p M R) as (i & r & Hi & Hr & ->); [lia | done |].
    destruct (span_of_cover q N Cc) as (j & c' & Hj & Hc' & ->); [lia | done |].
    rewrite <- (Hent i j r c'); [f_equal; lia | | done | done].
    by apply loop_order_elem. }
  split; [done|]. split; [|done].
  unfold single_dgemm. rewrite HL. congruence.
Qed.

End Blocked.

(** C9: for [1 <= p <= M], [1 <= q <= N] and matrices whose element
    counts fit an [int], the blocked multiply runs to its end and leaves
    in [C] what the single multiply leaves there, the [M] by [N] product
    of [A] and [B], whatever [how] says about host and device; block row
    [i] has [M / p] rows and the last one the [M mod p] remaining rows
    too, and the block columns likewise. *)
Theorem myDgemm_correct {E} (dot : list E → list E → E) (alloc : nat → list E)
    (p q M N K : Z) (A B C : list E) (how : mmtype) :
  (∀ n, length (alloc n) = n) →
  1 ≤ p ≤ M → 1 ≤ q ≤ N → 0 ≤ K →
  M * K ≤ INT_MAX → K * N ≤ INT_MAX → M * N ≤ INT_MAX →
  length A = Z.to_nat (M * K) → length B = Z.to_nat (K * N) →
  length C = Z.to_nat (M * N) →
  (∃ C', myDgemm dot alloc p q M N K A B C how = Some C' ∧
         single_dgemm dot M N K A B C = Some C' ∧
         matmul dot (Z.to_nat M) (Z.to_nat N) (Z.to_nat K) A B = Some C') ∧
  (∀ i, Z.of_nat i < p →
        block_span p M i =
          if decide (Z.of_nat i = p - 1) then M ÷ p + Z.rem M p else M ÷ p) ∧
  (∀ j, Z.of_nat j < q →
        block_span q N j =
          if decide (Z.of_nat j = q - 1) then N ÷ q + Z.rem N q else N ÷ q).
Proof.
  intros Halloc Hp Hq HK HMK HKN HMN HA HB HC.
  assert (∀ p M i, 1 ≤ p ≤ M → M ≤ INT_MAX → Z.of_nat i < p →
            block_span p M i =
              if decide (Z.of_nat i = p - 1) then M ÷ p + Z.rem M p
              else M ÷ p) as Hspan.
  { clear. intros p M i Hp HM Hi.
    rewrite <- (Z2Nat.id p), <- (Z2Nat.id M) by lia.
    rewrite span_of_int by lia. unfold span_of.
    rewrite Z.quot_div_nonneg, Z.rem_mod_nonneg by lia.
    rewrite <- Nat2Z.inj_div, <- Nat2Z.inj_mod.
    destruct (decide (S i = Z.to_nat p)), (decide (Z.of_nat i = _));
      try lia; by rewrite ?Nat2Z.inj_add, ?Z.add_0_r. }
  assert (M ≤ INT_MAX ∧ N ≤ INT_MAX) as [HMi HNi] by (unfold INT_MAX in *; nia).
  split; [|split; intros i Hi; by apply Hspan].
  rewrite <- (Z2Nat.id p), <- (Z2Nat.id q), <- (Z2Nat.id M), <- (Z2Nat.id N),
    <- (Z2Nat.id K) by lia.
  rewrite !Nat2Z.id.
  apply (myDgemm_nat dot alloc Halloc); rewrite <- ?Z2Nat.inj_mul by lia;
    try lia.
Qed.

End DgemmFacts.

Lemma myDgemm_correct_witness :
  let A := [1; 2; 3; 4; 5; 6; 7; 8; 9; 10; 11; 12; 13; 14; 15] in
  let B := [1; 0; 2; 0; 0; 1; 0; 2; 1; 1; 1; 1] in
  ∃ C', Dgemm.myDgemm zdot (λ n, replicate n 0) 2 3 5 4 3 A B
          (replicate 20 0) Dgemm.MM_HHH = Some C' ∧
        Dgemm.single_dgemm zdot 5 4 3 A B (replicate 20 0) = Some C' ∧
        Dgemm.matmul zdot (Z.to_nat 5) (Z.to_nat 4) (Z.to_nat 3) A B = Some C'.
Proof.
  intros A B.
  apply (DgemmFacts.myDgemm_correct zdot (λ n, replicate n 0) 2 3 5 4 3 A B
           (replicate 20 0) Dgemm.MM_HHH); try (unfold Dgemm.INT_MAX; lia);
    try reflexivity.
  intros n. apply length_replicate.
Defined.

(** ** The greedy choice of the planner *)

Section PlannerFacts.
Context {E : Type}.
Implicit Types roots : list (Node E).

Lemma key_lt_true k1 k2 :
  key_lt k1 k2 = true ↔ k1.1 < k2.1 ∨ (k1.1 = k2.1 ∧ k1.2 < k2.2).
Proof.
  unfold key_lt.
  rewrite orb_true_iff, andb_true_iff, !Z.ltb_lt, Z.eqb_eq. tauto.
Qed.

Lemma key_lt_false k1 k2 :
  key_lt k1 k2 = false ↔ k2.1 < k1.1 ∨ (k1.1 = k2.1 ∧ k2.2 ≤ k1.2).
Proof.
  rewrite <- not_true_iff_false, key_lt_true. lia.
Qed.

Lemma foldl_better_Some roots b cands :
  ∃ r, foldl (better roots) (Some b) cands = Some r.
Proof.
  revert b. induction cands as [|c cands IH]; intros b; simpl; [by eexists|].
  destruct (key_lt _ _); apply IH.
Qed.

(** The fold keeps the first of the best candidates: every earlier one is
    strictly worse, no later one is strictly better. *)
Lemma foldl_better_first roots cands r :
  foldl (better roots) None cands = Some r →
  ∃ l1 l2, cands = l1 ++ r :: l2 ∧
    (∀ c, c ∈ l1 → key_lt (key roots r) (key roots c) = true) ∧
    (∀ c, c ∈ l2 → key_lt (key roots c) (key roots r) = false).
Proof.
  revert r. induction cands as [|x cands IH] using rev_ind; intros r; [done|].
  rewrite foldl_snoc.
  destruct (foldl (better roots) None cands) as [b|] eqn:Hb.
  - destruct (IH b eq_refl) as (l1 & l2 & -> & H1 & H2). simpl.
    destruct (key_lt (key roots x) (key roots b)) eqn:Hx; intros [= <-].
    + exists (l1 ++ b :: l2), []. split; [done|]. split.
      * intros c [Hc|[->|Hc]%elem_of_cons]%elem_of_app; [| done |].
        -- apply H1 in Hc. apply key_lt_true in Hx, Hc. apply key_lt_true. lia.
        -- apply H2 in Hc. apply key_lt_true in Hx. apply key_lt_false in Hc.
           apply key_lt_true. lia.
      * intros c Hc. by apply elem_of_nil in Hc.
    + exists l1, (l2 ++ [x]). split; [by rewrite <- app_assoc|]. split; [done|].
      intros c [Hc|Hc%list_elem_of_singleton]%elem_of_app;
        [by apply H2 | by subst c].
  - assert (cands = []) as ->.
    { destruct cands as [|c cands]; [done|]. simpl in Hb.
      destruct (foldl_better_Some roots c cands) as [r' Hr'].
      simpl in Hb. congruence. }
    simpl. intros [= <-]. exists [], []. split; [done|].
    split; intros c Hc; by apply elem_of_nil in Hc.
Qed.

Lemma seq_sorted a m : StronglySorted lt (seq a m).
Proof.
  revert a. induction m as [|m IH]; intros a; [constructor|].
  simpl. constructor; [apply IH|].
  apply Forall_forall. intros x Hx%elem_of_seq. lia.
Qed.

Lemma pairs_sorted n : StronglySorted pair_lt (pairs n).
Proof.
  unfold pairs.
  assert (∀ l, StronglySorted lt l →
            StronglySorted pair_lt
              (l ≫= λ i, (λ j, (i, j)) <$> seq (S i) (n - S i))) as Hgen.
  { induction 1 as [|i l Hl IH Hall]; [constructor|].
    rewrite bind_cons. apply StronglySorted_app_2.
    - intros x y (j & -> & _)%list_elem_of_fmap
        (i' & (j' & -> & _)%list_elem_of_fmap & Hi')%list_elem_of_bind.
      left. simpl. rewrite Forall_forall in Hall. by apply Hall.
    - apply StronglySorted_fmap with (R1 := lt); [intros; right; simpl; lia|].
      apply seq_sorted.
    - done. }
  apply Hgen, seq_sorted.
Qed.

Lemma StronglySorted_filter {A} (R : relation A) (P : A → Prop)
    `{!∀ x, Decision (P x)} l :
  StronglySorted R l → StronglySorted R (filter P l).
Proof.
  induction 1 as [|x l Hl IH Hall]; [constructor|].
  rewrite filter_cons. destruct (decide (P x)); [|done].
  constructor; [done|].
  apply Forall_forall. intros y [_ Hy]%list_elem_of_filter.
  rewrite Forall_forall in Hall. by apply Hall.
Qed.

Lemma elem_of_pairs n i j :
  (i, j) ∈ pairs n ↔ (i < j < n)%nat.
Proof.
  unfold pairs. rewrite list_elem_of_bind. split.
  - intros (i' & (j' & [= -> ->] & Hj%elem_of_seq)%list_elem_of_fmap
            & Hi%elem_of_seq). lia.
  - intros Hij. exists i. split; [|apply elem_of_seq; lia].
    apply list_elem_of_fmap. exists j. split; [done|]. apply elem_of_seq. lia.
Qed.

Lemma elem_of_candidates roots i j :
  (i, j) ∈ candidates roots ↔ (i < j < length roots)%nat ∧ shares roots (i, j).
Proof.
  unfold candidates. rewrite list_elem_of_filter, elem_of_pairs. tauto.
Qed.

(** The pair [best_pair] returns is a candidate no candidate beats, and
    the earliest of those that tie with it. *)
Lemma best_pair_first roots i j :
  best_pair roots = Some (i, j) →
  (i, j) ∈ candidates roots ∧
  ∀ c, c ∈ candidates roots →
    key_lt (key roots c) (key roots (i, j)) = false ∧
    (key roots c = key roots (i, j) → c = (i, j) ∨ pair_lt (i, j) c).
Proof.
  intros (l1 & l2 & Heq & H1 & H2)%foldl_better_first.
  split; [rewrite Heq; apply elem_of_app; right; by left|].
  assert (StronglySorted pair_lt (candidates roots)) as Hs
    by apply StronglySorted_filter, pairs_sorted.
  rewrite Heq in Hs |- *.
  intros c [Hc|[->|Hc]%elem_of_cons]%elem_of_app.
  - pose proof (H1 c Hc) as Hlt. split.
    + apply key_lt_true in Hlt. apply key_lt_false. lia.
    + intros Hk. rewrite Hk in Hlt. apply key_lt_true in Hlt. lia.
  - split; [apply key_lt_false; lia | by left].
  - split; [by apply H2|]. intros _. right.
    apply StronglySorted_app_1_r, StronglySorted_cons in Hs as [Hall _].
    rewrite Forall_forall in Hall. by apply Hall.
Qed.

(** C5: the pair a greedy step merges shares a label and, among all pairs
    of roots sharing a label, has the least metric; among those of least
    metric, the least element count of the two roots together; among
    those that tie on both, the earliest positions.  The merged node
    replaces the pair. *)
Theorem greedy_step_minimal roots roots' :
  greedy_step roots = Some roots' →
  ∃ i j a b,
    (i < j)%nat ∧ roots !! i = Some a ∧ roots !! j = Some b ∧
    shared_labels a b ≠ [] ∧
    roots' = <[i := Node_contract a b]> (delete j roots) ∧
    ∀ i' j' a' b',
      (i' < j')%nat → roots !! i' = Some a' → roots !! j' = Some b' →
      shared_labels a' b' ≠ [] →
      metric a b ≤ metric a' b' ∧
      (metric a' b' = metric a b →
         node_elemNum a + node_elemNum b ≤ node_elemNum a' + node_elemNum b') ∧
      (metric a' b' = metric a b →
       node_elemNum a' + node_elemNum b' = node_elemNum a + node_elemNum b →
         (i', j') = (i, j) ∨ pair_lt (i, j) (i', j')).
Proof.
  unfold greedy_step. intros H.
  destruct (best_pair roots) as [[i j]|] eqn:Hbest; [|done]. simpl in H.
  destruct (roots !! i) as [a|] eqn:Ha; [|done]. simpl in H.
  destruct (roots !! j) as [b|] eqn:Hb; [|done]. simpl in H.
  injection H as <-.
  destruct (best_pair_first roots i j Hbest) as [Hin Hmin].
  apply elem_of_candidates in Hin as [Hij Hsh].
  unfold shares in Hsh. simpl in Hsh. rewrite Ha, Hb in Hsh.
  exists i, j, a, b.
  split; [lia|]. split; [done|]. split; [done|]. split; [done|].
  split; [done|].
  intros i' j' a' b' Hij' Ha' Hb' Hsh'.
  destruct (Hmin (i', j')) as [Hk Hfirst].
  { apply elem_of_candidates. split.
    - apply lookup_lt_Some in Hb'. lia.
    - unfold shares. simpl. by rewrite Ha', Hb'. }
  unfold key in Hk, Hfirst. simpl in Hk, Hfirst.
  rewrite Ha, Hb, Ha', Hb' in Hk, Hfirst.
  apply key_lt_false in Hk. simpl in Hk.
  split; [lia|]. split; [lia|].
  intros Hm He. apply Hfirst. by rewrite Hm, He.
Qed.

End PlannerFacts.

Lemma greedy_step_minimal_witness :
  ∃ i j a b,
    (i < j)%nat ∧ ring4 !! i = Some a ∧ ring4 !! j = Some b ∧
    shared_labels a b ≠ [] ∧
    ring4_next = <[i := Node_contract a b]> (delete j ring4) ∧
    ∀ i' j' a' b',
      (i' < j')%nat → ring4 !! i' = Some a' → ring4 !! j' = Some b' →
      shared_labels a' b' ≠ [] →
      metric a b ≤ metric a' b' ∧
      (metric a' b' = metric a b →
         node_elemNum a + node_elemNum b ≤ node_elemNum a' + node_elemNum b') ∧
      (metric a' b' = metric a b →
       node_elemNum a' + node_elemNum b' = node_elemNum a + node_elemNum b →
         (i', j') = (i, j) ∨ pair_lt (i, j) (i', j')).
Proof. apply (greedy_step_minimal ring4 ring4_next). vm_compute. reflexivity. Defined.

(** ** [launchNPT], launched again *)

Section Launch.
Context {E : Type} (dot : list E → list E → E).
Context (construct : Network E → Network E * result unit).

(** A launch of a loaded network leaves the network as it is. *)
Lemma launchNPT_loaded net to_ut name :
  load net = true → (launchNPT dot construct net to_ut name).1 = net.
Proof. unfold launchNPT. by intros ->. Qed.

(** After a launch that returned, the network is loaded, and launching
    it again returns the same and leaves it as it is. *)
Lemma launchNPT_again net to_ut name net1 out :
  (∀ n, (construct n).2 = Ok tt → load (construct n).1 = true) →
  launchNPT dot construct net to_ut name = (net1, Ok out) →
  load net1 = true ∧
  launchNPT dot construct net1 to_ut name = (net1, Ok out).
Proof.
  intros Hload. unfold launchNPT at 1.
  destruct (load net) eqn:Hl.
  - intros [= <- Hr]. split; [done|]. unfold launchNPT. rewrite Hl.
    by rewrite Hr.
  - specialize (Hload net). destruct (construct net) as [n' c].
    intros [= -> Hr]. simpl in Hload.
    destruct c as [[]|e]; [|done].
    specialize (Hload eq_refl). split; [done|].
    unfold launchNPT. rewrite Hload. by rewrite <- Hr.
Qed.

(** The launch of the numpy path applies no swap and writes nothing to
    the network but through [construct]: after a launch that returned
    [out], every further launch returns [out] again, the tree is not
    built a second time, and the swap lists and their flags stay as they
    are. *)
Lemma launchNPT_twice net to_ut name net1 out :
  (∀ n, (construct n).2 = Ok tt → load (construct n).1 = true) →
  launchNPT dot construct net to_ut name = (net1, Ok out) →
  launchNPT dot construct net1 to_ut name = (net1, Ok out) ∧
  ∀ k, launch_seq dot construct k net1 to_ut name
         = (net1, replicate k (Ok out)) ∧
       swaps_arr (launch_seq dot construct k net1 to_ut name).1
         = swaps_arr net1 ∧
       swapflags (launch_seq dot construct k net1 to_ut name).1
         = swapflags net1.
Proof.
  intros Hload H1.
  destruct (launchNPT_again net to_ut name net1 out Hload H1) as [_ H2].
  split; [done|].
  assert (∀ k, launch_seq dot construct k net1 to_ut name
               = (net1, replicate k (Ok out))) as Hseq.
  { induction k as [|k IH]; [done|]. simpl. by rewrite H2, IH. }
  intros k. by rewrite Hseq.
Qed.

End Launch.

(** The planner of the model marks the network loaded when it succeeds. *)
Lemma construct_spec_loads {E} (n : Network E) :
  (construct_spec n).2 = Ok tt → load (construct_spec n).1 = true.
Proof.
  unfold construct_spec. destruct (decide (labels_paired n)); [|done].
  by destruct (build_tree (leafs n)).
Qed.

Lemma launchNPT_twice_witness :
  ∃ net1 out,
    launchNPT zdot construct_spec net_AB true EmptyString = (net1, Ok out) ∧
    launchNPT zdot construct_spec net1 true EmptyString = (net1, Ok out) ∧
    launch_seq zdot construct_spec 3 net1 true EmptyString
      = (net1, replicate 3 (Ok out)).
Proof.
  destruct (launchNPT zdot construct_spec net_AB true EmptyString)
    as [net1 [out|e]] eqn:H1; [|by vm_compute in H1].
  exists net1, out. split; [done|].
  destruct (launchNPT_twice zdot construct_spec net_AB true EmptyString net1 out
              construct_spec_loads H1) as [H2 Hk].
  split; [done|]. apply (Hk 3%nat).
Defined.

(** ** The block layout of the symmetric tensor *)

Module SymFacts.
Import Sym.

Lemma sector_lookup bds q r K :
  sector bds q !! r = Some K → q_sum bds K = q ∧ K ∈ multi_indices bds.
Proof.
  intros H%list_elem_of_lookup_2. unfold sector in H.
  by apply list_elem_of_filter in H.
Qed.

Lemma NoDup_sector bds q : NoDup (sector bds q).
Proof. apply NoDup_filter, NoDup_indices. Qed.

Lemma length_multi_index bds K :
  K ∈ multi_indices bds → length K = length bds.
Proof.
  unfold multi_indices. intros H%elem_of_indices%in_shape_length.
  by rewrite length_fmap in H.
Qed.

Lemma index_of_lookup {A} `{EqDecision A} (l : list A) i x :
  NoDup l → l !! i = Some x → index_of x l = Some i.
Proof.
  intros Hnd Hi. unfold index_of. apply fmap_Some. exists (i, x).
  split; [|done]. apply list_find_Some. split; [done|]. split; [done|].
  intros j y Hj Hlt ->. pose proof (NoDup_lookup _ _ _ _ Hnd Hi Hj). lia.
Qed.

Lemma index_of_Some {A} `{EqDecision A} (l : list A) i x :
  index_of x l = Some i → l !! i = Some x.
Proof.
  unfold index_of. intros ([j y] & [Hl [-> _]]%list_find_Some & ->)%fmap_Some.
  done.
Qed.

Section Tensor.
Context {E : Type} (zero : E) (add mul : E → E → E).
Implicit Types t : SymTensor E.

Lemma wf_layout t : wf t → layout_inv t.
Proof.
  intros [HR Hdim] q B HB r c Hr Hc.
  destruct (Hdim q B HB) as [Hrows Hcols].
  destruct (lookup_lt_is_Some_2 (sector (in_bonds t) q) r) as [Ir HIr]; [lia|].
  destruct (lookup_lt_is_Some_2 (sector (out_bonds t) q) c) as [Jc HJc]; [lia|].
  destruct (sector_lookup _ _ _ _ HIr) as [HqI HI].
  destruct (sector_lookup _ _ _ _ HJc) as [HqJ HJ].
  exists Ir, Jc. unfold multi_index. rewrite HIr, HJc.
  split; [done|]. split; [done|]. split; [done|].
  apply length_multi_index in HI. unfold in_bonds in HI.
  rewrite length_take_le in HI by done.
  unfold locate. rewrite take_app_length', drop_app_length' by done.
  rewrite HqI, decide_True by done.
  rewrite (index_of_lookup _ r Ir), (index_of_lookup _ c Jc);
    auto using NoDup_sector.
Qed.

(** The layout sends a position to exactly the multi-index that is
    located there. *)
Lemma locate_multi_index t K q r c :
  locate t K = Some (q, r, c) →
  multi_index t q r c = Some (take (RBondNum t) K, drop (RBondNum t) K).
Proof.
  unfold locate, multi_index.
  destruct (decide _) as [Hq|]; [|done].
  destruct (index_of (take _ K) _) as [r'|] eqn:Hr; [|done].
  destruct (index_of (drop _ K) _) as [c'|] eqn:Hc; [|done].
  intros [= <- <- <-]. apply index_of_Some in Hr, Hc.
  rewrite Hr. simpl. rewrite <- Hq in Hc at 1. rewrite Hq in Hc.
  by rewrite Hc.
Qed.

Lemma initBlocks_lookup bds R q B :
  initBlocks zero bds R !! q = Some B →
  b_rows B = length (sector (take R bds) q) ∧
  b_cols B = length (sector (drop R bds) q).
Proof.
  unfold initBlocks.
  intros (q' & Heq & _)%elem_of_list_to_map_2%list_elem_of_fmap.
  injection Heq as -> ->. done.
Qed.

Lemma elem_of_charges bds K :
  K ∈ multi_indices bds → q_sum bds K ∈ charges bds.
Proof.
  intros HK. unfold charges. rewrite merge_sort_Permutation.
  by apply elem_of_remove_dups, list_elem_of_fmap_2.
Qed.

Lemma NoDup_block_charges bds R : NoDup (block_charges bds R).
Proof.
  unfold block_charges, charges. apply NoDup_filter.
  rewrite merge_sort_Permutation. apply NoDup_remove_dups.
Qed.

Lemma multi_indices_split bds R K :
  K ∈ multi_indices bds →
  take R K ∈ multi_indices (take R bds) ∧ drop R K ∈ multi_indices (drop R bds).
Proof.
  unfold multi_indices. rewrite !elem_of_indices, fmap_take, fmap_drop.
  intros H. split; [by apply Forall2_take | by apply Forall2_drop].
Qed.

Lemma fmap_fst_pair {A B} (f : A → B) (l : list A) :
  ((λ x, (x, f x)) <$> l).*1 = l.
Proof. induction l as [|x l IH]; [done|]. rewrite !fmap_cons. by f_equal. Qed.

Lemma index_of_elem_of {A} `{EqDecision A} (l : list A) x :
  x ∈ l → ∃ i, index_of x l = Some i ∧ (i < length l)%nat.
Proof.
  intros Hx. destruct (list_find_elem_of (x =.) l x Hx eq_refl) as [[i y] Hf].
  exists i. unfold index_of. rewrite Hf. split; [done|].
  apply list_find_Some in Hf as [Hl _]. by apply lookup_lt_Some in Hl.
Qed.

(** The layout leaves no element out: a multi-index whose incoming and
    outgoing charges agree has its place in the block of that charge. *)
Lemma alloc_complete bds R labs K :
  K ∈ multi_indices bds →
  q_sum (drop R bds) (drop R K) = q_sum (take R bds) (take R K) →
  ∃ r c B,
    locate (alloc zero bds R labs) K = Some (q_sum (take R bds) (take R K), r, c) ∧
    blocks (alloc zero bds R labs) !! q_sum (take R bds) (take R K) = Some B ∧
    (r < b_rows B)%nat ∧ (c < b_cols B)%nat.
Proof.
  intros [HI HJ]%(multi_indices_split _ R) Hq.
  set (q := q_sum (take R bds) (take R K)) in *.
  destruct (index_of_elem_of (sector (take R bds) q) (take R K)) as (r & Hr & Hrl).
  { apply list_elem_of_filter. by split. }
  destruct (index_of_elem_of (sector (drop R bds) q) (drop R K)) as (c & Hc & Hcl).
  { apply list_elem_of_filter. by split. }
  exists r, c, (zero_block zero (length (sector (take R bds) q))
                  (length (sector (drop R bds) q))).
  split; [|split; [|by split]].
  - unfold locate, in_bonds, out_bonds. simpl. fold q.
    rewrite decide_True by done. by rewrite Hr, Hc.
  - simpl. unfold initBlocks. apply elem_of_list_to_map_1.
    + rewrite fmap_fst_pair. apply NoDup_block_charges.
    + apply list_elem_of_fmap. exists q. split; [done|].
      apply list_elem_of_filter. split.
      * rewrite <- Hq. by apply elem_of_charges.
      * by apply elem_of_charges.
Qed.

Lemma alloc_wf bds R labs :
  (R ≤ length bds)%nat → wf (alloc zero bds R labs).
Proof.
  intros HR. split; [done|]. intros q B. apply initBlocks_lookup.
Qed.

Lemma put_meta t K v :
  bonds (put t K v) = bonds t ∧ RBondNum (put t K v) = RBondNum t ∧
  labels (put t K v) = labels t.
Proof. unfold put. by destruct (locate t K) as [[[q r] c]|]. Qed.

Lemma put_wf t K v : wf t → wf (put t K v).
Proof.
  intros [HR Hdim]. unfold put.
  destruct (locate t K) as [[[q r] c]|]; [|by split].
  split; [done|]. intros q' B. unfold with_blocks, in_bonds, out_bonds. simpl.
  rewrite lookup_alter. case_decide as Hq; [|exact (Hdim q' B)].
  subst q'. destruct (blocks t !! q) as [B0|] eqn:HB0; simpl; [|done].
  intros [= <-]. simpl. exact (Hdim q B0 HB0).
Qed.

Lemma fill_meta t cells :
  bonds (fill t cells) = bonds t ∧ RBondNum (fill t cells) = RBondNum t ∧
  labels (fill t cells) = labels t.
Proof.
  unfold fill. revert t. induction cells as [|c cells IH]; intros t; [done|].
  simpl. destruct (IH (put t c.1 c.2)) as (-> & -> & ->). apply put_meta.
Qed.

Lemma fill_wf t cells : wf t → wf (fill t cells).
Proof.
  unfold fill. revert t. induction cells as [|c cells IH]; intros t Ht; [done|].
  simpl. by apply IH, put_wf.
Qed.

Lemma construct_wf bds : wf (construct zero bds).
Proof. apply alloc_wf, length_filter. Qed.

Lemma setLabel_wf t labs t' : wf t → setLabel t labs = Ok t' → wf t'.
Proof.
  unfold setLabel. intros Ht. destruct (decide _); [|done]. by intros [= <-].
Qed.

Lemma setRawElem_wf strict t dense t' :
  wf t → setRawElem strict t dense = Ok t' → wf t'.
Proof.
  unfold setRawElem. intros Ht. destruct strict as [is_zero|].
  - destruct (forallb _ _); [|done]. intros [= <-]. by apply fill_wf.
  - intros [= <-]. by apply fill_wf.
Qed.

(** What [permute] gives: the layout of the new bonds and the new
    split. *)
Lemma permute_wf t labs R t' :
  permute zero t labs R = Ok t' →
  wf t' ∧ RBondNum t' = R ∧ length (bonds t') = length labs ∧
  labels t' = labs.
Proof.
  unfold permute. destruct (decide _) as [(Hlen & Hnd & HR)|]; [|done].
  destruct (mapM _ labs) as [axes|] eqn:Hax; [|done].
  destruct (gather (bonds t) axes) as [bds|] eqn:Hb; [|done].
  intros [= <-].
  apply length_mapM in Hax. apply length_mapM in Hb.
  assert (length (redirect R bds) = length labs) as Hl.
  { unfold redirect. rewrite length_imap. lia. }
  destruct (fill_meta (alloc zero (redirect R bds) R labs)
              ((λ c, (gatherD axes c.1, c.2)) <$> elements_of zero t))
    as (Hbd & HRn & Hlab).
  split; [|by rewrite Hbd, HRn, Hlab].
  apply fill_wf, alloc_wf. lia.
Qed.

Lemma multiply_dims (P : Qnum → Block E → Prop) mc ma mb :
  (∀ q B, mc !! q = Some B → P q B) →
  (∀ q Bc Ba Bb, ma !! q = Some Ba → mb !! q = Some Bb →
     P q (matmul_acc zero add mul Bc Ba Bb)) →
  ∀ q B, multiply zero add mul mc ma mb !! q = Some B → P q B.
Proof.
  intros Hc Hprod. unfold multiply.
  generalize (fst <$> map_to_list ma). intros qs. revert mc Hc.
  induction qs as [|q0 qs IH]; intros mc Hc; [done|].
  simpl. apply IH.
  destruct (ma !! q0) as [Ba|] eqn:Ha; [|done].
  destruct (mb !! q0) as [Bb|] eqn:Hb; [|done].
  intros q B. rewrite lookup_insert. case_decide as Hq; [|apply Hc].
  intros [= <-]. subst q. by apply Hprod.
Qed.

(** The product of the blocks of charge [q] has the rows of the one and
    the columns of the other: the rows and columns the result's layout
    has at [q]. *)
Lemma contract_wf a b fast c :
  contract zero add mul a b fast = Ok c → wf c.
Proof.
  unfold contract. destruct (forallb _ _); [|done].
  set (sh := shared a b).
  set (rest_a := filter (λ x, x ∉ sh) (labels a)).
  set (rest_b := filter (λ x, x ∉ sh) (labels b)).
  intros (a' & Ha & (b' & Hb & Hc)%rbind_Ok)%rbind_Ok.
  apply permute_wf in Ha as ([_ Hda] & HRa & Hla & _).
  apply permute_wf in Hb as ([_ Hdb] & HRb & Hlb & _).
  rewrite length_app in Hla, Hlb.
  assert (length (in_bonds a') = length rest_a) as Hin.
  { unfold in_bonds. rewrite length_take_le; lia. }
  assert (wf (with_blocks
                (alloc zero (in_bonds a' ++ out_bonds b') (length rest_a)
                   (rest_a ++ rest_b))
                (multiply zero add mul
                   (blocks (alloc zero (in_bonds a' ++ out_bonds b')
                              (length rest_a) (rest_a ++ rest_b)))
                   (blocks a') (blocks b')))) as Hwf.
  { split.
    - simpl. rewrite length_app. lia.
    - assert (take (length rest_a) (in_bonds a' ++ out_bonds b') = in_bonds a')
        as Hi by (by apply take_app_length').
      assert (drop (length rest_a) (in_bonds a' ++ out_bonds b') = out_bonds b')
        as Ho by (by apply drop_app_length').
      intros q B HB.
      change (b_rows B = length (sector (take (length rest_a)
                                   (in_bonds a' ++ out_bonds b')) q) ∧
              b_cols B = length (sector (drop (length rest_a)
                                   (in_bonds a' ++ out_bonds b')) q)).
      rewrite Hi, Ho. revert q B HB. apply multiply_dims.
      + intros q B HB. apply initBlocks_lookup in HB.
        by rewrite Hi, Ho in HB.
      + intros q Bc Ba Bb HBa HBb. simpl.
        split; [by apply Hda | by apply Hdb]. }
  destruct fast.
  - by injection Hc as <-.
  - by apply permute_wf in Hc as [? _].
Qed.

Lemma partialTrace_wf t la lb t' :
  wf t → partialTrace zero add t la lb = Ok t' → wf t'.
Proof.
  intros [HR _]. unfold partialTrace.
  destruct (index_of la (labels t)) as [pa|]; [|done].
  destruct (index_of lb (labels t)) as [pb|]; [|done].
  destruct (bonds t !! pa) as [ba|] eqn:Hpa; [|done].
  destruct (bonds t !! pb) as [bb|] eqn:Hpb; [|done].
  destruct (trace_compatible ba bb) eqn:Hcomp; [|done].
  intros [= <-]. apply fill_wf, alloc_wf.
  apply bool_decide_eq_true in Hcomp as [Hdir _].
  assert (pa ≠ pb) as Hne by (intros ->; congruence).
  apply lookup_lt_Some in Hpa, Hpb.
  rewrite !length_delete.
  - repeat case_decide; lia.
  - apply lookup_lt_is_Some_2. lia.
  - apply lookup_lt_is_Some_2. rewrite length_delete; [lia|].
    apply lookup_lt_is_Some_2. lia.
Qed.

Lemma combineBond_wf t labs t' :
  wf t → combineBond zero t labs = Ok t' → wf t'.
Proof.
  intros Ht. unfold combineBond. destruct labs as [|l0 labs]; [by intros [= <-]|].
  destruct (index_of l0 (labels t)) as [p0|]; [|done].
  set (all := l0 :: labs).
  set (before := filter (λ x, x ∉ all) (take p0 (labels t))).
  set (after := filter (λ x, x ∉ all) (drop p0 (labels t))).
  set (rest_in := length (filter (λ x, x ∉ all) (take (RBondNum t) (labels t)))).
  intros (t1 & H1 & H2)%rbind_Ok.
  apply permute_wf in H1 as (_ & _ & Hl1 & _).
  destruct (take (length all) (drop (length before) (bonds t1)))
    as [|g0 gs] eqn:Hgrp; [done|].
  injection H2 as <-. apply fill_wf, alloc_wf.
  rewrite !length_app in Hl1.
  rewrite length_app, length_take, length_cons, length_drop, Hl1.
  assert (rest_in ≤ length before + length after)%nat as Hrest.
  { unfold rest_in, before, after.
    rewrite <- length_app, <- filter_app, take_drop.
    rewrite <- (take_drop (RBondNum t) (labels t)) at 2.
    rewrite filter_app, length_app. lia. }
  assert (length all = S (length labs)) as Hall by done.
  destruct (bool_decide _); lia.
Qed.

Lemma built_wf t : built zero add mul t → wf t.
Proof.
  induction 1 as [bds|t labs t' _ IH H|strict t dense t' _ IH H
                  |t labs R t' _ _ H|a b fast c _ _ _ _ H
                  |t labs t' _ IH H|t la lb t' _ IH H].
  - apply construct_wf.
  - by eapply setLabel_wf.
  - by eapply setRawElem_wf.
  - by apply permute_wf in H as [? _].
  - by eapply contract_wf.
  - by eapply combineBond_wf.
  - by eapply partialTrace_wf.
Qed.

(** C2: every tensor that construction, [setLabel], [setRawElem],
    [permute], [contract], [combineBond] and [partialTrace] give keeps
    the block layout invariant: every position (row, column) of every
    stored block is, through the layout bijection, the place of a
    multi-index whose incoming charges and outgoing charges both sum to
    the charge of the block. *)
Theorem layout_invariant t : built zero add mul t → layout_inv t.
Proof. intros H. by apply wf_layout, built_wf. Qed.

End Tensor.

End SymFacts.

Lemma layout_invariant_witness : Sym.layout_inv s_6.
Proof.
  apply (SymFacts.layout_invariant 0 Z.add Z.mul).
  apply (Sym.built_combineBond 0 Z.add Z.mul s_5 [20; 12]); [|by vm_compute].
  apply (Sym.built_contract 0 Z.add Z.mul s_4 r_2 false); [| |by vm_compute].
  - apply (Sym.built_partialTrace 0 Z.add Z.mul s_3 10 13); [|by vm_compute].
    apply (Sym.built_permute 0 Z.add Z.mul s_2 [12; 10; 13; 11] 2);
      [|by vm_compute].
    apply (Sym.built_setLabel 0 Z.add Z.mul s_1 [10; 11; 12; 13]);
      [|by vm_compute].
    apply (Sym.built_setRawElem 0 Z.add Z.mul None s_0 (Z.of_nat <$> seq 1 16));
      [|by vm_compute].
    apply Sym.built_construct.
  - apply (Sym.built_setLabel 0 Z.add Z.mul r_1 [11; 20]); [|by vm_compute].
    apply (Sym.built_setRawElem 0 Z.add Z.mul None r_0 [5; 6; 7; 8]);
      [|by vm_compute].
    apply Sym.built_construct.
Defined.

(** ** Repeated launches *)

Module NetFacts.
Import Net.

Section Launch.
Context {T Swap : Type}.
Context (contract : T → T → result T).
Context (permute : T → list Z → Z → result T).
Context (addGate : T → list Swap → T).
Context (exSwap : list Z → list Z → list Swap).
Context (plan_of : list (list Z) → option Plan).
Implicit Types net : Network T Swap.
Implicit Types p : Plan.

Lemma eval_ext p (ts ts' : list (option T)) :
  (∀ i, i ∈ leaves p → ts' !! i = ts !! i) →
  eval contract p ts' = eval contract p ts.
Proof.
  induction p as [i|l IHl r IHr]; intros H; simpl.
  - rewrite H; [done|]. simpl. set_solver.
  - rewrite IHl, IHr; [done| |]; intros i Hi; apply H; simpl; set_solver.
Qed.

Lemma kept_refl p net : kept p net net.
Proof. by repeat split. Qed.

Lemma kept_weaken p q net net1 :
  (∀ i, i ∈ leaves p → i ∈ leaves q) → kept p net net1 → kept q net net1.
Proof.
  intros Hsub (Ha & Hb & Hc & Hd & He & Hg & H).
  split; [done|]. split; [done|]. split; [done|]. split; [done|].
  split; [done|]. split; [done|].
  intros i [Hi|Hi]; apply H; [by left | right]. intros Hp. by apply Hi, Hsub.
Qed.

Lemma kept_trans p net net1 net2 :
  kept p net net1 → kept p net1 net2 → kept p net net2.
Proof.
  intros (Ha & Hb & Hc & Hd & He & Hg & H1)
         (Ha' & Hb' & Hc' & Hd' & He' & Hg' & H2).
  split; [congruence|]. split; [congruence|]. split; [congruence|].
  split; [congruence|]. split; [congruence|]. split; [congruence|].
  intros i Hi. destruct (H1 i Hi) as [Hf Ht].
  destruct (H2 i) as [Hf' Ht'].
  { destruct Hi as [Hi|Hi]; [left; congruence | by right]. }
  split; congruence.
Qed.

(** The visit of a leaf. *)
Lemma visit_spec i net net1 r :
  visit addGate i net = (net1, r) →
  kept (Leaf i) net net1 ∧
  ∀ out, r = Ok out →
    swapflags net1 !! i = Some true ∧
    tensors net1 !! i = Some (Some out) ∧
    ∀ t, tensors net !! i = Some (Some t) → out = once addGate net i t.
Proof.
  unfold visit, once.
  destruct (tensors net !! i) as [[t|]|] eqn:Ht;
    try (intros [= <- <-]; split; [apply kept_refl | done]).
  destruct (swapflags net !! i) as [[|]|] eqn:Hf;
    try (intros [= <- <-]; split; [apply kept_refl | done]).
  - intros [= <- <-]. split; [apply kept_refl|].
    intros out [= <-]. split; [done|]. split; [done|]. by intros t' [= <-].
  - destruct (swaps_arr net !! i) as [sw|] eqn:Hs;
      [|intros [= <- <-]; split; [apply kept_refl | done]].
    intros [= <- <-]. split.
    + repeat split; try done; simpl.
      * apply list_lookup_insert_ne. intros <-.
        destruct H as [H|H]; [congruence | simpl in H; set_solver].
      * apply list_lookup_insert_ne. intros <-.
        destruct H as [H|H]; [congruence | simpl in H; set_solver].
    + intros out [= <-]. simpl. split.
      { apply list_lookup_insert_eq. by eapply lookup_lt_Some. }
      split.
      { apply list_lookup_insert_eq. by eapply lookup_lt_Some. }
      by intros t' [= <-].
Qed.

(** A traversal that returned has flagged every leaf of the tree and
    applied the swap list of each leaf that was not flagged, once; its
    result is the contraction of the tensors it leaves behind. *)
Lemma merge_spec p net net1 r :
  merge contract addGate p net = (net1, r) →
  kept p net net1 ∧
  ∀ out, r = Ok out →
    eval contract p (tensors net1) = Ok out ∧
    ∀ i, i ∈ leaves p →
      swapflags net1 !! i = Some true ∧
      ∀ t, tensors net !! i = Some (Some t) →
           tensors net1 !! i = Some (Some (once addGate net i t)).
Proof.
  revert net net1 r. induction p as [i|l IHl r0 IHr]; intros net net1 r.
  - simpl. intros Hv. destruct (visit_spec _ _ _ _ Hv) as [Hk Hok].
    split; [done|]. intros out ->.
    destruct (Hok out eq_refl) as (Hf & Ht & Ho).
    split; [by rewrite Ht|].
    intros j ->%list_elem_of_singleton. split; [done|].
    intros t Hnt. by rewrite Ht, (Ho t Hnt).
  - simpl. destruct (merge contract addGate l net) as [n1 a] eqn:Hl.
    destruct (IHl _ _ _ Hl) as [Hk1 Hok1].
    assert (kept (Join l r0) net n1) as Hk1'.
    { eapply kept_weaken; [|exact Hk1]. intros i Hi. simpl. set_solver. }
    destruct a as [a|e]; [|intros [= <- <-]; split; [done | done]].
    destruct (merge contract addGate r0 n1) as [n2 b] eqn:Hr.
    destruct (IHr _ _ _ Hr) as [Hk2 Hok2].
    assert (kept (Join l r0) n1 n2) as Hk2'.
    { eapply kept_weaken; [|exact Hk2]. intros i Hi. simpl. set_solver. }
    intros [= <- <-]. split; [by eapply kept_trans|].
    intros out (b' & -> & Hc)%rbind_Ok.
    destruct (Hok1 a eq_refl) as [He1 Hl1].
    destruct (Hok2 b' eq_refl) as [He2 Hl2].
    destruct Hk2 as (_ & _ & _ & _ & _ & _ & Hframe2).
    destruct Hk1 as (_ & _ & _ & Hsw1 & _ & _ & Hframe1).
    split.
    + rewrite (eval_ext l (tensors n1) (tensors n2)).
      * rewrite He1, He2. simpl. done.
      * intros i Hi. apply Hframe2. left. by apply Hl1.
    + intros i Hi. simpl in Hi.
      destruct (decide (i ∈ leaves l)) as [Hil|Hil].
      * destruct (Hl1 i Hil) as [Hf1 Ht1].
        destruct (Hframe2 i (or_introl Hf1)) as [Hf2 Ht2].
        split; [congruence|]. intros t Ht. rewrite Ht2. by apply Ht1.
      * assert (i ∈ leaves r0) as Hir by set_solver.
        destruct (Hl2 i Hir) as [Hf2 Ht2].
        destruct (Hframe1 i (or_intror Hil)) as [Hf1 Ht1].
        split; [done|]. intros t Ht. rewrite <- Ht1 in Ht.
        rewrite (Ht2 t Ht). unfold once. by rewrite Hf1, Hsw1.
Qed.

(** A traversal over flagged leaves applies nothing and changes
    nothing. *)
Lemma merge_flagged p net :
  (∀ i, i ∈ leaves p → swapflags net !! i = Some true) →
  merge contract addGate p net = (net, eval contract p (tensors net)).
Proof.
  induction p as [i|l IHl r IHr]; intros H; simpl.
  - unfold visit. rewrite (H i) by (simpl; set_solver).
    by destruct (tensors net !! i) as [[t|]|].
  - rewrite IHl by (intros i Hi; apply H; simpl; set_solver).
    destruct (eval contract l (tensors net)) as [a|e]; [|done].
    rewrite IHr by (intros i Hi; apply H; simpl; set_solver). done.
Qed.

Lemma ready_load net out net1 :
  launch contract permute addGate exSwap plan_of net = (net1, Ok out) →
  load (ready exSwap plan_of net) = true.
Proof.
  unfold launch, ready, construct. destruct (load net) eqn:Hl; [done|].
  destruct (plan_of (label_arr net)); [done|]. by intros [= _ ?].
Qed.

(** C7: a launch that returned has flagged every leaf of the tree and
    applied the swap list of each leaf that was not flagged, once, to
    the tensor bound to it; every further launch finds the flags set,
    applies no swap, changes nothing of the network, neither the swap
    lists nor the bound tensors, and returns the same tensor. *)
Theorem launch_twice net net1 out :
  launch contract permute addGate exSwap plan_of net = (net1, Ok out) →
  launch contract permute addGate exSwap plan_of net1 = (net1, Ok out) ∧
  (∀ k, launches contract permute addGate exSwap plan_of k net1
        = (net1, replicate k (Ok out))) ∧
  ∃ p, root (ready exSwap plan_of net) = Some p ∧ root net1 = Some p ∧
    swaps_arr net1 = swaps_arr (ready exSwap plan_of net) ∧
    ∀ i, i ∈ leaves p →
      swapflags net1 !! i = Some true ∧
      ∀ t, tensors (ready exSwap plan_of net) !! i = Some (Some t) →
        tensors net1 !! i
        = Some (Some (once addGate (ready exSwap plan_of net) i t)).
Proof.
  intros H1. pose proof (ready_load _ _ _ H1) as Hload.
  assert (launch contract permute addGate exSwap plan_of net
          = launch contract permute addGate exSwap plan_of
              (ready exSwap plan_of net)) as Hsame.
  { unfold launch at 2. rewrite Hload. clear H1. unfold launch, ready in *.
    destruct (load net) eqn:Hl; [done|].
    unfold construct in *. destruct (plan_of (label_arr net)); [done|].
    simpl in Hload. congruence. }
  rewrite Hsame in H1. set (net0 := ready exSwap plan_of net) in *.
  unfold launch in H1. rewrite Hload in H1.
  destruct (root net0) as [p|] eqn:Hroot; [|done].
  destruct (merge contract addGate p net0) as [n2 r] eqn:Hm.
  injection H1 as -> Hout.
  destruct (merge_spec _ _ _ _ Hm) as [Hk Hok].
  destruct r as [t|e]; [|done]. simpl in Hout.
  destruct (Hok t eq_refl) as [He Hl].
  destruct Hk as (Hld & _ & Hrt & Hsw & _ & _ & _).
  assert (launch contract permute addGate exSwap plan_of net1
          = (net1, Ok out)) as H2.
  { unfold launch. rewrite Hld, Hload, Hrt, Hroot.
    rewrite merge_flagged by (intros i Hi; by apply Hl).
    rewrite He. simpl. by rewrite Hout. }
  split; [done|]. split.
  - induction k as [|k IH]; [done|]. simpl. by rewrite H2, IH.
  - exists p. split; [done|]. split; [congruence|]. split; [done|]. done.
Qed.

End Launch.

End NetFacts.

Lemma launch_twice_witness :
  ∃ net1 out,
    Net.launch sw_contract sw_permute sw_addGate sw_exSwap sw_plan net_sw
      = (net1, Ok out) ∧
    Net.launch sw_contract sw_permute sw_addGate sw_exSwap sw_plan net1
      = (net1, Ok out) ∧
    Net.launches sw_contract sw_permute sw_addGate sw_exSwap sw_plan 3 net1
      = (net1, replicate 3 (Ok out)) ∧
    Net.tensors net1 = [Some 2; Some (-3)].
Proof.
  destruct (Net.launch sw_contract sw_permute sw_addGate sw_exSwap sw_plan
              net_sw) as [net1 [out|e]] eqn:H1; [|by vm_compute in H1].
  exists net1, out. split; [done|].
  destruct (NetFacts.launch_twice sw_contract sw_permute sw_addGate sw_exSwap
              sw_plan net_sw net1 out H1) as (H2 & Hk & _).
  split; [done|]. split; [apply (Hk 3%nat)|].
  vm_compute in H1. by injection H1 as <- _.
Defined.

(** * Further properties of the code *)

(** ** The copies of the blocked multiply *)

Module DgemmMore.
Import Dgemm DgemmFacts.

Lemma list_inserts_0 {A} (k l : list A) :
  (length k ≤ length l)%nat → list_inserts 0 k l = k ++ drop (length k) l.
Proof.
  intros Hlen. apply list_eq. intros i.
  destruct (decide (i < length k)%nat) as [Hi|Hi].
  - rewrite list_lookup_inserts by lia. rewrite lookup_app_l by done.
    f_equal. lia.
  - rewrite list_lookup_inserts_ge by lia.
    rewrite lookup_app_r, lookup_drop by lia. f_equal. lia.
Qed.

(** X1: [getRows] aborts on its assertion when the rows asked for do not
    lie inside the matrix; otherwise, for a matrix on the host, the
    first [N * span] entries of the device buffer become rows [start] to
    [start + span - 1] of the matrix and the rest of the buffer stays;
    for a matrix on the device nothing is copied. *)
Theorem getRows_rows {E} (M N start span : nat) (iA fA : list E) how :
  Z.of_nat (M * N) ≤ INT_MAX → Z.of_nat M ≤ INT_MAX →
  Z.of_nat (start + span) ≤ INT_MAX →
  length iA = (M * N)%nat → (N * span ≤ length fA)%nat →
  getRows (Z.of_nat M) (Z.of_nat N) (Z.of_nat start) (Z.of_nat span) iA fA how
  = if decide (start + span ≤ M)%nat then
      Some (if has_bit how 4
            then take (N * span) (drop (start * N) iA) ++ drop (N * span) fA
            else fA)
    else None.
Proof.
  intros HMN HM Hss HiA HfA. unfold getRows.
  rewrite iadd_nat by lia.
  destruct (decide (start + span ≤ M)%nat) as [Hle|Hgt].
  - rewrite bool_decide_true by lia. simpl.
    destruct (has_bit how 4); [|done].
    rewrite imul_nat by nia. rewrite to_size_of_nat. simpl.
    rewrite <- Nat2Z.inj_mul, to_size_of_nat. simpl.
    unfold memcpy. rewrite decide_True by (split; nia).
    f_equal. rewrite list_inserts_0.
    + f_equal. f_equal. rewrite length_take, length_drop. nia.
    + rewrite length_take, length_drop. nia.
  - rewrite bool_decide_false by lia. done.
Qed.

Section Copies.
Context {E : Type} (alloc : nat → list E).
Context (Halloc : ∀ n, length (alloc n) = n).

(** Two buffers of one length are equal when they agree on every entry
    of a window of rows and outside of it. *)
Lemma window_eq (l1 l2 : list E) (start : nat → nat) (rows w : nat)
    (v : nat → nat → option E) (old : list E) :
  length l1 = length l2 →
  (∀ r c, (r < rows)%nat → (c < w)%nat →
          l1 !! (start r + c)%nat = v r c ∧ l2 !! (start r + c)%nat = v r c) →
  (∀ x, (∀ r, (r < rows)%nat → (x < start r ∨ start r + w ≤ x)%nat) →
        l1 !! x = old !! x ∧ l2 !! x = old !! x) →
  l1 = l2.
Proof.
  intros Hlen Hin Hout. apply list_eq. intros x.
  destruct (decide (Exists (λ r, start r ≤ x < start r + w)%nat (seq 0 rows)))
    as [Hex|Hnex].
  - apply Exists_exists in Hex as (r & [_ Hr]%elem_of_seq & Hx).
    destruct (Hin r (x - start r)%nat) as [H1 H2]; [lia | lia |].
    replace (start r + (x - start r))%nat with x in * by lia. congruence.
  - destruct (Hout x) as [H1 H2]; [|congruence].
    intros r Hr. rewrite <- Forall_Exists_neg, Forall_forall in Hnex.
    specialize (Hnex r). rewrite elem_of_seq in Hnex. lia.
Qed.

Lemma getCols_frame (K N start span : nat) (iB fB : list E) how :
  (start + span ≤ N)%nat → Z.of_nat (K * N) ≤ INT_MAX →
  Z.of_nat N ≤ INT_MAX →
  length iB = (K * N)%nat → (K * span ≤ length fB)%nat →
  ∃ fB', getCols alloc (Z.of_nat K) (Z.of_nat N) (Z.of_nat start)
           (Z.of_nat span) iB fB how = Some fB' ∧
    length fB' = length fB ∧
    (∀ l c, (l < K)%nat → (c < span)%nat →
            fB' !! (l * span + c)%nat = iB !! (start + l * N + c)%nat) ∧
    (∀ x, (K * span ≤ x)%nat → fB' !! x = fB !! x).
Proof using Halloc.
  intros Hle HKN HN HiB HfB. unfold getCols.
  rewrite iadd_nat by lia. rewrite bool_decide_true by lia. simpl.
  rewrite to_size_of_nat. simpl. rewrite Nat2Z.id.
  assert (∀ dst, (K * span ≤ length dst)%nat →
    ∃ dst', copy_loop (seq 0 K)
        (λ i, to_size (imul (Z.of_nat i) (Z.of_nat span)))
        (λ i, o ← to_size (imul (Z.of_nat i) (Z.of_nat N));
              ptr_add o (Z.of_nat start)) span dst iB = Some dst' ∧
      length dst' = length dst ∧
      (∀ l c, (l < K)%nat → (c < span)%nat →
              dst' !! (l * span + c)%nat = iB !! (start + l * N + c)%nat) ∧
      (∀ x, (K * span ≤ x)%nat → dst' !! x = dst !! x))
    as Hloop.
  { intros dst Hdst.
    destruct (copy_loop_Some (seq 0 K)
        (λ i, to_size (imul (Z.of_nat i) (Z.of_nat span)))
        (λ i, o ← to_size (imul (Z.of_nat i) (Z.of_nat N));
              ptr_add o (Z.of_nat start)) span dst iB 0%nat span start N)
      as (dst' & Hl & Hlen & Hin & Hout).
    - apply NoDup_seq.
    - done.
    - intros l [_ Hl]%elem_of_seq.
      rewrite !imul_nat by nia. rewrite !to_size_of_nat. simpl.
      rewrite ptr_add_of_nat. repeat split; [f_equal; lia | nia | nia].
    - exists dst'. split; [done|]. split; [done|]. split.
      + intros l c Hl' Hc. apply (Hin l c); [apply elem_of_seq; lia | done].
      + intros x Hx. apply Hout. intros l [_ Hl']%elem_of_seq. right. nia. }
  destruct (has_bit how 2).
  - rewrite imul_nat by nia. rewrite to_size_of_nat. simpl.
    destruct (Hloop (alloc (K * span))) as (tmp & Htmp & Hlt & Hint & _).
    { by rewrite Halloc. }
    rewrite Htmp. simpl.
    rewrite <- Nat2Z.inj_mul, to_size_of_nat. simpl.
    destruct (memcpy_Some fB 0 tmp 0 (K * span))
      as (fB' & Hcp & Hlen & Hin & Hout).
    { rewrite Hlt, Halloc. lia. }
    { lia. }
    exists fB'. split; [done|]. split; [done|]. split.
    + intros l c Hl Hc. rewrite <- Hint by done.
      apply (Hin (l * span + c)%nat). nia.
    + intros x Hx. apply Hout. right. lia.
  - by apply Hloop.
Qed.

(** X2: [getCols] aborts on its assertion when the columns asked for do
    not lie inside the matrix; otherwise it packs columns [start] to
    [start + span - 1] of the [K] by [N] matrix row by row at the front
    of the buffer and leaves the rest of the buffer; staging through the
    host ([how & 2]) and copying on the device give the same buffer. *)
Theorem getCols_columns (K N start span : nat) (iB fB : list E) :
  Z.of_nat (K * N) ≤ INT_MAX → Z.of_nat N ≤ INT_MAX →
  Z.of_nat (start + span) ≤ INT_MAX →
  length iB = (K * N)%nat → (K * span ≤ length fB)%nat →
  ((N < start + span)%nat →
     ∀ how, getCols alloc (Z.of_nat K) (Z.of_nat N) (Z.of_nat start)
              (Z.of_nat span) iB fB how = None) ∧
  ((start + span ≤ N)%nat →
     ∃ fB',
       (∀ how, getCols alloc (Z.of_nat K) (Z.of_nat N) (Z.of_nat start)
                 (Z.of_nat span) iB fB how = Some fB') ∧
       length fB' = length fB ∧
       (∀ l c, (l < K)%nat → (c < span)%nat →
               fB' !! (l * span + c)%nat = iB !! (l * N + start + c)%nat) ∧
       (∀ x, (K * span ≤ x)%nat → fB' !! x = fB !! x)).
Proof using Halloc.
  intros HKN HN Hss HiB HfB. split.
  - intros Hgt how. unfold getCols. rewrite iadd_nat by lia.
    by rewrite bool_decide_false by lia.
  - intros Hle.
    destruct (getCols_frame K N start span iB fB MM_DDD)
      as (fB' & Hg & Hlen & Hin & Hout); try done.
    exists fB'. split; [|split; [done|split; [|done]]].
    + intros how.
      destruct (getCols_frame K N start span iB fB how)
        as (fB2 & Hg2 & Hlen2 & Hin2 & Hout2); try done.
      rewrite Hg2. f_equal.
      apply (window_eq fB2 fB' (λ l, l * span)%nat K span
               (λ l c, iB !! (start + l * N + c)%nat) fB); [lia | |].
      * intros l c Hl Hc. split; [by apply Hin2 | by apply Hin].
      * intros x Hx.
        assert (K * span ≤ x)%nat as Hge.
        { destruct (decide (K * span ≤ x)%nat) as [|Hlt]; [done|].
          assert (span ≠ 0)%nat by nia.
          pose proof (Nat.div_mod_eq x span).
          pose proof (Nat.mod_upper_bound x span ltac:(done)).
          assert (x / span < K)%nat as Hq by (apply Nat.Div0.div_lt_upper_bound; nia).
          specialize (Hx (x / span)%nat Hq). nia. }
        split; [by apply Hout2 | by apply Hout].
    + intros l c Hl Hc. rewrite Hin by done. f_equal. lia.
Qed.

(** X3: [putBack] writes the [spanR] by [spanC] block into the window of
    [C] whose corner is [(startR, startC)] and changes no entry of [C]
    outside of that window; staging through the host ([how & 1]) and
    copying on the device give the same [C]. *)
Theorem putBack_window (startR startC spanR spanC M N : nat) (sC C : list E) :
  (startR + spanR ≤ M)%nat → (startC + spanC ≤ N)%nat →
  Z.of_nat (M * N) ≤ INT_MAX → Z.of_nat M ≤ INT_MAX →
  length C = (M * N)%nat → (spanR * spanC ≤ length sC)%nat →
  ∃ C',
    (∀ how, putBack alloc (Z.of_nat startR) (Z.of_nat startC) (Z.of_nat spanR)
              (Z.of_nat spanC) (Z.of_nat M) (Z.of_nat N) sC C how = Some C') ∧
    length C' = length C ∧
    (∀ r c, (r < spanR)%nat → (c < spanC)%nat →
       C' !! ((startR + r) * N + startC + c)%nat = sC !! (r * spanC + c)%nat) ∧
    (∀ r c, (r < M)%nat → (c < N)%nat →
       ¬ (startR ≤ r < startR + spanR ∧ startC ≤ c < startC + spanC)%nat →
       C' !! (r * N + c)%nat = C !! (r * N + c)%nat).
Proof using Halloc.
  intros HR HC HMN HM HlC HlsC.
  destruct (putBack_Some alloc Halloc startR startC spanR spanC M N sC C MM_DDD)
    as (C' & Hp & Hlen & Hin & Hout); try done.
  exists C'. split; [|split; [done|split; [done|]]].
  - intros how.
    destruct (putBack_Some alloc Halloc startR startC spanR spanC M N sC C how)
      as (C2 & Hp2 & Hlen2 & Hin2 & Hout2); try done.
    rewrite Hp2. f_equal.
    apply (window_eq C2 C' (λ r, (startR + r) * N + startC)%nat spanR spanC
             (λ r c, sC !! (r * spanC + c)%nat) C); [lia | |].
    + intros r c Hr Hc. split; [by apply Hin2 | by apply Hin].
    + intros x Hx. split; [by apply Hout2 | by apply Hout].
  - intros r c Hr Hc Hnot. apply Hout. intros r' Hr'.
    destruct (decide (r = startR + r')%nat) as [->|Hne]; [lia|].
    destruct (decide (r < startR + r')%nat); [left | right]; nia.
Qed.

End Copies.

(** X4: the block rows tile the matrix: with [p] blocks over [M] rows,
    every row lies in the rows [i * (M / p)] to
    [i * (M / p) + rows - 1] of exactly one block [i], [rows] being the
    count the loop computes for [i]; no row is left out and none is
    computed twice. *)
Theorem block_rows_tile (p M r : nat) :
  (1 ≤ p)%nat → Z.of_nat p ≤ INT_MAX → Z.of_nat M ≤ INT_MAX → (r < M)%nat →
  let first i := imul (Z.of_nat i) (idiv (Z.of_nat M) (Z.of_nat p)) in
  let inside i :=
    first i ≤ Z.of_nat r < first i + block_span (Z.of_nat p) (Z.of_nat M) i in
  ∃ i, (i < p)%nat ∧ inside i ∧ ∀ i', (i' < p)%nat → inside i' → i' = i.
Proof.
  intros Hp HpI HM Hr first inside.
  assert (∀ i, (i < p)%nat →
            inside i ↔ (i * (M / p) ≤ r < i * (M / p) + span_of p M i)%nat)
    as Hin.
  { intros i Hi. unfold inside, first.
    rewrite span_of_int by done. rewrite idiv_nat by lia.
    pose proof (span_of_le p M i Hi).
    rewrite imul_nat by lia. lia. }
  destruct (span_of_cover p M r Hp Hr) as (i & k & Hi & Hk & ->).
  exists i. split; [done|]. split; [apply Hin; [done|lia]|].
  intros i' Hi' Hins. apply Hin in Hins; [|done].
  symmetry.
  apply (span_of_disjoint p M i i' k (i * (M / p) + k - i' * (M / p))%nat);
    try done; lia.
Qed.

End DgemmMore.

(** ** The label dictionary and the constructor *)

Section Constructor2.
Context {E : Type}.
Implicit Types t : NPTensor E.

Lemma mapLabelBond_loop_seq lab a n m0 m' :
  mapLabelBond_loop lab (seq a n) m0 = Ok m' →
  ∀ x i, m' !! x = Some i ↔
    ((a ≤ i < a + n)%nat ∧ lab !! i = Some x ∧
       ∀ j, (i < j < a + n)%nat → lab !! j ≠ Some x) ∨
    (m0 !! x = Some i ∧ ∀ j, (a ≤ j < a + n)%nat → lab !! j ≠ Some x).
Proof.
  revert a m0. induction n as [|n IH]; intros a m0; simpl.
  - intros [= <-] x i. split.
    + intros H. right. split; [done|]. intros; lia.
    + intros [[? _]|[? _]]; [lia | done].
  - intros (y & Hy & Hloop)%rbind_Ok x i.
    unfold py_index in Hy. destruct (lab !! a) as [y'|] eqn:Ha; [|done].
    injection Hy as ->.
    rewrite (IH _ _ Hloop x i).
    destruct (decide (y = x)) as [->|Hne].
    + rewrite lookup_insert_eq. split.
      * intros [(Hi & Hl & Hlater)|[[= <-] Hno]].
        -- left. split; [lia|]. split; [done|]. intros j Hj. apply Hlater. lia.
        -- left. split; [lia|]. split; [done|]. intros j Hj. apply Hno. lia.
      * intros [(Hi & Hl & Hlater)|[Hm Hno]].
        -- destruct (decide (i = a)) as [->|].
           ++ right. split; [done|]. intros j Hj. apply Hlater. lia.
           ++ left. split; [lia|]. split; [done|].
              intros j Hj. apply Hlater. lia.
        -- exfalso. apply (Hno a); [lia | done].
    + rewrite lookup_insert_ne by done. split.
      * intros [(Hi & Hl & Hlater)|[Hm Hno]].
        -- left. split; [lia|]. split; [done|]. intros j Hj. apply Hlater. lia.
        -- right. split; [done|]. intros j Hj.
           destruct (decide (j = a)) as [->|]; [congruence|]. apply Hno. lia.
      * intros [(Hi & Hl & Hlater)|[Hm Hno]].
        -- left. assert (i ≠ a) by (intros ->; congruence).
           split; [lia|]. split; [done|]. intros j Hj. apply Hlater. lia.
        -- right. split; [done|]. intros j Hj. apply Hno. lia.
Qed.

Lemma mapLabelBond_loop_short lab a n m0 :
  (length lab < a + n)%nat → (0 < n)%nat →
  mapLabelBond_loop lab (seq a n) m0 = Raise IndexError.
Proof.
  revert a m0. induction n as [|n IH]; intros a m0 Hlen Hn; [lia|].
  simpl. unfold py_index. destruct (lab !! a) as [y|] eqn:Ha; [|done].
  simpl. apply lookup_lt_Some in Ha. apply IH; lia.
Qed.

Lemma mapLabelBond_cases (a : ndarray E) lab n k :
  ((length lab < n)%nat → mapLabelBond a lab n k = Raise IndexError) ∧
  ((n ≤ length lab)%nat →
     ∃ m, mapLabelBond a lab n k = Ok (mk_NPTensor a lab n k m) ∧
       ∀ x i, m !! x = Some i ↔
         (i < n)%nat ∧ lab !! i = Some x ∧
         ∀ j, (i < j < n)%nat → lab !! j ≠ Some x).
Proof.
  unfold mapLabelBond, xrange. split.
  - intros Hlen. rewrite mapLabelBond_loop_short; [done | lia | lia].
  - intros Hlen.
    destruct (mapLabelBond_loop_total lab (seq 0 n) ∅) as [m Hm].
    { apply Forall_forall. intros i [_ Hi]%elem_of_seq. lia. }
    exists m. rewrite Hm. split; [done|]. intros x i.
    rewrite (mapLabelBond_loop_seq _ _ _ _ _ Hm x i). split.
    + intros [(Hi & Hl & Hlater)|[Hm0 _]]; [|by rewrite lookup_empty in Hm0].
      split; [lia|]. split; [done|]. intros j Hj. apply Hlater. lia.
    + intros (Hi & Hl & Hlater). left. split; [lia|]. split; [done|].
      intros j Hj. apply Hlater. lia.
Qed.

(** X5: [mapLabelBond] needs a label for each of the [bn] bonds, else
    [self.label[i]] raises [IndexError]; the dictionary it builds sends
    every label among the first [bn] to the position of its last
    occurrence there, and has no other key. *)
Theorem mapLabelBond_lbmap (a : ndarray E) lab n k :
  ((length lab < n)%nat → mapLabelBond a lab n k = Raise IndexError) ∧
  ((n ≤ length lab)%nat →
     ∃ m, mapLabelBond a lab n k = Ok (mk_NPTensor a lab n k m) ∧
       ∀ x i, m !! x = Some i ↔
         (i < n)%nat ∧ lab !! i = Some x ∧
         ∀ j, (i < j < n)%nat → lab !! j ≠ Some x).
Proof. exact (mapLabelBond_cases a lab n k). Qed.

Lemma mapLabelBond_again (a : ndarray E) lab n k t :
  mapLabelBond a lab n k = Ok t →
  mapLabelBond (arr t) (label t) (bn t) (ibn t) = Ok t.
Proof.
  unfold mapLabelBond. intros (m & Hm & [= <-])%rbind_Ok. simpl.
  by rewrite Hm.
Qed.

(** X6: whatever the constructor was given, a [UniTensor], an array or an
    [NPTensor], constructing once more from its result gives that result
    again. *)
Theorem NPTensor_new_again (o : pyobj) t :
  NPTensor_new o = Ok t → NPTensor_new (PyNPT t) = Ok t.
Proof.
  destruct o as [u|a|t0]; simpl.
  - intros (_ & _ & ([npa c] & _ & (nda & _ & H)%rbind_Ok)%rbind_Ok)%rbind_Ok.
    by eapply mapLabelBond_again.
  - apply mapLabelBond_again.
  - apply mapLabelBond_again.
Qed.

Lemma blockQnum_trivial (qns : list Qnum) :
  (length qns = 1%nat ∧ qns !! 0%nat = Some Qnum0) ↔ qns = [Qnum0].
Proof.
  split.
  - intros [Hlen H0]. destruct qns as [|q [|q' qns]]; try done.
    simpl in H0. by injection H0 as ->.
  - by intros ->.
Qed.

(** The steps of the constructor on a [UniTensor], one after the other. *)
Lemma NPTensor_new_PyUni_eq (u : UniTensor E) :
  NPTensor_new (PyUni u) =
    if decide (blockQnum u = [Qnum0]) then
      if decide (u_typeID u = 1 ∨ u_typeID u = 2)%nat then
        if decide (elemNum u = size_of (dim <$> u_bonds u)) then
          mapLabelBond
            (mk_ndarray (u_elem u) (dim <$> u_bonds u)
               (c_strides (dim <$> u_bonds u)) (bool_decide (u_typeID u = 2%nat)))
            (u_labels u) (bondNum u) (inBondNum u)
        else Raise ValueError
      else Raise UnboundLocalError
    else Raise AssertionError.
Proof.
  simpl. destruct (decide (blockQnum u = [Qnum0])) as [Hq|Hq].
  - rewrite bool_decide_true by (by apply blockQnum_trivial). simpl.
    unfold exportElem, elemNum, reshape.
    destruct (decide (u_typeID u = 1%nat)) as [H1|H1].
    + rewrite decide_True by (by left). simpl.
      rewrite (bool_decide_false (u_typeID u = 2%nat)) by lia.
      by destruct (decide _).
    + destruct (decide (u_typeID u = 2%nat)) as [H2|H2].
      * rewrite decide_True by (by right). simpl.
        rewrite bool_decide_true by done. by destruct (decide _).
      * rewrite decide_False by lia. done.
  - rewrite bool_decide_false; [done|]. by rewrite blockQnum_trivial.
Qed.

Lemma ravel_c_contiguous sh (vs : list E) c :
  length vs = size_of sh → ravel (mk_ndarray vs sh (c_strides sh) c) = Ok vs.
Proof.
  intros Hlen. unfold ravel. simpl. apply mapR_Ok.
  apply Forall2_same_length_lookup. split; [by rewrite length_indices|].
  intros k idx v Hidx Hv.
  assert (idx ∈ indices sh) as Hin%elem_of_indices
    by by eapply list_elem_of_lookup_2.
  destruct (flat_pos_c_strides _ _ Hin) as [_ Hpos].
  pose proof (NoDup_lookup _ _ _ _ (NoDup_indices sh) Hidx Hpos) as ->.
  unfold getR, get. simpl. rewrite decide_True by done. by rewrite Hv.
Qed.

Lemma NPTensor_new_PyUni_cases (u : UniTensor E) :
  ((∃ t, NPTensor_new (PyUni u) = Ok t) ↔
     blockQnum u = [Qnum0] ∧ (u_typeID u = 1 ∨ u_typeID u = 2)%nat ∧
     elemNum u = size_of (dim <$> u_bonds u) ∧
     (bondNum u ≤ length (u_labels u))%nat) ∧
  (∀ t, NPTensor_new (PyUni u) = Ok t →
     shape (arr t) = dim <$> u_bonds u ∧
     strides (arr t) = c_strides (dim <$> u_bonds u) ∧
     buf (arr t) = u_elem u ∧
     cplx (arr t) = bool_decide (u_typeID u = 2%nat) ∧
     ravel (arr t) = Ok (u_elem u) ∧
     label t = u_labels u ∧ bn t = bondNum u ∧ ibn t = inBondNum u).
Proof.
  rewrite NPTensor_new_PyUni_eq.
  destruct (decide (blockQnum u = [Qnum0])) as [Hq|Hq].
  2:{ split; [split; [by intros [t Ht] | tauto] | done]. }
  destruct (decide (u_typeID u = 1 ∨ u_typeID u = 2)%nat) as [Hty|Hty].
  2:{ split; [split; [by intros [t Ht] | tauto] | done]. }
  destruct (decide (elemNum u = size_of (dim <$> u_bonds u))) as [Hsz|Hsz].
  2:{ split; [split; [by intros [t Ht] | tauto] | done]. }
  destruct (mapLabelBond_cases
              (mk_ndarray (u_elem u) (dim <$> u_bonds u)
                 (c_strides (dim <$> u_bonds u)) (bool_decide (u_typeID u = 2%nat)))
              (u_labels u) (bondNum u) (inBondNum u)) as [Hshort Hlong].
  split.
  - split.
    + intros [t Ht]. repeat split; try done.
      destruct (decide (bondNum u ≤ length (u_labels u))%nat); [done|].
      rewrite Hshort in Ht by lia. done.
    + intros (_ & _ & _ & Hlab). destruct (Hlong Hlab) as (m & -> & _).
      by eexists.
  - intros t Ht.
    destruct (decide (bondNum u ≤ length (u_labels u))%nat) as [Hlab|Hlab].
    + destruct (Hlong Hlab) as (m & Heq & _). rewrite Heq in Ht.
      injection Ht as <-. simpl. repeat split.
      by apply ravel_c_contiguous.
    + rewrite Hshort in Ht by lia. done.
Qed.

(** X7: the constructor accepts a [UniTensor] exactly when its one block
    has charge [Qnum(0)], it is real or complex, it holds as many
    elements as its bond dimensions multiply to and it has a label for
    every bond; the tensor it returns is C-contiguous, has the bond
    dimensions as its shape, the elements in their order, and the labels,
    the bond count and the incoming bond count of the [UniTensor]. *)
Theorem NPTensor_new_UniTensor (u : UniTensor E) :
  ((∃ t, NPTensor_new (PyUni u) = Ok t) ↔
     blockQnum u = [Qnum0] ∧ (u_typeID u = 1 ∨ u_typeID u = 2)%nat ∧
     elemNum u = size_of (dim <$> u_bonds u) ∧
     (bondNum u ≤ length (u_labels u))%nat) ∧
  (∀ t, NPTensor_new (PyUni u) = Ok t →
     shape (arr t) = dim <$> u_bonds u ∧
     strides (arr t) = c_strides (dim <$> u_bonds u) ∧
     buf (arr t) = u_elem u ∧
     cplx (arr t) = bool_decide (u_typeID u = 2%nat) ∧
     ravel (arr t) = Ok (u_elem u) ∧
     label t = u_labels u ∧ bn t = bondNum u ∧ ibn t = inBondNum u).
Proof. exact (NPTensor_new_PyUni_cases u). Qed.

(** C8: a [UniTensor] is turned into an [NPTensor] only if its block
    quantum numbers are exactly [[Qnum(0)]]; with any other list of block
    quantum numbers the constructor raises [AssertionError], which the
    [except AttributeError] clause does not catch.  Of the bonds only
    the dimensions are read: a tensor that differs in the directions and
    the charges of its bonds gives the same result. *)
Theorem NPTensor_new_trivial_only (u : UniTensor E) :
  (∀ t, NPTensor_new (PyUni u) = Ok t →
        length (blockQnum u) = 1%nat ∧ blockQnum u = [Qnum0]) ∧
  (blockQnum u ≠ [Qnum0] → NPTensor_new (PyUni u) = Raise AssertionError) ∧
  (∀ u', same_but_charges u u' →
         NPTensor_new (PyUni u') = NPTensor_new (PyUni u)).
Proof.
  split; [|split].
  - intros t Ht. rewrite NPTensor_new_PyUni_eq in Ht.
    destruct (decide (blockQnum u = [Qnum0])) as [Hq|Hq]; [|done].
    by rewrite Hq.
  - intros Hne. rewrite NPTensor_new_PyUni_eq. by rewrite decide_False.
  - intros u' (Hty & Hdim & Hlab & Hr & Hbl & Hel).
    rewrite !NPTensor_new_PyUni_eq.
    unfold blockQnum, elemNum, bondNum, inBondNum.
    rewrite Hty, Hdim, Hlab, Hr, Hbl, Hel.
    replace (length (u_bonds u')) with (length (u_bonds u)); [done|].
    by rewrite <- (length_fmap dim (u_bonds u)), <- Hdim, length_fmap.
Qed.

(** X8: the failures of the constructor on a [UniTensor] whose block
    passes the assertion: an empty tensor, neither real nor complex,
    leaves [npa] unbound in [exportElem] and the [UnboundLocalError]
    passes the [except AttributeError] clause; an element count that is
    not the product of the bond dimensions makes [reshape] raise
    [ValueError]; too few labels raise [IndexError]. *)
Theorem NPTensor_new_UniTensor_errors (u : UniTensor E) :
  blockQnum u = [Qnum0] →
  (u_typeID u ≠ 1%nat → u_typeID u ≠ 2%nat →
     NPTensor_new (PyUni u) = Raise UnboundLocalError) ∧
  ((u_typeID u = 1 ∨ u_typeID u = 2)%nat →
   elemNum u ≠ size_of (dim <$> u_bonds u) →
     NPTensor_new (PyUni u) = Raise ValueError) ∧
  ((u_typeID u = 1 ∨ u_typeID u = 2)%nat →
   elemNum u = size_of (dim <$> u_bonds u) →
   (length (u_labels u) < bondNum u)%nat →
     NPTensor_new (PyUni u) = Raise IndexError).
Proof.
  intros Hq. rewrite NPTensor_new_PyUni_eq. rewrite decide_True by done.
  split; [|split].
  - intros H1 H2. rewrite decide_False by lia. done.
  - intros Hty Hsz. rewrite decide_True by done. by rewrite decide_False.
  - intros Hty Hsz Hlab. rewrite decide_True by done.
    rewrite decide_True by done. by apply mapLabelBond_cases.
Qed.

End Constructor2.

(** ** More on [NPTensor.permute] *)

Section Permute2.
Context {E : Type}.
Implicit Types t : NPTensor E.

(** Equal sets and equal lengths make a rearrangement of a list without
    repetition. *)
Lemma same_set_Permutation (l1 l2 : list Z) :
  NoDup l2 → length l1 = length l2 →
  list_to_set l1 =@{gset Z} list_to_set l2 → l1 ≡ₚ l2.
Proof.
  intros Hnd Hlen Hset. symmetry.
  apply submseteq_length_Permutation; [|lia].
  apply NoDup_submseteq; [done|].
  intros x Hx. apply (elem_of_list_to_set (C:=gset Z)).
  rewrite Hset. by apply elem_of_list_to_set.
Qed.

Lemma permute_not_perm t lab k :
  NoDup (label t) → ¬ lab ≡ₚ label t →
  permute t lab k = Raise AssertionError.
Proof.
  intros Hnd Hnp. unfold permute.
  destruct (bool_decide (length lab = length (label t))) eqn:Hlen; [|done].
  destruct (same_set lab (label t)) eqn:Hset; [|done].
  exfalso. apply Hnp. apply bool_decide_eq_true in Hlen.
  unfold same_set in Hset. apply bool_decide_eq_true in Hset.
  by apply same_set_Permutation.
Qed.

Lemma permute_Ok_perm t lab k t' :
  NoDup (label t) → permute t lab k = Ok t' → lab ≡ₚ label t.
Proof.
  intros Hnd Ht'. destruct (decide (lab ≡ₚ label t)) as [|Hnp]; [done|].
  by rewrite (permute_not_perm t lab k Hnd Hnp) in Ht'.
Qed.

(** X9: on a tensor whose labels are distinct, [permute] succeeds exactly
    on the rearrangements of its labels; on any other label list the
    assertion fails. *)
Theorem permute_iff t lab k :
  consistent t → NoDup (label t) →
  ((∃ t', permute t lab k = Ok t') ↔ lab ≡ₚ label t) ∧
  (¬ lab ≡ₚ label t → permute t lab k = Raise AssertionError).
Proof.
  intros Hc Hnd. split; [|by apply permute_not_perm]. split.
  - intros [t' Ht']. by eapply permute_Ok_perm.
  - intros Hperm.
    destruct (permute_spec t lab k Hc Hnd Hperm)
      as (axes & sh & st & m & _ & _ & _ & _ & Heq & _).
    by eexists.
Qed.

(** The dictionary has every label of a consistent tensor, at one of its
    positions. *)
Lemma lbmap_label t x :
  consistent t → x ∈ label t →
  ∃ i, lbmap t !! x = Some i ∧ label t !! i = Some x.
Proof.
  intros (_ & _ & Hlen & Hmap) Hx.
  pose proof (mapLabelBond_loop_seq _ _ _ _ _ Hmap x) as Hspec.
  assert (∃ i, (i < bn t)%nat ∧ label t !! i = Some x ∧
               ∀ j, (i < j < bn t)%nat → label t !! j ≠ Some x)
    as (i & Hi & Hl & Hlast).
  { rewrite <- Hlen. clear -Hx.
    induction (label t) as [|y l IH] using rev_ind;
      [by apply elem_of_nil in Hx|].
    rewrite length_app. simpl.
    destruct (decide (y = x)) as [->|Hne].
    - exists (length l). split; [lia|]. split.
      + by rewrite lookup_app_r, Nat.sub_diag by lia.
      + intros j Hj. lia.
    - apply elem_of_app in Hx as [Hx|Hx%list_elem_of_singleton]; [|done].
      destruct (IH Hx) as (i & Hi & Hl & Hlast).
      exists i. split; [lia|]. split; [by rewrite lookup_app_l by lia|].
      intros j Hj. destruct (decide (j = length l)) as [->|].
      + rewrite lookup_app_r, Nat.sub_diag by lia. simpl. congruence.
      + rewrite lookup_app_l by lia. apply Hlast. lia. }
  exists i. split; [|done]. apply Hspec. left.
  split; [lia|]. split; [done|]. intros j Hj. apply Hlast. lia.
Qed.

Lemma lbmap_inj t x y i :
  consistent t → lbmap t !! x = Some i → lbmap t !! y = Some i → x = y.
Proof.
  intros (_ & _ & _ & Hmap) Hx Hy.
  apply (mapLabelBond_loop_seq _ _ _ _ _ Hmap) in Hx, Hy.
  destruct Hx as [(_ & Hx & _)|[Hx _]]; [|by rewrite lookup_empty in Hx].
  destruct Hy as [(_ & Hy & _)|[Hy _]]; [|by rewrite lookup_empty in Hy].
  congruence.
Qed.

(** X10: a tensor on which a label is repeated, which [setLabel] lets
    happen, cannot be permuted: whatever the new labels, [permute] ends
    in the [AssertionError] of its check or in the [ValueError] numpy
    raises on a repeated axis. *)
Theorem permute_repeated_labels t lab k :
  consistent t → ¬ NoDup (label t) →
  permute t lab k = Raise AssertionError ∨ permute t lab k = Raise ValueError.
Proof.
  intros Hc Hdup. unfold permute.
  destruct (bool_decide (length lab = length (label t))) eqn:Hlen;
    [|by left].
  destruct (same_set lab (label t)) eqn:Hset; [|by left].
  right. simpl.
  apply bool_decide_eq_true in Hlen.
  unfold same_set in Hset. apply bool_decide_eq_true in Hset.
  pose proof Hc as (Hst & Hbn & Hll & Hmap).
  destruct (mapR_total
    (λ i, x ← py_index lab i; py_getitem (lbmap t) x) (xrange (bn t)))
    as [axes Haxes].
  { apply Forall_forall. intros i [_ Hi]%elem_of_seq.
    destruct (lookup_lt_is_Some_2 lab i) as [x Hx]; [lia|].
    destruct (lbmap_label t x Hc) as (j & Hj & _).
    { apply (elem_of_list_to_set (C:=gset Z)). rewrite <- Hset.
      apply elem_of_list_to_set. by eapply list_elem_of_lookup_2. }
    exists j. unfold py_index, py_getitem. rewrite Hx. simpl. by rewrite Hj. }
  rewrite Haxes. simpl. unfold transpose.
  destruct (decide (length axes = ndim (arr t) ∧ NoDup axes)) as [[_ Hnd]|];
    [|done].
  exfalso. apply Hdup.
  apply mapR_Ok in Haxes.
  assert (NoDup lab) as Hndl.
  { apply NoDup_alt. intros i j x Hi Hj.
    assert (∀ i, lab !! i = Some x → ∃ a, axes !! i = Some a ∧
                                          lbmap t !! x = Some a) as Hax.
    { intros i' Hi'.
      assert (xrange (bn t) !! i' = Some i') as Hseq.
      { apply lookup_seq. split; [done|]. apply lookup_lt_Some in Hi'. lia. }
      destruct (Forall2_lookup_l _ _ _ _ _ Haxes Hseq) as (a & Ha & Hf).
      exists a. split; [done|].
      unfold py_index, py_getitem in Hf. rewrite Hi' in Hf. simpl in Hf.
      by destruct (lbmap t !! x) as [a'|]; [injection Hf as -> |]. }
    destruct (Hax i Hi) as (a & Ha & Hm). destruct (Hax j Hj) as (a' & Ha' & Hm').
    rewrite Hm in Hm'. injection Hm' as <-.
    by eapply NoDup_lookup. }
  assert (label t ≡ₚ lab) as ->; [|done].
  symmetry. apply submseteq_length_Permutation; [|lia].
  apply NoDup_submseteq; [done|].
  intros x Hx. apply (elem_of_list_to_set (C:=gset Z)).
  rewrite <- Hset. by apply elem_of_list_to_set.
Qed.

(** X11: [permute] moves no element away from its labels: what the
    tensor holds at the coordinates given to its labels, the permuted
    tensor holds at the same coordinates of the same labels; it is a view
    of the same buffer. *)
Theorem permute_at_labels t lab k t' :
  consistent t → NoDup (label t) →
  permute t lab k = Ok t' →
  buf (arr t') = buf (arr t) ∧
  ∀ f x, at_labels t f = Some x → at_labels t' f = Some x.
Proof.
  intros Hc Hnd Hp.
  assert (lab ≡ₚ label t) as Hperm.
  { by eapply permute_Ok_perm. }
  destruct (permute_spec t lab k Hc Hnd Hperm)
    as (axes & sh & st & m & [Hla Hpos] & Hsh & Hst & Hm & Heq & Htr).
  rewrite Heq in Hp. injection Hp as <-. split; [done|].
  intros f x Hx. unfold at_labels in *. simpl.
  apply (get_transpose _ _ _ _ _ (proj1 Hc) Htr) in Hx.
  replace (f <$> lab) with (gatherD axes (f <$> label t)); [done|].
  unfold gatherD. apply list_eq_same_length with (length lab).
  - by rewrite length_fmap.
  - by rewrite length_fmap.
  - intros i a b Hi Ha Hb.
    rewrite list_lookup_fmap in Ha. rewrite list_lookup_fmap in Hb.
    destruct (lab !! i) as [y|] eqn:Hy; [|done].
    destruct (Hpos i y Hy) as (j & Hj & Hl).
    rewrite Hj in Ha. simpl in Ha, Hb.
    rewrite list_lookup_fmap, Hl in Ha. simpl in Ha. congruence.
Qed.

(** Gathering along two position lists, one after the other, is
    gathering along the positions of the last list in the first. *)
Lemma gather_compose {A B} (l0 l1 l2 : list A) axes1 axes2 axes3
    (xs ys zs ws : list B) :
  NoDup l0 →
  pos_of l1 l0 axes1 → pos_of l2 l1 axes2 → pos_of l2 l0 axes3 →
  gather xs axes1 = Some ys → gather ys axes2 = Some zs →
  gather xs axes3 = Some ws → zs = ws.
Proof.
  intros Hnd [Hlen1 H1] [Hlen2 H2] [Hlen3 H3] Hys Hzs Hws.
  destruct (gather_lookup _ _ _ Hys) as [Hlys Hy].
  destruct (gather_lookup _ _ _ Hzs) as [Hlzs Hz].
  destruct (gather_lookup _ _ _ Hws) as [Hlws Hw].
  apply list_eq_same_length with (length l2); [lia | lia |].
  intros i z w Hi Hzi Hwi.
  destruct (lookup_lt_is_Some_2 l2 i Hi) as [v Hv].
  destruct (H2 i v Hv) as (j & Hj & Hl1).
  destruct (H1 j v Hl1) as (a & Ha & Hl0).
  destruct (H3 i v Hv) as (a' & Ha' & Hl0').
  assert (a' = a) as -> by by eapply NoDup_lookup.
  destruct (Hz i j Hj) as [Hzy _]. destruct (Hy j a Ha) as [Hyx _].
  destruct (Hw i a Ha') as [Hwx _]. congruence.
Qed.

(** X12: two permutes in a row are one: permuting to [l1] and then to
    [l2] gives, bit for bit, what permuting to [l2] at once gives, with
    the incoming bond count the second call ends with. *)
Theorem permute_permute t l1 k1 l2 k2 t1 :
  consistent t → NoDup (label t) → l2 ≡ₚ label t →
  permute t l1 k1 = Ok t1 →
  permute t1 l2 k2 =
    permute t l2 (if bool_decide (0 ≤ k2) then k2 else Z.of_nat (ibn t1)).
Proof.
  intros Hc Hnd Hp2 H1.
  assert (l1 ≡ₚ label t) as Hp1.
  { by eapply permute_Ok_perm. }
  destruct (permute_consistent t l1 k1 t1 Hc Hnd Hp1 H1)
    as (Hc1 & Hl1 & Hbn1 & _ & _).
  destruct (permute_spec t l1 k1 Hc Hnd Hp1)
    as (axes1 & sh1 & st1 & m1 & Hpos1 & Hsh1 & Hst1 & _ & Heq1 & _).
  rewrite Heq1 in H1.
  assert (NoDup (label t1)) as Hnd1 by (by rewrite Hl1, Hp1).
  assert (l2 ≡ₚ label t1) as Hp21 by (by rewrite Hl1, Hp1).
  remember (ibn t1) as n1 eqn:Hn1.
  destruct (permute_spec t1 l2 k2 Hc1 Hnd1 Hp21)
    as (axes2 & sh2 & st2 & m2 & Hpos2 & Hsh2 & Hst2 & Hm2 & Heq2 & _).
  destruct (permute_spec t l2
              (if bool_decide (0 ≤ k2) then k2 else Z.of_nat n1)
              Hc Hnd Hp2)
    as (axes3 & sh3 & st3 & m3 & Hpos3 & Hsh3 & Hst3 & Hm3 & Heq3 & _).
  rewrite Heq2, Heq3. rewrite Hbn1 in Hm2. rewrite Hm2 in Hm3.
  injection Hm3 as <-. rewrite Hl1 in Hpos2.
  injection H1 as <-. simpl in *.
  rewrite (gather_compose _ _ _ _ _ _ _ _ _ _ Hnd Hpos1 Hpos2 Hpos3
             Hsh1 Hsh2 Hsh3).
  rewrite (gather_compose _ _ _ _ _ _ _ _ _ _ Hnd Hpos1 Hpos2 Hpos3
             Hst1 Hst2 Hst3).
  do 2 f_equal. rewrite <- Hn1. destruct (bool_decide (0 ≤ k2)) eqn:Hk2.
  - by rewrite Hk2.
  - rewrite bool_decide_true by lia. by rewrite Nat2Z.id.
Qed.

End Permute2.

(** ** What [contractNPT] computes *)

Lemma gatherD_fmap {A} (g : A → nat) (l l' : list A) axes :
  gather l axes = Some l' → gatherD axes (g <$> l) = g <$> l'.
Proof.
  intros Hg. destruct (gather_lookup _ _ _ Hg) as [Hlen Hl].
  unfold gatherD. apply list_eq_same_length with (length axes).
  - by rewrite length_fmap.
  - by rewrite length_fmap.
  - intros i x y Hi Hx Hy.
    rewrite list_lookup_fmap in Hx. rewrite list_lookup_fmap in Hy.
    destruct (axes !! i) as [a|] eqn:Ha; [|done].
    destruct (Hl i a Ha) as [Hla _]. rewrite Hla in Hy.
    simpl in Hx. rewrite list_lookup_fmap in Hx.
    destruct (l !! a); simpl in *; congruence.
Qed.

Lemma gatherD_app axes1 axes2 idx :
  gatherD (axes1 ++ axes2) idx = gatherD axes1 idx ++ gatherD axes2 idx.
Proof. unfold gatherD. by rewrite fmap_app. Qed.

(** An index is inside a shape when its rearrangement is inside the
    rearranged shape. *)
Lemma in_shape_gatherD_inv idx sh axes sh' :
  is_perm axes (length sh) → length idx = length sh →
  gather sh axes = Some sh' → in_shape (gatherD axes idx) sh' →
  in_shape idx sh.
Proof.
  intros Hp Hlen Hsh Hin. unfold in_shape in *.
  destruct (gather_lookup _ _ _ Hsh) as [_ Hl].
  apply Forall2_same_length_lookup. split; [done|].
  intros k v s Hv Hs.
  destruct (is_perm_surj axes (length sh) k Hp) as [m Hm].
  { by eapply lookup_lt_Some. }
  destruct (Hl m k Hm) as [Hs' _]. rewrite Hs in Hs'.
  assert (gatherD axes idx !! m = Some v) as Hg.
  { unfold gatherD. rewrite list_lookup_fmap, Hm. simpl. by rewrite Hv. }
  exact (Forall2_lookup_lr _ _ _ _ _ _ Hin Hg Hs').
Qed.

Lemma override_notin f xs c x : x ∉ xs → override f xs c x = f x.
Proof.
  intros Hx. unfold override.
  destruct (list_find (x =.) xs) as [[i y]|] eqn:Hf; [|done].
  apply list_find_Some in Hf as (Hi & -> & _).
  exfalso. apply Hx. by eapply list_elem_of_lookup_2.
Qed.

Lemma override_lookup f xs c i x :
  NoDup xs → xs !! i = Some x → override f xs c x = default 0%nat (c !! i).
Proof.
  intros Hnd Hi. unfold override.
  destruct (list_find (x =.) xs) as [[j y]|] eqn:Hf.
  - apply list_find_Some in Hf as (Hj & <- & _).
    by rewrite (NoDup_lookup _ _ _ _ Hnd Hi Hj).
  - apply list_find_None in Hf. rewrite Forall_forall in Hf.
    exfalso. apply (Hf x); [by eapply list_elem_of_lookup_2 | done].
Qed.

Lemma override_fmap f xs c :
  NoDup xs → length c = length xs → override f xs c <$> xs = c.
Proof.
  intros Hnd Hlen. apply list_eq_same_length with (length xs).
  - done.
  - by rewrite length_fmap.
  - intros i a b Hi Ha Hb. rewrite list_lookup_fmap in Ha.
    destruct (xs !! i) as [x|] eqn:Hx; [|done]. simpl in Ha.
    rewrite (override_lookup f xs c i x Hnd Hx), Hb in Ha. simpl in Ha.
    congruence.
Qed.

(** The coordinates of a tensor, with the free labels read from [f] and
    the common labels set to [c], seen through the axes [tensordot]
    rearranges to. *)
Lemma coords_split (common lab : list Z) idx (f : Z → nat) c :
  NoDup lab → NoDup common → pos_of common lab idx →
  length c = length common →
  gatherD (notin (length lab) idx) (override f common c <$> lab)
    = f <$> filter (λ x, x ∉ common) lab ∧
  gatherD idx (override f common c <$> lab) = c.
Proof.
  intros Hnd Hndc Hpos Hlen. split.
  - assert (gather lab (notin (length lab) idx)
              = Some (filter (λ x, x ∉ common) lab)) as Hg.
    { apply filter_positions. intros k x Hk.
      by rewrite (pos_of_elem common lab idx k x Hnd Hpos Hk). }
    rewrite (gatherD_fmap _ _ _ _ Hg).
    apply list_fmap_ext. intros i x Hx.
    apply override_notin.
    by apply list_elem_of_lookup_2, list_elem_of_filter in Hx as [Hx _].
  - assert (gather lab idx = Some common) as Hg.
    { apply gather_fmap. destruct Hpos as [Hl Hp].
      apply list_eq_same_length with (length common).
      - by rewrite length_fmap.
      - rewrite length_fmap. lia.
      - intros i a b Hi Ha Hb. rewrite list_lookup_fmap in Ha.
        rewrite list_lookup_fmap in Hb.
        destruct (common !! i) as [x|] eqn:Hx; [|done].
        destruct (Hp i x Hx) as (j & Hj & Hlx).
        rewrite Hj in Ha. simpl in *. congruence. }
    rewrite (gatherD_fmap _ _ _ _ Hg). by apply override_fmap.
Qed.

Section Einsum.
Context {E : Type} (dot : list E → list E → E).
Implicit Types a b : ndarray E.
Implicit Types t : NPTensor E.

(** The elements of [tensordot]: at the free index [fa ++ fb] the inner
    product of the values of [a] along the summed axes with those of
    [b]. *)
Lemma tensordot_elements a b axes_a axes_b inner :
  valid a → valid b → NoDup axes_a → NoDup axes_b →
  gather (shape a) axes_a = Some inner →
  gather (shape b) axes_b = Some inner →
  ∃ d olda oldb at_ bt,
    tensordot dot a b axes_a axes_b = Ok d ∧
    gather (shape a) (notin (ndim a) axes_a) = Some olda ∧
    gather (shape b) (notin (ndim b) axes_b) = Some oldb ∧
    shape d = olda ++ oldb ∧ valid d ∧
    transpose a (notin (ndim a) axes_a ++ axes_a) = Ok at_ ∧
    transpose b (axes_b ++ notin (ndim b) axes_b) = Ok bt ∧
    ∀ fa fb va vb, in_shape fa olda → in_shape fb oldb →
      Forall2 (λ c v, get at_ (fa ++ c) = Some v) (indices inner) va →
      Forall2 (λ c v, get bt (c ++ fb) = Some v) (indices inner) vb →
      get d (fa ++ fb) = Some (dot va vb).
Proof.
  intros Hva Hvb Hnda Hndb Hia Hib.
  pose proof (gather_bound _ _ _ Hia) as Hba.
  pose proof (gather_bound _ _ _ Hib) as Hbb.
  destruct (gather_lookup _ _ _ Hia) as [Hla _].
  destruct (gather_lookup _ _ _ Hib) as [Hlb _].
  destruct (gather_total (shape a) (notin (ndim a) axes_a)) as [olda Holda];
    [apply notin_bound|].
  destruct (gather_total (shape b) (notin (ndim b) axes_b)) as [oldb Holdb];
    [apply notin_bound|].
  destruct (gather_lookup _ _ _ Holda) as [Hloa _].
  destruct (gather_lookup _ _ _ Holdb) as [Hlob _].
  destruct (is_perm_notin (ndim a) axes_a Hnda Hba) as [Hpa _].
  destruct (is_perm_notin (ndim b) axes_b Hndb Hbb) as [_ Hpb].
  destruct (transpose_is_perm a _ (proj1 Hva) Hpa) as (sha & sta & Hsha & _ & Hta).
  destruct (transpose_is_perm b _ (proj1 Hvb) Hpb) as (shb & stb & Hshb & _ & Htb).
  rewrite (gather_app _ _ _ _ _ Holda Hia) in Hsha. injection Hsha as <-.
  rewrite (gather_app _ _ _ _ _ Hib Holdb) in Hshb. injection Hshb as <-.
  pose proof (valid_transpose _ _ _ Hva Hta) as Hvat.
  pose proof (valid_transpose _ _ _ Hvb Htb) as Hvbt.
  unfold tensordot.
  rewrite decide_True by lia.
  rewrite (shape_match_gather _ _ _ _ _ Hia Hib). simpl.
  rewrite Hta, Htb. simpl.
  rewrite <- Hloa, take_app_length, drop_app_length.
  replace (length axes_b) with (length inner) by lia.
  rewrite drop_app_length.
  set (at_ := mk_ndarray (buf a) _ _ _) in *.
  set (bt := mk_ndarray (buf b) _ _ _) in *.
  set (cell := λ fa fb,
    va ← mapR (λ c, getR at_ (fa ++ c)) (indices inner);
    vb ← mapR (λ c, getR bt (c ++ fb)) (indices inner);
    Ok (dot va vb)).
  change (mapR _ (indices olda))
    with (mapR (λ fa, mapR (cell fa) (indices oldb)) (indices olda)).
  destruct (mapR_total (λ fa, mapR (cell fa) (indices oldb)) (indices olda))
    as [res Hres].
  { apply Forall_forall. intros fa Hfa%elem_of_indices. apply mapR_total.
    apply Forall_forall. intros fb Hfb%elem_of_indices.
    destruct (mapR_total (λ c, getR at_ (fa ++ c)) (indices inner)) as [va Hva'].
    { apply Forall_forall. intros c Hc%elem_of_indices.
      destruct (getR_valid at_ (fa ++ c) Hvat) as (x & Hx & _); [|by exists x].
      by apply Forall2_app. }
    destruct (mapR_total (λ c, getR bt (c ++ fb)) (indices inner)) as [vb Hvb'].
    { apply Forall_forall. intros c Hc%elem_of_indices.
      destruct (getR_valid bt (c ++ fb) Hvbt) as (x & Hx & _); [|by exists x].
      by apply Forall2_app. }
    exists (dot va vb). unfold cell. rewrite Hva'. simpl. by rewrite Hvb'. }
  rewrite Hres. simpl.
  set (P := λ (idx : list nat) (v : E),
    ∀ fa fb, idx = fa ++ fb → length fa = length olda → cell fa fb = Ok v).
  assert (Forall2 P (indices (olda ++ oldb)) (concat res)) as HP.
  { rewrite indices_app. apply Forall2_bind_concat.
    apply mapR_Ok in Hres. eapply Forall2_impl_elem; [exact Hres|].
    intros fa row Hfa Hrow%mapR_Ok.
    apply Forall2_fmap_l. eapply Forall2_impl_elem; [exact Hrow|].
    intros fb v Hfb Hv. change (cell fa fb = Ok v) in Hv.
    intros fa' fb' Heq Hlen.
    apply app_inj_1 in Heq as [<- <-]; [done|].
    apply elem_of_indices, in_shape_length in Hfa. lia. }
  exists (mk_ndarray (concat res) (olda ++ oldb) (c_strides (olda ++ oldb))
            (cplx a || cplx b)), olda, oldb, at_, bt.
  split; [done|]. split; [done|]. split; [done|]. split; [done|].
  split; [|split; [done|split; [done|]]].
  - apply valid_c_contiguous.
    by rewrite <- (Forall2_length _ _ _ HP), length_indices.
  - intros fa fb va vb Hfa Hfb Hva' Hvb'.
    destruct (get_c_contiguous P _ _ (cplx a || cplx b) (fa ++ fb) HP)
      as (v & Hv & HPv).
    { by apply Forall2_app. }
    rewrite Hv. f_equal.
    specialize (HPv fa fb eq_refl (in_shape_length _ _ Hfa)).
    unfold cell in HPv.
    assert (mapR (λ c, getR at_ (fa ++ c)) (indices inner) = Ok va) as Hma.
    { apply mapR_Ok. eapply Forall2_impl; [exact Hva'|].
      intros c x Hx. unfold getR. by rewrite Hx. }
    assert (mapR (λ c, getR bt (c ++ fb)) (indices inner) = Ok vb) as Hmb.
    { apply mapR_Ok. eapply Forall2_impl; [exact Hvb'|].
      intros c x Hx. unfold getR. by rewrite Hx. }
    rewrite Hma in HPv. simpl in HPv. rewrite Hmb in HPv. simpl in HPv.
    congruence.
Qed.

End Einsum.

Section Contract2.
Context {E : Type} (dot : list E → list E → E).
Implicit Types t : NPTensor E.

Lemma consistent_set_ibn t k : consistent t → consistent (set_ibn t k).
Proof. by intros (? & ? & ? & ?). Qed.

Lemma consistent_ndim t : consistent t → ndim (arr t) = length (label t).
Proof. intros (_ & Hbn & Hlen & _). lia. Qed.

Lemma mapM_total {A B} (g : A → option B) (l : list A) :
  (∀ x, x ∈ l → is_Some (g x)) →
  ∃ k, Forall2 (λ x y, g x = Some y) l k.
Proof.
  intros H.
  destruct (mapM_is_Some_2 g l) as [k Hk]; [by apply Forall_forall|].
  exists k. by apply mapM_Some_1.
Qed.

(** The branch of [contractNPT] for tensors with common labels of equal
    dimensions, with all it gives. *)
Lemma contractNPT_shared_full t1 t2 :
  consistent t1 → consistent t2 → valid (arr t1) → valid (arr t2) →
  NoDup (label t1) → NoDup (label t2) →
  (∃ x, x ∈ label t1 ∧ x ∈ label t2) →
  (∀ x, x ∈ label t1 → x ∈ label t2 → dim_of t1 x = dim_of t2 x) →
  let common := elements (list_to_set (label t1) ∩ list_to_set (label t2)
                          : gset Z) in
  ∃ r dims, contractNPT dot t1 t2 = Ok r ∧
    label r = filter (λ x, x ∉ label t2) (label t1) ++
              filter (λ x, x ∉ label t1) (label t2) ∧
    bn r = length (label r) ∧
    ibn r = length (filter (λ x, x ∉ label t2) (label t1)) ∧
    consistent r ∧ valid (arr r) ∧
    Forall2 (λ x d, dim_of t1 x = Some d ∧ dim_of t2 x = Some d) common dims ∧
    ∀ f, in_shape (f <$> label r) (shape (arr r)) →
      ∃ va vb, at_labels r f = Some (dot va vb) ∧
        Forall2 (λ c v, at_labels t1 (override f common c) = Some v)
                (indices dims) va ∧
        Forall2 (λ c v, at_labels t2 (override f common c) = Some v)
                (indices dims) vb.
Proof.
  intros Hc1 Hc2 Hv1 Hv2 Hnd1 Hnd2 (x0 & Hx1 & Hx2) Hdim common.
  destruct (shared_axes t1 t2 Hc1 Hc2 Hnd1 Hnd2)
    as (idx1 & idx2 & d1 & d2 & Hi1 & Hi2 & Hp1 & Hp2 & Hd1 & Hd2 & Heq).
  apply Heq in Hdim as <-. clear Heq.
  fold common in Hi1, Hi2, Hp1, Hp2.
  assert (NoDup common) as Hndc by apply NoDup_elements.
  assert (0 < length common)%nat as Hpos.
  { assert (x0 ∈ common) as [m Hm%lookup_lt_Some]%list_elem_of_lookup
      by by apply elem_of_shared. lia. }
  pose proof (pos_of_NoDup _ _ _ Hndc Hp1) as Hndi1.
  pose proof (pos_of_NoDup _ _ _ Hndc Hp2) as Hndi2.
  destruct (tensordot_elements dot (arr t1) (arr t2) idx1 idx2 d1 Hv1 Hv2
              Hndi1 Hndi2 Hd1 Hd2)
    as (d & olda & oldb & at_ & bt & Hd & Holda & Holdb & Hshd & Hvd &
        Hta & Htb & Helem).
  pose proof (consistent_ndim _ Hc1) as Hn1.
  pose proof (consistent_ndim _ Hc2) as Hn2.
  rewrite Hn1 in Holda, Hta. rewrite Hn2 in Holdb, Htb.
  set (F1 := filter (λ x, x ∉ common) (label t1)).
  set (F2 := filter (λ x, x ∉ common) (label t2)).
  assert (length F1 = length olda) as HlF1.
  { unfold F1. rewrite (free_labels common (label t1) idx1 Hnd1 Hp1).
    by destruct (gather_lookup _ _ _ Holda) as [-> _]. }
  assert (length F2 = length oldb) as HlF2.
  { unfold F2. rewrite (free_labels common (label t2) idx2 Hnd2 Hp2).
    by destruct (gather_lookup _ _ _ Holdb) as [-> _]. }
  assert (F1 = filter (λ x, x ∉ label t2) (label t1)) as HF1.
  { apply filter_ext_elem. intros x Hx. unfold common.
    rewrite elem_of_shared. tauto. }
  assert (F2 = filter (λ x, x ∉ label t1) (label t2)) as HF2.
  { apply filter_ext_elem. intros x Hx. unfold common.
    rewrite elem_of_shared. tauto. }
  destruct (NPTensor_new_PyArr d (proj1 Hvd))
    as (npt0 & Hnew & Harr0 & Hlab0 & Hbn0 & Hibn0 & Hc0).
  destruct (setLabel_cases npt0 (F1 ++ F2) Hc0) as ([_ Hset] & _ & Hset').
  destruct Hset as [npt1 Hnpt1].
  { unfold bondNum_of, ndim. rewrite Harr0, Hshd, !length_app. lia. }
  destruct (Hset' npt1 Hnpt1) as (Hlab1 & Harr1 & Hbn1 & _ & Hcn1).
  assert (length common = length idx1) as Hlci by (symmetry; apply Hp1).
  assert (length (label t1) - length common = length F1)%nat as Hibn.
  { pose proof (notin_Permutation (length (label t1)) idx1 Hndi1) as Hperm.
    destruct (gather_lookup _ _ _ Holda) as [Hlo _].
    rewrite HlF1, Hlo.
    assert (length (notin (length (label t1)) idx1 ++ idx1)
            = length (label t1)) as Hl.
    { rewrite Hperm; [by rewrite length_seq|].
      rewrite <- Hn1. by eapply gather_bound. }
    rewrite length_app in Hl. lia. }
  exists (set_ibn npt1 (length (label t1) - length common)), d1.
  split.
  { unfold contractNPT. fold common. rewrite decide_True by done.
    rewrite Hi1, Hi2. simpl. rewrite Hd. simpl.
    change (mapLabelBond d _ _ _) with (NPTensor_new (PyArr d)).
    rewrite Hnew. simpl. rewrite filter_app. fold F1 F2.
    by rewrite Hnpt1. }
  simpl. rewrite Hlab1, Harr1, Harr0, <- HF1, <- HF2.
  split; [done|]. split.
  { rewrite Hbn1, Hbn0. unfold ndim. rewrite Hshd, !length_app. lia. }
  split; [done|]. split; [by apply consistent_set_ibn|]. split; [done|].
  assert (∀ m x, common !! m = Some x →
            d1 !! m = dim_of t1 x ∧ d1 !! m = dim_of t2 x) as Hdims.
  { intros m x Hm. split.
    - by apply (gather_dim_of t1 common idx1).
    - by apply (gather_dim_of t2 common idx2). }
  assert (length d1 = length common) as Hld.
  { destruct (gather_lookup _ _ _ Hd1) as [-> _]. lia. }
  split.
  { apply Forall2_same_length_lookup. split; [done|].
    intros m x dm Hx Hdm. destruct (Hdims m x Hx) as [<- <-]. done. }
  intros f Hin. rewrite fmap_app, Hshd in Hin.
  apply Forall2_app_inv in Hin as [Hfa Hfb];
    [|by rewrite length_fmap].
  destruct (is_perm_notin (length (label t1)) idx1 Hndi1) as [Hpa _].
  { rewrite <- Hn1. by eapply gather_bound. }
  destruct (is_perm_notin (length (label t2)) idx2 Hndi2) as [_ Hpb].
  { rewrite <- Hn2. by eapply gather_bound. }
  assert (∀ c, c ∈ indices d1 →
            ∃ v, at_labels t1 (override f common c) = Some v ∧
                 get at_ ((f <$> F1) ++ c) = Some v) as Hcell1.
  { intros c Hc%elem_of_indices.
    destruct (coords_split common (label t1) idx1 f c Hnd1 Hndc Hp1)
      as [Hg1 Hg2].
    { apply in_shape_length in Hc. lia. }
    set (ia := override f common c <$> label t1) in *.
    assert (gatherD (notin (length (label t1)) idx1 ++ idx1) ia
            = (f <$> F1) ++ c) as Hgd.
    { by rewrite gatherD_app, Hg1, Hg2. }
    assert (in_shape ia (shape (arr t1))) as Hia.
    { apply (in_shape_gatherD_inv ia (shape (arr t1))
               (notin (length (label t1)) idx1 ++ idx1) (olda ++ d1)).
      - unfold ndim in Hn1. by rewrite Hn1.
      - unfold ia. rewrite length_fmap. unfold ndim in Hn1. lia.
      - by apply gather_app.
      - rewrite Hgd. by apply Forall2_app. }
    destruct (getR_valid (arr t1) ia Hv1 Hia) as (v & _ & Hv).
    exists v. split; [done|]. rewrite <- Hgd.
    by apply (get_transpose _ _ _ _ _ (proj1 Hv1) Hta). }
  assert (∀ c, c ∈ indices d1 →
            ∃ v, at_labels t2 (override f common c) = Some v ∧
                 get bt (c ++ (f <$> F2)) = Some v) as Hcell2.
  { intros c Hc%elem_of_indices.
    destruct (coords_split common (label t2) idx2 f c Hnd2 Hndc Hp2)
      as [Hg1 Hg2].
    { apply in_shape_length in Hc. lia. }
    set (ib := override f common c <$> label t2) in *.
    assert (gatherD (idx2 ++ notin (length (label t2)) idx2) ib
            = c ++ (f <$> F2)) as Hgd.
    { by rewrite gatherD_app, Hg1, Hg2. }
    assert (in_shape ib (shape (arr t2))) as Hib.
    { apply (in_shape_gatherD_inv ib (shape (arr t2))
               (idx2 ++ notin (length (label t2)) idx2) (d1 ++ oldb)).
      - unfold ndim in Hn2. by rewrite Hn2.
      - unfold ib. rewrite length_fmap. unfold ndim in Hn2. lia.
      - by apply gather_app.
      - rewrite Hgd. by apply Forall2_app. }
    destruct (getR_valid (arr t2) ib Hv2 Hib) as (v & _ & Hv).
    exists v. split; [done|]. rewrite <- Hgd.
    by apply (get_transpose _ _ _ _ _ (proj1 Hv2) Htb). }
  destruct (mapM_total (λ c, at_labels t1 (override f common c)) (indices d1))
    as [va Hva].
  { intros c Hc. destruct (Hcell1 c Hc) as (v & Hv & _). by exists v. }
  destruct (mapM_total (λ c, at_labels t2 (override f common c)) (indices d1))
    as [vb Hvb].
  { intros c Hc. destruct (Hcell2 c Hc) as (v & Hv & _). by exists v. }
  exists va, vb. split; [|by split].
  unfold at_labels at 1. simpl. rewrite Hlab1, Harr1, Harr0, fmap_app.
  apply Helem; try done.
  - eapply Forall2_impl_elem; [exact Hva|]. intros c v Hc Hv.
    destruct (Hcell1 c Hc) as (v' & Hv' & Hg). simpl in Hv. congruence.
  - eapply Forall2_impl_elem; [exact Hvb|]. intros c v Hc Hv.
    destruct (Hcell2 c Hc) as (v' & Hv' & Hg). simpl in Hv. congruence.
Qed.

End Contract2.

Section Contract3.
Context {E : Type} (dot : list E → list E → E).
Implicit Types t : NPTensor E.

Lemma mapR_py_index_bound {A} (l l' : list A) n :
  mapR (py_index l) (xrange n) = Ok l' → (n ≤ length l)%nat.
Proof.
  intros H%mapR_Ok. destruct (decide (n ≤ length l)%nat) as [|Hgt]; [done|].
  assert (xrange n !! length l = Some (length l)) as Hseq.
  { apply lookup_seq. split; [done | lia]. }
  destruct (Forall2_lookup_l _ _ _ _ _ H Hseq) as (y & _ & Hy).
  unfold py_index in Hy. by rewrite lookup_ge_None_2 in Hy.
Qed.

Lemma in_shape_regroup a b (i j s1 s2 : list nat) :
  length i = length s1 → length j = length s2 →
  in_shape (take a i ++ take b j ++ drop a i ++ drop b j)
           (take a s1 ++ take b s2 ++ drop a s1 ++ drop b s2) →
  in_shape i s1 ∧ in_shape j s2.
Proof.
  intros Hi Hj. unfold in_shape.
  intros [H1 [H2 [H3 H4]%Forall2_app_inv]%Forall2_app_inv]%Forall2_app_inv;
    rewrite ?length_take, ?length_drop; try lia.
  rewrite <- (take_drop a i), <- (take_drop a s1).
  rewrite <- (take_drop b j), <- (take_drop b s2).
  split; by apply Forall2_app.
Qed.

(** The branch of [contractNPT] for tensors without a common label, with
    all it gives. *)
Lemma contractNPT_outer_full t1 t2 :
  consistent t1 → consistent t2 → valid (arr t1) → valid (arr t2) →
  NoDup (label t1) → NoDup (label t2) →
  (ibn t1 ≤ bn t1)%nat → (ibn t2 ≤ bn t2)%nat →
  (∀ x, x ∈ label t1 → x ∉ label t2) →
  ∃ r, contractNPT dot t1 t2 = Ok r ∧
    label r = take (ibn t1) (label t1) ++ take (ibn t2) (label t2) ++
              drop (ibn t1) (label t1) ++ drop (ibn t2) (label t2) ∧
    bn r = length (label r) ∧
    consistent r ∧ valid (arr r) ∧
    ∀ f, in_shape (f <$> label r) (shape (arr r)) →
      ∃ x y, at_labels t1 f = Some x ∧ at_labels t2 f = Some y ∧
             at_labels r f = Some (dot [x] [y]).
Proof.
  intros Hc1 Hc2 Hv1 Hv2 Hnd1 Hnd2 Hi1 Hi2 Hdisj.
  destruct (contractNPT_outer dot t1 t2 Hc1 Hc2 Hv1 Hv2 Hnd1 Hnd2 Hi1 Hi2 Hdisj)
    as (r & Hr & Hlab & Hibn & Hbn & Hsh & Hget).
  exists r. split; [done|]. split; [done|].
  pose proof Hc1 as (_ & Hbn1 & Hlen1 & _).
  pose proof Hc2 as (_ & Hbn2 & Hlen2 & _).
  assert (label r ≡ₚ label t1 ++ label t2) as Hperm.
  { rewrite Hlab, <- in_out_order_app. apply in_out_order_Permutation. }
  split.
  { rewrite Hbn, Hperm, length_app. lia. }
  assert (consistent r ∧ valid (arr r)) as [Hcr Hvr].
  { pose proof Hr as Hr'. unfold contractNPT in Hr'.
    rewrite (lab_common_disjoint _ _ Hdisj) in Hr'.
    rewrite decide_False in Hr' by (simpl; lia).
    rewrite filter_notin_nil in Hr'.
    apply rbind_Ok in Hr' as (d & Hd & Hr').
    apply rbind_Ok in Hr' as (npt0 & Hnew & Hr').
    apply rbind_Ok in Hr' as (npt1 & Hnpt1 & Hr').
    apply rbind_Ok in Hr' as (l1i & _ & Hr').
    apply rbind_Ok in Hr' as (l2i & _ & Hr').
    apply rbind_Ok in Hr' as (l1o & _ & Hr').
    apply rbind_Ok in Hr' as (l2o & _ & Hr').
    destruct (tensordot_outer dot _ _ Hv1 Hv2) as (d' & Hd' & _ & Hvd & _).
    rewrite Hd' in Hd. injection Hd as ->.
    destruct (NPTensor_new_PyArr d (proj1 Hvd))
      as (npt0' & Hnew' & Harr0 & _ & _ & _ & Hc0).
    change (mapLabelBond d _ _ _) with (NPTensor_new (PyArr d)) in Hnew.
    rewrite Hnew' in Hnew. injection Hnew as ->.
    destruct (setLabel_cases npt0 (label t1 ++ label t2) Hc0)
      as (_ & _ & Hset').
    destruct (Hset' npt1 Hnpt1) as (Hlab1 & Harr1 & _ & _ & Hcn1).
    destruct (permute_inv _ _ _ _ Hr') as (axes & Htr & Hlr & _).
    split.
    - eapply permute_consistent; [exact Hcn1 | | | exact Hr'].
      + rewrite Hlab1. apply NoDup_app. done.
      + by rewrite <- Hlr, Hlab1.
    - eapply valid_transpose; [|exact Htr]. by rewrite Harr1, Harr0. }
  split; [done|]. split; [done|].
  intros f Hin. rewrite Hlab, Hsh in Hin.
  rewrite !fmap_app, !fmap_take, !fmap_drop in Hin.
  apply in_shape_regroup in Hin as [Hin1 Hin2];
    [|rewrite length_fmap; unfold ndim in *; lia
     |rewrite length_fmap; unfold ndim in *; lia].
  destruct (getR_valid (arr t1) _ Hv1 Hin1) as (x & _ & Hx).
  destruct (getR_valid (arr t2) _ Hv2 Hin2) as (y & _ & Hy).
  exists x, y. split; [done|]. split; [done|].
  unfold at_labels. rewrite Hlab.
  rewrite !fmap_app, !fmap_take, !fmap_drop. by apply Hget.
Qed.

(** A contraction that returned went through one of the two branches
    with what the branch needs. *)
Lemma contractNPT_Ok_cases t1 t2 r :
  consistent t1 → consistent t2 → NoDup (label t1) → NoDup (label t2) →
  contractNPT dot t1 t2 = Ok r →
  ((∃ x, x ∈ label t1 ∧ x ∈ label t2) ∧
   (∀ x, x ∈ label t1 → x ∈ label t2 → dim_of t1 x = dim_of t2 x)) ∨
  ((∀ x, x ∈ label t1 → x ∉ label t2) ∧
   (ibn t1 ≤ bn t1)%nat ∧ (ibn t2 ≤ bn t2)%nat).
Proof.
  intros Hc1 Hc2 Hnd1 Hnd2 Hr.
  destruct (decide (Exists (λ x, x ∈ label t2) (label t1))) as [Hsh|Hdisj].
  - left. apply Exists_exists in Hsh as (x0 & Hx1 & Hx2).
    split; [by exists x0|].
    destruct (shared_axes t1 t2 Hc1 Hc2 Hnd1 Hnd2)
      as (idx1 & idx2 & d1 & d2 & Hi1 & Hi2 & Hp1 & Hp2 & Hd1 & Hd2 & Heq).
    apply Heq. destruct (decide (d1 = d2)) as [|Hne]; [done|].
    exfalso. unfold contractNPT in Hr. set (common := elements _) in *.
    assert (0 < length common)%nat as Hpos.
    { assert (x0 ∈ common) as [m Hm%lookup_lt_Some]%list_elem_of_lookup
        by by apply elem_of_shared. lia. }
    rewrite decide_True in Hr by done. rewrite Hi1, Hi2 in Hr. simpl in Hr.
    by rewrite (tensordot_mismatch dot _ _ _ _ d1 d2) in Hr.
  - right.
    assert (∀ x, x ∈ label t1 → x ∉ label t2) as Hd.
    { intros x H1 H2. apply Hdisj, Exists_exists. by exists x. }
    split; [done|].
    unfold contractNPT in Hr.
    rewrite (lab_common_disjoint _ _ Hd) in Hr.
    rewrite decide_False in Hr by (simpl; lia).
    apply rbind_Ok in Hr as (d & _ & Hr).
    apply rbind_Ok in Hr as (npt0 & _ & Hr).
    apply rbind_Ok in Hr as (npt1 & _ & Hr).
    apply rbind_Ok in Hr as (l1i & Hl1 & Hr).
    apply rbind_Ok in Hr as (l2i & Hl2 & _).
    apply mapR_py_index_bound in Hl1, Hl2.
    destruct Hc1 as (_ & _ & Hlen1 & _). destruct Hc2 as (_ & _ & Hlen2 & _).
    lia.
Qed.

Lemma contractNPT_keeps t1 t2 r :
  consistent t1 → consistent t2 → valid (arr t1) → valid (arr t2) →
  NoDup (label t1) → NoDup (label t2) →
  contractNPT dot t1 t2 = Ok r →
  consistent r ∧ valid (arr r) ∧ NoDup (label r) ∧
  bn r = length (label r) ∧
  label r ≡ₚ filter (λ x, x ∉ label t2) (label t1) ++
             filter (λ x, x ∉ label t1) (label t2) ∧
  ((∃ x, x ∈ label t1 ∧ x ∈ label t2) →
     label r = filter (λ x, x ∉ label t2) (label t1) ++
               filter (λ x, x ∉ label t1) (label t2) ∧
     ibn r = length (filter (λ x, x ∉ label t2) (label t1))).
Proof.
  intros Hc1 Hc2 Hv1 Hv2 Hnd1 Hnd2 Hr.
  assert (NoDup (filter (λ x, x ∉ label t2) (label t1) ++
                 filter (λ x, x ∉ label t1) (label t2))) as Hndf.
  { apply NoDup_app. split; [by apply NoDup_filter|].
    split; [|by apply NoDup_filter].
    intros x [H1 _]%list_elem_of_filter [_ H2]%list_elem_of_filter.
    by apply H1. }
  destruct (contractNPT_Ok_cases t1 t2 r Hc1 Hc2 Hnd1 Hnd2 Hr)
    as [[Hsh Hdim]|(Hdisj & Hi1 & Hi2)].
  - destruct (contractNPT_shared_full dot t1 t2 Hc1 Hc2 Hv1 Hv2 Hnd1 Hnd2
                Hsh Hdim)
      as (r' & dims & Hr' & Hlab & Hbn & Hibn & Hcr & Hvr & _).
    rewrite Hr' in Hr. injection Hr as <-.
    split; [done|]. split; [done|]. split; [by rewrite Hlab|].
    split; [done|]. split; [by rewrite Hlab|]. done.
  - destruct (contractNPT_outer_full t1 t2 Hc1 Hc2 Hv1 Hv2 Hnd1 Hnd2
                Hi1 Hi2 Hdisj)
      as (r' & Hr' & Hlab & Hbn & Hcr & Hvr & _).
    rewrite Hr' in Hr. injection Hr as <-.
    assert (label r' ≡ₚ filter (λ x, x ∉ label t2) (label t1) ++
                        filter (λ x, x ∉ label t1) (label t2)) as Hperm.
    { rewrite Hlab.
      rewrite !filter_all; [|intros x H2 H1; by apply (Hdisj x)|done].
      rewrite <- in_out_order_app. apply in_out_order_Permutation. }
    split; [done|]. split; [done|]. split; [by rewrite Hperm|].
    split; [done|]. split; [done|].
    intros (x & H1 & H2). by destruct (Hdisj x H1).
Qed.

(** X13: [contractNPT] hands on what it was handed: from two tensors as
    the constructor, [setLabel] and [permute] leave them, with distinct
    labels each, it returns such a tensor again, whose labels are those
    on one of the two only.  When a label is shared, these are the
    unshared labels of [t1], then those of [t2], and every unshared bond
    of [t1], incoming or not, counts as incoming in the result. *)
Theorem contractNPT_closed t1 t2 r :
  consistent t1 → consistent t2 → valid (arr t1) → valid (arr t2) →
  NoDup (label t1) → NoDup (label t2) →
  contractNPT dot t1 t2 = Ok r →
  consistent r ∧ valid (arr r) ∧ NoDup (label r) ∧
  bn r = length (label r) ∧
  label r ≡ₚ filter (λ x, x ∉ label t2) (label t1) ++
             filter (λ x, x ∉ label t1) (label t2) ∧
  ((∃ x, x ∈ label t1 ∧ x ∈ label t2) →
     label r = filter (λ x, x ∉ label t2) (label t1) ++
               filter (λ x, x ∉ label t1) (label t2) ∧
     ibn r = length (filter (λ x, x ∉ label t2) (label t1))).
Proof. exact (contractNPT_keeps t1 t2 r). Qed.

(** X14: [contractNPT] sums over the shared labels: at any coordinates
    of its labels the result holds the inner product of the values of
    [t1] and of [t2] along all coordinates of the shared labels (taken in
    one order [common], through the dimensions [dims] the two tensors
    agree on), at the same coordinates of the other labels.  Without a
    shared label this is the product of one value of each. *)
Theorem contractNPT_einsum t1 t2 r :
  consistent t1 → consistent t2 → valid (arr t1) → valid (arr t2) →
  NoDup (label t1) → NoDup (label t2) →
  contractNPT dot t1 t2 = Ok r →
  ∃ common dims,
    NoDup common ∧ (∀ x, x ∈ common ↔ x ∈ label t1 ∧ x ∈ label t2) ∧
    Forall2 (λ x d, dim_of t1 x = Some d ∧ dim_of t2 x = Some d) common dims ∧
    ∀ f, in_shape (f <$> label r) (shape (arr r)) →
      ∃ va vb, at_labels r f = Some (dot va vb) ∧
        Forall2 (λ c v, at_labels t1 (override f common c) = Some v)
                (indices dims) va ∧
        Forall2 (λ c v, at_labels t2 (override f common c) = Some v)
                (indices dims) vb.
Proof.
  intros Hc1 Hc2 Hv1 Hv2 Hnd1 Hnd2 Hr.
  destruct (contractNPT_Ok_cases t1 t2 r Hc1 Hc2 Hnd1 Hnd2 Hr)
    as [[Hsh Hdim]|(Hdisj & Hi1 & Hi2)].
  - destruct (contractNPT_shared_full dot t1 t2 Hc1 Hc2 Hv1 Hv2 Hnd1 Hnd2
                Hsh Hdim)
      as (r' & dims & Hr' & _ & _ & _ & _ & _ & Hdims & Helem).
    rewrite Hr' in Hr. injection Hr as <-.
    exists (elements (list_to_set (label t1) ∩ list_to_set (label t2)
                      : gset Z)), dims.
    split; [apply NoDup_elements|].
    split; [apply elem_of_shared|]. split; [exact Hdims|]. exact Helem.
  - destruct (contractNPT_outer_full t1 t2 Hc1 Hc2 Hv1 Hv2 Hnd1 Hnd2
                Hi1 Hi2 Hdisj)
      as (r' & Hr' & _ & _ & _ & _ & Helem).
    rewrite Hr' in Hr. injection Hr as <-.
    exists [], []. split; [constructor|]. split.
    { intros x. split; [by intros ?%elem_of_nil|].
      intros [H1 H2]. by destruct (Hdisj x H1). }
    split; [constructor|].
    intros f Hin. destruct (Helem f Hin) as (x & y & Hx & Hy & Hxy).
    exists [x], [y]. split; [done|].
    assert (∀ t, at_labels t (override f [] []) = at_labels t f) as Hov.
    { intros t. reflexivity. }
    change (indices []) with [[] : list nat].
    split; (constructor; [by rewrite Hov | constructor]).
Qed.

End Contract3.

(** ** [toUniTensor] and back *)

Section ToUni.
Context {E : Type}.
Implicit Types t : NPTensor E.

Lemma count_below (k n : nat) :
  length (filter (λ i, (i < k)%nat) (seq 0 n)) = (k `min` n)%nat.
Proof.
  induction n as [|n IH]; [simpl; lia|].
  rewrite seq_S, filter_app, length_app, IH. simpl.
  rewrite filter_cons, filter_nil. destruct (decide (n < k)%nat); simpl; lia.
Qed.

Lemma Forall2_filter_length {A B} (R : A → B → Prop)
    (P : A → Prop) (Q : B → Prop)
    `{!∀ x, Decision (P x)} `{!∀ y, Decision (Q y)} l k :
  Forall2 R l k → (∀ x y, R x y → (P x ↔ Q y)) →
  length (filter P l) = length (filter Q k).
Proof.
  intros HF HR. induction HF as [|x y l k Hxy HF IH]; [done|].
  rewrite !filter_cons. specialize (HR x y Hxy).
  destruct (decide (P x)), (decide (Q y)); simpl; rewrite ?IH; try done; tauto.
Qed.

Lemma dim_Bond_of_dim tp d : dim (Bond_of_dim tp d) = d.
Proof. unfold dim. simpl. lia. Qed.

(** What [toUniTensor] puts into the [UniTensor] it returns. *)
Lemma toUniTensor_Ok t u :
  toUniTensor t = Ok u →
  ∃ el, ravel (arr t) = Ok el ∧
    u_typeID u = (if cplx (arr t) then 2 else 1)%nat ∧
    bondNum u = bn t ∧
    dim <$> u_bonds u = take (bn t) (shape (arr t)) ∧
    (bn t ≤ ndim (arr t))%nat ∧
    (∀ i b, u_bonds u !! i = Some b →
       btype b = if decide (i < ibn t)%nat then BD_IN else BD_OUT) ∧
    u_labels u = label t ∧ NoDup (label t) ∧ length (label t) = bn t ∧
    u_RBondNum u = (ibn t `min` bn t)%nat ∧
    blockQnum u = [Qnum0] ∧ u_elem u = el ∧ u_name u = EmptyString.
Proof.
  unfold toUniTensor.
  intros (bds & Hb%mapR_Ok & (el & Hel & Hu)%rbind_Ok)%rbind_Ok.
  unfold UniTensor_setLabel, bondNum in Hu. simpl in Hu.
  destruct (decide _) as [[Hlen Hnd]|]; [|done]. injection Hu as <-.
  unfold bondNum, blockQnum. simpl. unfold xrange in Hb.
  assert (length bds = bn t) as Hlb.
  { apply Forall2_length in Hb. by rewrite length_seq in Hb. }
  assert (∀ i b, bds !! i = Some b →
            ∃ d, shape (arr t) !! i = Some d ∧
                 b = Bond_of_dim (if decide (i < ibn t)%nat then BD_IN
                                  else BD_OUT) d) as Hbd.
  { intros i b Hi.
    destruct (Forall2_lookup_r _ _ _ _ _ Hb Hi) as (j & Hj & Hf).
    apply lookup_seq in Hj as [-> _]. simpl in Hf.
    unfold py_index in Hf. destruct (shape (arr t) !! i) as [d|]; [|done].
    simpl in Hf. injection Hf as <-. by exists d. }
  exists el. split; [done|]. split; [done|]. split; [done|].
  assert (bn t ≤ ndim (arr t))%nat as Hle.
  { destruct (bn t) as [|n] eqn:Hn; [lia|].
    destruct (lookup_lt_is_Some_2 bds n) as [b Hbn]; [lia|].
    destruct (Hbd n b Hbn) as (d & Hd%lookup_lt_Some & _).
    unfold ndim. lia. }
  split.
  { apply list_eq_same_length with (bn t).
    - rewrite length_take. unfold ndim in Hle. lia.
    - by rewrite length_fmap.
    - intros i x y Hi. rewrite list_lookup_fmap, lookup_take_lt by done.
      destruct (bds !! i) as [b|] eqn:Hbi; [|done]. simpl. intros [= <-].
      destruct (Hbd i b Hbi) as (d & -> & ->). intros [= <-].
      apply dim_Bond_of_dim. }
  split; [done|]. split.
  { intros i b Hi. by destruct (Hbd i b Hi) as (d & _ & ->). }
  split; [done|]. split; [done|]. split; [by rewrite Hlen|]. split; [|done].
  rewrite <- count_below. symmetry.
  eapply Forall2_filter_length; [exact Hb|].
  intros i b Hf. simpl in Hf. unfold py_index in Hf.
  destruct (shape (arr t) !! i) as [d|]; [|done]. simpl in Hf.
  injection Hf as <-. simpl. by destruct (decide (i < ibn t)%nat).
Qed.

(** A [UniTensor] with one label per bond gives a tensor whose fields
    agree. *)
Lemma NPTensor_new_PyUni_consistent (u : UniTensor E) t :
  NPTensor_new (PyUni u) = Ok t → length (u_labels u) = bondNum u →
  consistent t ∧ valid (arr t).
Proof.
  rewrite NPTensor_new_PyUni_eq.
  destruct (decide (blockQnum u = [Qnum0])); [|done].
  destruct (decide (u_typeID u = 1 ∨ u_typeID u = 2)%nat); [|done].
  destruct (decide (elemNum u = size_of (dim <$> u_bonds u))) as [Hsz|]; [|done].
  unfold mapLabelBond. intros (m & Hm & [= <-])%rbind_Ok Hlen.
  split.
  - unfold consistent, ndim, bondNum in *. simpl.
    rewrite length_c_strides, length_fmap. done.
  - simpl. by apply valid_c_contiguous.
Qed.

(** X15: a tensor that [toUniTensor] could turn into a [UniTensor] (one
    block of charge [Qnum(0)], as the spec has the constructor from
    trivially charged bonds) comes back from the constructor with its
    labels, bond count, shape, dtype and every element; the incoming bond
    count comes back capped at the bond count; the array that was a view
    comes back C-contiguous. *)
Theorem toUniTensor_roundtrip t u :
  consistent t → toUniTensor t = Ok u →
  ∃ t', NPTensor_new (PyUni u) = Ok t' ∧ consistent t' ∧ valid (arr t') ∧
    label t' = label t ∧ bn t' = bn t ∧ ibn t' = (ibn t `min` bn t)%nat ∧
    shape (arr t') = shape (arr t) ∧ cplx (arr t') = cplx (arr t) ∧
    strides (arr t') = c_strides (shape (arr t)) ∧
    ravel (arr t') = ravel (arr t) ∧
    ∀ idx, get (arr t') idx = get (arr t) idx.
Proof.
  intros Hc Hu.
  destruct (toUniTensor_Ok t u Hu)
    as (el & Hel & Hty & Hbn & Hdim & Hle & _ & Hlab & Hnd & Hlen & Hr & Hq
        & Helem & _).
  destruct Hc as (_ & Hbnd & _ & _).
  rewrite Hbnd, take_ge in Hdim by (unfold ndim; lia).
  destruct (NPTensor_new_PyUni_cases u) as [[_ Hex] Hfields].
  destruct Hex as [t' Ht'].
  { split; [done|]. split; [destruct (cplx (arr t)); lia|]. split.
    - unfold elemNum. rewrite Helem, Hdim. by eapply ravel_length.
    - rewrite Hlab, Hlen, Hbn. done. }
  exists t'. split; [done|].
  destruct (NPTensor_new_PyUni_consistent u t' Ht') as [Hc' Hv'].
  { by rewrite Hlab, Hlen, Hbn. }
  destruct (Hfields t' Ht')
    as (Hsh & Hst & Hbuf & Hcx & Hrav & Hl & Hb & Hi).
  split; [done|]. split; [done|]. split; [congruence|].
  split; [congruence|]. split; [unfold inBondNum in Hi; congruence|].
  split; [congruence|]. split.
  { rewrite Hcx, Hty. by destruct (cplx (arr t)). }
  split; [congruence|]. split; [congruence|].
  intros idx. unfold get at 2.
  destruct (decide (in_shape idx (shape (arr t)))) as [Hin|Hout].
  - apply mapR_Ok in Hel.
    destruct (get_c_contiguous (λ i v, getR (arr t) i = Ok v)
                (shape (arr t)) el (cplx (arr t')) idx Hel Hin)
      as (v & Hv & Hg).
    unfold getR, get in Hg. rewrite decide_True in Hg by done.
    destruct (buf (arr t) !! flat_pos idx (strides (arr t))) as [x|]; [|done].
    injection Hg as ->. rewrite <- Hv.
    unfold get. simpl. by rewrite Hsh, Hst, Hbuf, Helem, Hdim.
  - unfold get. rewrite decide_False; [done|]. by rewrite Hsh, Hdim.
Qed.

End ToUni.

(** ** [mergeNPT] over the tree *)

Section Merge.
Context {E : Type} (dot : list E → list E → E).
Implicit Types nd : Node E.

(** Induction over a tree through the children of its nodes. *)
Lemma Node_children_ind (P : Node E → Prop) :
  (∀ T l b n p nl nr,
     (∀ c, nl = Some c → P c) → (∀ c, nr = Some c → P c) →
     P (mk_Node T l b n p nl nr)) →
  ∀ nd, P nd.
Proof.
  intros H nd. remember (height nd) as h eqn:Hh. revert nd Hh.
  induction h as [h IH] using lt_wf_ind.
  intros [T l b n p nl nr] ->. apply H.
  - intros c ->. eapply IH; [|reflexivity]. simpl. lia.
  - intros c ->. eapply IH; [|reflexivity]. simpl. lia.
Qed.

(** [mergeNPT] returns when both children give a tensor and the two
    contract. *)
Lemma mergeNPT_Ok T l b n p nl nr r :
  mergeNPT dot (mk_Node T l b n p nl nr) = Ok r ↔
  ∃ a c, operand dot nl = Ok a ∧ operand dot nr = Ok c ∧
         contractNPT dot a c = Ok r.
Proof.
  cbn [mergeNPT].
  destruct nl as [ln|]; [|split; [done | by intros (a & c & ? & _)]].
  unfold isLeaf, Node_T, operand.
  destruct nr as [rn|].
  - destruct (node_T ln) as [ul|], (node_T rn) as [ur|].
    + set (Nl := NPTensor_new (PyUni ul)). set (Nr := NPTensor_new (PyUni ur)).
      simpl. rewrite rbind_Ok. split.
      * intros (a & Ha & (c & Hc & Hr)%rbind_Ok). by exists a, c.
      * intros (a & c & Ha & Hc & Hr). exists a. split; [done|].
        apply rbind_Ok. by exists c.
    + set (Nl := NPTensor_new (PyUni ul)).
      simpl. rewrite rbind_Ok. split.
      * intros (c & Hc & (a & Ha & Hr)%rbind_Ok). by exists a, c.
      * intros (a & c & Ha & Hc & Hr). exists c. split; [done|].
        apply rbind_Ok. by exists a.
    + set (Nr := NPTensor_new (PyUni ur)).
      simpl. rewrite rbind_Ok. split.
      * intros (a & Ha & (c & Hc & Hr)%rbind_Ok). by exists a, c.
      * intros (a & c & Ha & Hc & Hr). exists a. split; [done|].
        apply rbind_Ok. by exists c.
    + simpl. rewrite rbind_Ok. split.
      * intros (a & Ha & (c & Hc & Hr)%rbind_Ok). by exists a, c.
      * intros (a & c & Ha & Hc & Hr). exists a. split; [done|].
        apply rbind_Ok. by exists c.
  - split; [|by intros (a & c & _ & ? & _)].
    destruct (bool_decide (is_Some (node_T ln))); simpl; [done|].
    by intros (a & _ & ?)%rbind_Ok.
Qed.

Lemma merged_tensors_node T l b n p (nl nr : option (Node E)) :
  merged_tensors (mk_Node T l b n p nl nr)
  = child_tensors nl ++ child_tensors nr.
Proof. done. Qed.

Lemma merged_labels_node T l b n p (nl nr : option (Node E)) :
  merged_labels (mk_Node T l b n p nl nr)
  = sym_diff (child_labels nl) (child_labels nr).
Proof. done. Qed.

Lemma two_children_node T l b n p (nl nr : option (Node E)) :
  two_children (mk_Node T l b n p nl nr) = (child_ok nl ∧ child_ok nr).
Proof. done. Qed.

Lemma sym_diff_Permutation (l1 l1' l2 l2' : list Z) :
  l1 ≡ₚ l1' → l2 ≡ₚ l2' → sym_diff l1 l2 ≡ₚ sym_diff l1' l2'.
Proof.
  intros H1 H2. unfold sym_diff.
  rewrite (list_filter_iff (λ x, x ∉ l2) (λ x, x ∉ l2') l1)
    by (intros x; by rewrite H2).
  rewrite (list_filter_iff (λ x, x ∉ l1) (λ x, x ∉ l1') l2)
    by (intros x; by rewrite H1).
  by rewrite H1, H2.
Qed.

(** X16: [mergeNPT] returns only on a tree in which every node it
    enters, the root first, has both children (the tensor a node may
    hold itself is never looked at), and in which every leaf tensor it
    reaches has the one block of charge [Qnum(0)], is real or complex and
    holds as many elements as its bond dimensions multiply to. *)
Theorem mergeNPT_needs nd r :
  mergeNPT dot nd = Ok r →
  two_children nd ∧
  Forall (λ u, blockQnum u = [Qnum0] ∧ (u_typeID u = 1 ∨ u_typeID u = 2)%nat ∧
               elemNum u = size_of (dim <$> u_bonds u))
         (merged_tensors nd).
Proof.
  revert r. induction nd as [T l b n p nl nr IHl IHr] using Node_children_ind.
  intros r (a & c & Ha & Hc & _)%mergeNPT_Ok.
  rewrite two_children_node, merged_tensors_node, Forall_app.
  assert (∀ o x, (∀ c0, o = Some c0 → ∀ r0, mergeNPT dot c0 = Ok r0 →
                    two_children c0 ∧
                    Forall (λ u, blockQnum u = [Qnum0] ∧
                                 (u_typeID u = 1 ∨ u_typeID u = 2)%nat ∧
                                 elemNum u = size_of (dim <$> u_bonds u))
                           (merged_tensors c0)) →
            operand dot o = Ok x →
            child_ok o ∧
            Forall (λ u, blockQnum u = [Qnum0] ∧
                         (u_typeID u = 1 ∨ u_typeID u = 2)%nat ∧
                         elemNum u = size_of (dim <$> u_bonds u))
                   (child_tensors o)) as Hop.
  { intros [c0|] x IH Hx; [|done]. unfold operand in Hx. simpl.
    destruct (node_T c0) as [u|].
    - split; [done|]. apply Forall_singleton.
      destruct (NPTensor_new_PyUni_cases u) as [[Hex _] _].
      destruct Hex as (? & ? & ? & _); [by eexists | done].
    - by eapply IH. }
  destruct (Hop nl a IHl Ha) as [? ?]. destruct (Hop nr c IHr Hc) as [? ?].
  done.
Qed.

(** X17: over leaf tensors that carry one label per bond, all distinct,
    [mergeNPT] returns a tensor whose fields agree and whose labels are
    distinct: the labels that are left when, from the leaves up, the
    labels two subtrees share are struck out. *)
Theorem mergeNPT_labels nd r :
  Forall (λ u, NoDup (u_labels u) ∧ length (u_labels u) = bondNum u)
         (merged_tensors nd) →
  mergeNPT dot nd = Ok r →
  consistent r ∧ valid (arr r) ∧ NoDup (label r) ∧
  bn r = length (label r) ∧ label r ≡ₚ merged_labels nd.
Proof.
  revert r. induction nd as [T l b n p nl nr IHl IHr] using Node_children_ind.
  intros r HQ (a & c & Ha & Hc & Hr)%mergeNPT_Ok.
  rewrite merged_tensors_node, Forall_app in HQ. destruct HQ as [HQl HQr].
  rewrite merged_labels_node.
  assert (∀ o x,
            (∀ c0, o = Some c0 → ∀ r0,
               Forall (λ u, NoDup (u_labels u) ∧ length (u_labels u) = bondNum u)
                      (merged_tensors c0) →
               mergeNPT dot c0 = Ok r0 →
               consistent r0 ∧ valid (arr r0) ∧ NoDup (label r0) ∧
               bn r0 = length (label r0) ∧ label r0 ≡ₚ merged_labels c0) →
            Forall (λ u, NoDup (u_labels u) ∧ length (u_labels u) = bondNum u)
                   (child_tensors o) →
            operand dot o = Ok x →
            consistent x ∧ valid (arr x) ∧ NoDup (label x) ∧
            label x ≡ₚ child_labels o) as Hop.
  { intros [c0|] x IH HQ Hx; [|done]. unfold operand in Hx. simpl in *.
    destruct (node_T c0) as [u|].
    - apply Forall_singleton in HQ as [Hnd Hlen].
      destruct (NPTensor_new_PyUni_consistent u x Hx Hlen) as [? ?].
      destruct (NPTensor_new_PyUni_cases u) as [_ Hf].
      destruct (Hf x Hx) as (_ & _ & _ & _ & _ & -> & _). done.
    - destruct (IH c0 eq_refl x HQ Hx) as (? & ? & ? & _ & ?). done. }
  destruct (Hop nl a IHl HQl Ha) as (Hca & Hva & Hna & Hpa).
  destruct (Hop nr c IHr HQr Hc) as (Hcc & Hvc & Hnc & Hpc).
  destruct (contractNPT_keeps dot a c r Hca Hcc Hva Hvc Hna Hnc Hr)
    as (? & ? & ? & ? & Hp & _).
  split; [done|]. split; [done|]. split; [done|]. split; [done|].
  rewrite Hp. by apply sym_diff_Permutation.
Qed.

End Merge.

(** ** What [launchNPT] returns *)

Section Launch2.
Context {E : Type} (dot : list E → list E → E).
Context (construct : Network E → Network E * result unit).

Lemma permute_ibn (t t' : NPTensor E) lab k :
  permute t lab k = Ok t' →
  ibn t' = if bool_decide (0 ≤ k) then Z.to_nat k else ibn t.
Proof.
  unfold permute.
  intros (_ & _ & (ax & _ & (npt & _ & (_ & _ & Hm)%rbind_Ok)%rbind_Ok)
            %rbind_Ok)%rbind_Ok.
  unfold mapLabelBond in Hm. apply rbind_Ok in Hm as (m & _ & [= <-]). done.
Qed.

(** X18: when the network names output labels, whatever [launchNPT]
    returns carries exactly these labels in this order.  An [NPTensor]
    takes the incoming bond count of the network as it is, if it is not
    negative, even beyond the number of bonds; a [UniTensor] has it capped
    at the number of bonds, and has the name that was passed. *)
Theorem launchNPT_output net to_ut name net1 out :
  launchNPT dot construct net to_ut name = (net1, Ok out) →
  label_TOUT net1 ≠ [] →
  match out with
  | inr npt =>
      label npt = label_TOUT net1 ∧
      (0 ≤ ibn_TOUT net1 → ibn npt = Z.to_nat (ibn_TOUT net1))
  | inl u =>
      u_labels u = label_TOUT net1 ∧ u_name u = name ∧
      bondNum u = length (label_TOUT net1) ∧
      (0 ≤ ibn_TOUT net1 →
         inBondNum u
         = (Z.to_nat (ibn_TOUT net1) `min` length (label_TOUT net1))%nat)
  end.
Proof.
  unfold launchNPT.
  destruct (if load net then (net, Ok tt) else construct net) as [n1 c].
  intros [= -> Hr] Hne.
  apply rbind_Ok in Hr as (_ & _ & Hr).
  apply rbind_Ok in Hr as (rt & _ & Hr).
  apply rbind_Ok in Hr as (npt0 & _ & Hr).
  apply rbind_Ok in Hr as (npt & Hp & Hr).
  rewrite decide_True in Hp
    by (destruct (label_TOUT net1); [done | simpl; lia]).
  destruct (permute_inv _ _ _ _ Hp) as (_ & _ & Hlab & _).
  pose proof (permute_ibn _ _ _ _ Hp) as Hibn.
  destruct to_ut.
  - apply rbind_Ok in Hr as (ut & Hut & [= <-]).
    destruct (toUniTensor_Ok npt ut Hut)
      as (_ & _ & _ & Hbn & _ & _ & _ & Hl & _ & Hlen & Hrb & _).
    unfold inBondNum, bondNum in *. simpl.
    split; [congruence|]. split; [done|]. split; [congruence|].
    intros Hk. rewrite bool_decide_true in Hibn by done.
    rewrite Hrb, Hibn, <- Hlen, Hlab. done.
  - injection Hr as <-. split; [done|]. intros Hk.
    by rewrite bool_decide_true in Hibn.
Qed.

End Launch2.

(** ** An incoming bond count beyond the bonds *)

Section Overflow.
Context {E : Type} (dot : list E → list E → E).
Implicit Types t : NPTensor E.

Lemma mapR_py_index_short {A} (l : list A) a n :
  (length l < a + n)%nat → (0 < n)%nat →
  mapR (py_index l) (seq a n) = Raise IndexError.
Proof.
  revert a. induction n as [|n IH]; intros a Hlen Hn; [lia|].
  cbn [seq mapR]. destruct (l !! a) as [y|] eqn:Ha.
  - assert (py_index l a = Ok y) as -> by (unfold py_index; by rewrite Ha).
    apply lookup_lt_Some in Ha.
    destruct (decide (n = 0%nat)) as [->|]; [lia|].
    simpl. rewrite IH by lia. done.
  - assert (py_index l a = Raise IndexError) as ->
      by (unfold py_index; by rewrite Ha).
    done.
Qed.

Lemma contractNPT_outer_beyond t1 t2 :
  consistent t1 → consistent t2 → valid (arr t1) → valid (arr t2) →
  (∀ x, x ∈ label t1 → x ∉ label t2) →
  (bn t1 < ibn t1 ∨ bn t2 < ibn t2)%nat →
  contractNPT dot t1 t2 = Raise IndexError.
Proof.
  intros Hc1 Hc2 Hv1 Hv2 Hdisj Hover.
  destruct Hc1 as (Hst1 & Hbn1 & Hlen1 & Hmap1).
  destruct Hc2 as (Hst2 & Hbn2 & Hlen2 & Hmap2).
  unfold contractNPT. rewrite (lab_common_disjoint _ _ Hdisj).
  rewrite decide_False by (simpl; lia). rewrite filter_notin_nil.
  destruct (tensordot_outer dot _ _ Hv1 Hv2) as (d & Hd & Hshd & Hvd & Hget).
  rewrite Hd. simpl.
  destruct (NPTensor_new_PyArr d (proj1 Hvd))
    as (npt0 & Hnew & Harr0 & Hlab0 & Hbn0 & Hibn0 & Hc0).
  change (mapLabelBond d _ _ _) with (NPTensor_new (PyArr d)).
  rewrite Hnew. simpl.
  destruct (setLabel_cases npt0 (label t1 ++ label t2) Hc0)
    as ([_ Hset] & _ & _).
  destruct Hset as [npt1 Hnpt1].
  { unfold bondNum_of, ndim in *. rewrite Harr0, Hshd, !length_app. lia. }
  rewrite Hnpt1. simpl.
  destruct (decide (ibn t1 ≤ bn t1)%nat) as [Hi1|Hi1].
  - rewrite (mapR_py_index_take (label t1)) by lia. simpl.
    unfold xrange.
    rewrite (mapR_py_index_short (label t2) 0 (ibn t2)); [done | lia | lia].
  - unfold xrange.
    rewrite (mapR_py_index_short (label t1) 0 (ibn t1)); [done | lia | lia].
Qed.

(** X19: [permute] stores whatever incoming bond count it is given that
    is not negative, and [contractNPT] of two tensors without a common
    label reads that many labels: with a count beyond the bonds on
    either side it raises [IndexError]. *)
Theorem contractNPT_ibn_beyond t1 t2 :
  consistent t1 → consistent t2 → valid (arr t1) → valid (arr t2) →
  (∀ x, x ∈ label t1 → x ∉ label t2) →
  (bn t1 < ibn t1 ∨ bn t2 < ibn t2)%nat →
  contractNPT dot t1 t2 = Raise IndexError.
Proof. exact (contractNPT_outer_beyond t1 t2). Qed.

End Overflow.

(** ** The cases of [contractNPT] *)

Section ContractCases.
Context {E : Type} (dot : list E → list E → E).
Implicit Types t : NPTensor E.

(** C3, as the numpy path has it: [contractNPT] compares the dimensions of
    the bonds that share a label and never their directions.  On two
    tensors with consistent fields, valid arrays and distinct labels: a
    shared label with two different dimensions makes numpy raise
    [ValueError]; when labels are shared and each has one dimension in
    both tensors, the contraction succeeds, whatever the incoming bond
    counts, and its result carries the unshared labels, those of [t1]
    first; when no label is shared it succeeds exactly when neither
    incoming bond count exceeds the bond count, with all the labels, and
    raises [IndexError] otherwise. *)
Theorem contractNPT_spec t1 t2 :
  consistent t1 → consistent t2 → valid (arr t1) → valid (arr t2) →
  NoDup (label t1) → NoDup (label t2) →
  ((∃ x, x ∈ label t1 ∧ x ∈ label t2 ∧ dim_of t1 x ≠ dim_of t2 x) →
     contractNPT dot t1 t2 = Raise ValueError) ∧
  ((∃ x, x ∈ label t1 ∧ x ∈ label t2) →
   (∀ x, x ∈ label t1 → x ∈ label t2 → dim_of t1 x = dim_of t2 x) →
     ∃ r, contractNPT dot t1 t2 = Ok r ∧
          label r = filter (λ x, x ∉ label t2) (label t1) ++
                    filter (λ x, x ∉ label t1) (label t2)) ∧
  ((∀ x, x ∈ label t1 → x ∉ label t2) →
     ((ibn t1 ≤ bn t1 ∧ ibn t2 ≤ bn t2)%nat →
        ∃ r, contractNPT dot t1 t2 = Ok r ∧
             label r ≡ₚ filter (λ x, x ∉ label t2) (label t1) ++
                        filter (λ x, x ∉ label t1) (label t2)) ∧
     (¬ (ibn t1 ≤ bn t1 ∧ ibn t2 ≤ bn t2)%nat →
        contractNPT dot t1 t2 = Raise IndexError)).
Proof.
  intros Hc1 Hc2 Hv1 Hv2 Hnd1 Hnd2. split; [|split].
  - intros (x & Hx1 & Hx2 & Hne).
    destruct (shared_axes t1 t2 Hc1 Hc2 Hnd1 Hnd2)
      as (idx1 & idx2 & d1 & d2 & Hi1 & Hi2 & Hp1 & Hp2 & Hd1 & Hd2 & Heq).
    unfold contractNPT. set (common := elements _) in *.
    assert (0 < length common)%nat as Hpos.
    { assert (x ∈ common) as [m Hm%lookup_lt_Some]%list_elem_of_lookup
        by by apply elem_of_shared. lia. }
    rewrite decide_True by done. rewrite Hi1, Hi2. simpl.
    rewrite (tensordot_mismatch dot _ _ _ _ d1 d2); try done.
    intros Hd. apply Hne. by apply Heq.
  - intros Hsh Hdim. by apply contractNPT_inner.
  - intros Hd. split.
    + intros [Hib1 Hib2].
      destruct (contractNPT_outer dot t1 t2) as (r & Hr & Hlab & _);
        try done.
      exists r. split; [done|]. rewrite Hlab.
      rewrite !filter_all; [|intros x H2 H1; by apply (Hd x)|done].
      rewrite <- in_out_order_app. apply in_out_order_Permutation.
    + intros Hib. apply contractNPT_outer_beyond; try done. lia.
Qed.

End ContractCases.

(** ** The constructor on a bare array *)

Section Bare.
Context {E : Type}.

(** X20: given a bare array, the constructor falls back on its defaults
    and always returns: the labels are [0 .. ndim-1], every bond counts
    as incoming, and the dictionary sends each label to its own bond. *)
Theorem NPTensor_new_ndarray (a : ndarray E) :
  ∃ npt, NPTensor_new (PyArr a) = Ok npt ∧ arr npt = a ∧
    label npt = Z.of_nat <$> seq 0 (ndim a) ∧
    bn npt = ndim a ∧ ibn npt = ndim a ∧
    ∀ x i, lbmap npt !! x = Some i ↔ (i < ndim a)%nat ∧ x = Z.of_nat i.
Proof.
  simpl.
  destruct (mapLabelBond_cases a (Z.of_nat <$> seq 0 (ndim a)) (ndim a)
              (ndim a)) as [_ Hlong].
  destruct Hlong as (m & Hm & Hspec).
  { by rewrite length_fmap, length_seq. }
  rewrite Hm. eexists. split; [done|]. simpl.
  split; [done|]. split; [done|]. split; [done|]. split; [done|].
  intros x i. split.
  - intros (Hi & Hl & _)%Hspec. split; [done|].
    rewrite list_lookup_fmap, lookup_seq_lt in Hl by done.
    simpl in Hl. by injection Hl as <-.
  - intros [Hi ->]. apply Hspec. split; [done|]. split.
    + by rewrite list_lookup_fmap, lookup_seq_lt.
    + intros j Hj. rewrite list_lookup_fmap, lookup_seq_lt by lia.
      simpl. intros [= Hji]. lia.
Qed.

End Bare.

(** ** The further properties on the sample values *)

(** C8 as stated fails: [u_charged] has charged bonds and the blocks the
    layout of the symmetric tensor gives it, the one block of charge 0,
    and the constructor accepts it. *)
Lemma NPTensor_new_accepts_charged_bonds :
  ¬ (∀ u : UniTensor Z,
       charged u →
       blockQnum u = Sym.block_charges (u_bonds u) (u_RBondNum u) →
       ∃ e, NPTensor_new (PyUni u) = Raise e).
Proof.
  intros H. destruct (H u_charged) as [e He].
  - exists (mk_Bond BD_IN [((1, false), 2%nat)]), (1, false), 2%nat.
    split; [simpl; set_solver|]. split; [simpl; set_solver|]. done.
  - by vm_compute.
  - vm_compute in He. discriminate He.
Qed.

Lemma contractNPT_spec_witness :
  (∃ r, contractNPT zdot t_A t_B = Ok r ∧
        label r = filter (λ x, x ∉ label t_B) (label t_A) ++
                  filter (λ x, x ∉ label t_A) (label t_B)) ∧
  (∃ r, contractNPT zdot t_A t_C = Ok r ∧
        label r ≡ₚ filter (λ x, x ∉ label t_C) (label t_A) ++
                   filter (λ x, x ∉ label t_A) (label t_C)) ∧
  contractNPT zdot (set_ibn t_A 5) t_C = Raise IndexError.
Proof.
  assert (valid (arr t_A)) as HvA
    by (apply (bool_decide_unpack _); vm_compute; exact I).
  assert (valid (arr t_B)) as HvB
    by (apply (bool_decide_unpack _); vm_compute; exact I).
  assert (valid (arr t_C)) as HvC
    by (apply (bool_decide_unpack _); vm_compute; exact I).
  assert (NoDup (label t_A)) as HnA
    by (apply (bool_decide_unpack _); vm_compute; exact I).
  assert (NoDup (label t_B)) as HnB
    by (apply (bool_decide_unpack _); vm_compute; exact I).
  assert (NoDup (label t_C)) as HnC
    by (apply (bool_decide_unpack _); vm_compute; exact I).
  split; [|split].
  - destruct (contractNPT_spec zdot t_A t_B t_A_consistent t_B_consistent
                HvA HvB HnA HnB) as (_ & H & _).
    apply H.
    + exists 1. simpl. set_solver.
    + intros x Hx Hy. simpl in *.
      assert (x = 1) as -> by set_solver. reflexivity.
  - destruct (contractNPT_spec zdot t_A t_C t_A_consistent t_C_consistent
                HvA HvC HnA HnC) as (_ & _ & H).
    apply H.
    + intros x Hx Hy. simpl in *. set_solver.
    + simpl. lia.
  - destruct (contractNPT_spec zdot (set_ibn t_A 5) t_C
                (consistent_set_ibn t_A 5 t_A_consistent) t_C_consistent
                HvA HvC HnA HnC) as (_ & _ & H).
    apply H.
    + intros x Hx Hy. simpl in *. set_solver.
    + simpl. lia.
Defined.

Lemma getRows_rows_witness :
  Dgemm.getRows (Z.of_nat 3) (Z.of_nat 2) (Z.of_nat 1) (Z.of_nat 2)
    [1; 2; 3; 4; 5; 6] [0; 0; 0; 0; 9] Dgemm.MM_HHH
  = if decide (1 + 2 ≤ 3)%nat then
      Some (if Dgemm.has_bit Dgemm.MM_HHH 4
            then take (2 * 2) (drop (1 * 2) [1; 2; 3; 4; 5; 6]) ++
                 drop (2 * 2) [0; 0; 0; 0; 9]
            else [0; 0; 0; 0; 9])
    else None.
Proof.
  apply (DgemmMore.getRows_rows 3 2 1 2 [1; 2; 3; 4; 5; 6] [0; 0; 0; 0; 9]
           Dgemm.MM_HHH); try (unfold Dgemm.INT_MAX; lia); try reflexivity.
  simpl; lia.
Defined.

Lemma getCols_columns_witness :
  let iB := [1; 2; 3; 4; 5; 6] in
  let fB := [0; 0; 0; 0; 9] in
  ∃ fB',
    (∀ how, Dgemm.getCols (λ n, replicate n 0) (Z.of_nat 2) (Z.of_nat 3)
              (Z.of_nat 1) (Z.of_nat 2) iB fB how = Some fB') ∧
    length fB' = length fB ∧
    (∀ l c, (l < 2)%nat → (c < 2)%nat →
            fB' !! (l * 2 + c)%nat = iB !! (l * 3 + 1 + c)%nat) ∧
    (∀ x, (2 * 2 ≤ x)%nat → fB' !! x = fB !! x).
Proof.
  intros iB fB.
  apply (DgemmMore.getCols_columns (λ n, replicate n 0)
           (λ n, length_replicate n 0) 2 3 1 2 iB fB);
    try (unfold Dgemm.INT_MAX; lia); try reflexivity.
  simpl; lia.
Defined.

Lemma putBack_window_witness :
  let sC := [7; 8; 9; 10] in
  let C := replicate 12 0 in
  ∃ C',
    (∀ how, Dgemm.putBack (λ n, replicate n 0) (Z.of_nat 1) (Z.of_nat 1)
              (Z.of_nat 2) (Z.of_nat 2) (Z.of_nat 3) (Z.of_nat 4) sC C how
            = Some C') ∧
    length C' = length C ∧
    (∀ r c, (r < 2)%nat → (c < 2)%nat →
       C' !! ((1 + r) * 4 + 1 + c)%nat = sC !! (r * 2 + c)%nat) ∧
    (∀ r c, (r < 3)%nat → (c < 4)%nat →
       ¬ (1 ≤ r < 1 + 2 ∧ 1 ≤ c < 1 + 2)%nat →
       C' !! (r * 4 + c)%nat = C !! (r * 4 + c)%nat).
Proof.
  intros sC C.
  apply (DgemmMore.putBack_window (λ n, replicate n 0)
           (λ n, length_replicate n 0) 1 1 2 2 3 4 sC C);
    try (unfold Dgemm.INT_MAX; lia); try reflexivity.
Defined.

Lemma block_rows_tile_witness :
  let first i :=
    Dgemm.imul (Z.of_nat i) (Dgemm.idiv (Z.of_nat 5) (Z.of_nat 2)) in
  let inside i :=
    first i ≤ Z.of_nat 3
      < first i + Dgemm.block_span (Z.of_nat 2) (Z.of_nat 5) i in
  ∃ i, (i < 2)%nat ∧ inside i ∧ ∀ i', (i' < 2)%nat → inside i' → i' = i.
Proof.
  apply (DgemmMore.block_rows_tile 2 5 3); unfold Dgemm.INT_MAX; lia.
Defined.

Lemma NPTensor_new_again_witness :
  ∃ t, NPTensor_new (PyUni u_A) = Ok t ∧ NPTensor_new (PyNPT t) = Ok t.
Proof.
  destruct (NPTensor_new (PyUni u_A)) as [t|e] eqn:Ht; [|by vm_compute in Ht].
  exists t. split; [done|]. by apply (NPTensor_new_again (PyUni u_A)).
Defined.

Lemma NPTensor_new_UniTensor_errors_witness :
  NPTensor_new (PyUni u_untyped) = Raise UnboundLocalError.
Proof.
  destruct (NPTensor_new_UniTensor_errors u_untyped eq_refl) as (H & _ & _).
  apply H; simpl; lia.
Defined.

Lemma permute_iff_witness :
  ((∃ t', permute t_234 [2; 0; 1] 1 = Ok t') ↔ [2; 0; 1] ≡ₚ label t_234) ∧
  (¬ [2; 0; 1] ≡ₚ label t_234 →
   permute t_234 [2; 0; 1] 1 = Raise AssertionError).
Proof.
  apply (permute_iff t_234 [2; 0; 1] 1).
  - exact t_234_consistent.
  - apply (bool_decide_unpack _). vm_compute. exact I.
Defined.

Lemma t_77_consistent : consistent t_77.
Proof. repeat split. Defined.

Lemma permute_repeated_labels_witness :
  permute t_77 [7; 7] 1 = Raise AssertionError ∨
  permute t_77 [7; 7] 1 = Raise ValueError.
Proof.
  apply (permute_repeated_labels t_77 [7; 7] 1).
  - exact t_77_consistent.
  - apply (bool_decide_unpack _). vm_compute. exact I.
Defined.

Lemma permute_at_labels_witness :
  ∃ t', permute t_234 [2; 0; 1] 1 = Ok t' ∧
    buf (arr t') = buf (arr t_234) ∧
    ∀ f x, at_labels t_234 f = Some x → at_labels t' f = Some x.
Proof.
  destruct (permute t_234 [2; 0; 1] 1) as [t'|e] eqn:Ht;
    [|by vm_compute in Ht].
  exists t'. split; [done|].
  apply (permute_at_labels t_234 [2; 0; 1] 1 t').
  - exact t_234_consistent.
  - apply (bool_decide_unpack _). vm_compute. exact I.
  - exact Ht.
Defined.

Lemma permute_permute_witness :
  ∃ t1, permute t_234 [2; 0; 1] 1 = Ok t1 ∧
    permute t1 [1; 2; 0] (-1) =
      permute t_234 [1; 2; 0]
        (if bool_decide (0 ≤ -1) then -1 else Z.of_nat (ibn t1)).
Proof.
  destruct (permute t_234 [2; 0; 1] 1) as [t1|e] eqn:Ht;
    [|by vm_compute in Ht].
  exists t1. split; [done|].
  apply (permute_permute t_234 [2; 0; 1] 1 [1; 2; 0] (-1) t1).
  - exact t_234_consistent.
  - apply (bool_decide_unpack _). vm_compute. exact I.
  - simpl. by rewrite (Permutation_cons_append [1; 2] 0).
  - exact Ht.
Defined.

Lemma contractNPT_closed_witness :
  ∃ r, contractNPT zdot t_A t_B = Ok r ∧
    consistent r ∧ valid (arr r) ∧ NoDup (label r) ∧
    bn r = length (label r) ∧
    label r ≡ₚ filter (λ x, x ∉ label t_B) (label t_A) ++
               filter (λ x, x ∉ label t_A) (label t_B) ∧
    ((∃ x, x ∈ label t_A ∧ x ∈ label t_B) →
       label r = filter (λ x, x ∉ label t_B) (label t_A) ++
                 filter (λ x, x ∉ label t_A) (label t_B) ∧
       ibn r = length (filter (λ x, x ∉ label t_B) (label t_A))).
Proof.
  destruct (contractNPT zdot t_A t_B) as [r|e] eqn:Hr; [|by vm_compute in Hr].
  exists r. split; [done|].
  apply (contractNPT_closed zdot t_A t_B r).
  - exact t_A_consistent.
  - exact t_B_consistent.
  - apply (bool_decide_unpack _). vm_compute. exact I.
  - apply (bool_decide_unpack _). vm_compute. exact I.
  - apply (bool_decide_unpack _). vm_compute. exact I.
  - apply (bool_decide_unpack _). vm_compute. exact I.
  - exact Hr.
Defined.

Lemma contractNPT_einsum_witness :
  ∃ r, contractNPT zdot t_A t_B = Ok r ∧
    ∃ common dims,
      NoDup common ∧ (∀ x, x ∈ common ↔ x ∈ label t_A ∧ x ∈ label t_B) ∧
      Forall2 (λ x d, dim_of t_A x = Some d ∧ dim_of t_B x = Some d)
              common dims ∧
      ∀ f, in_shape (f <$> label r) (shape (arr r)) →
        ∃ va vb, at_labels r f = Some (zdot va vb) ∧
          Forall2 (λ c v, at_labels t_A (override f common c) = Some v)
                  (indices dims) va ∧
          Forall2 (λ c v, at_labels t_B (override f common c) = Some v)
                  (indices dims) vb.
Proof.
  destruct (contractNPT zdot t_A t_B) as [r|e] eqn:Hr; [|by vm_compute in Hr].
  exists r. split; [done|].
  apply (contractNPT_einsum zdot t_A t_B r).
  - exact t_A_consistent.
  - exact t_B_consistent.
  - apply (bool_decide_unpack _). vm_compute. exact I.
  - apply (bool_decide_unpack _). vm_compute. exact I.
  - apply (bool_decide_unpack _). vm_compute. exact I.
  - apply (bool_decide_unpack _). vm_compute. exact I.
  - exact Hr.
Defined.

Lemma toUniTensor_roundtrip_witness :
  ∃ u, toUniTensor t_A = Ok u ∧
  ∃ t', NPTensor_new (PyUni u) = Ok t' ∧ consistent t' ∧ valid (arr t') ∧
    label t' = label t_A ∧ bn t' = bn t_A ∧
    ibn t' = (ibn t_A `min` bn t_A)%nat ∧
    shape (arr t') = shape (arr t_A) ∧ cplx (arr t') = cplx (arr t_A) ∧
    strides (arr t') = c_strides (shape (arr t_A)) ∧
    ravel (arr t') = ravel (arr t_A) ∧
    ∀ idx, get (arr t') idx = get (arr t_A) idx.
Proof.
  destruct (toUniTensor t_A) as [u|e] eqn:Hu; [|by vm_compute in Hu].
  exists u. split; [done|].
  apply (toUniTensor_roundtrip t_A u).
  - exact t_A_consistent.
  - exact Hu.
Defined.

Lemma mergeNPT_needs_witness :
  ∃ r, mergeNPT zdot root_ABD = Ok r ∧
    two_children root_ABD ∧
    Forall (λ u, blockQnum u = [Qnum0] ∧
                 (u_typeID u = 1 ∨ u_typeID u = 2)%nat ∧
                 elemNum u = size_of (dim <$> u_bonds u))
           (merged_tensors root_ABD).
Proof.
  destruct (mergeNPT zdot root_ABD) as [r|e] eqn:Hr; [|by vm_compute in Hr].
  exists r. split; [done|]. by apply (mergeNPT_needs zdot root_ABD r).
Defined.

Lemma mergeNPT_labels_witness :
  ∃ r, mergeNPT zdot root_ABD = Ok r ∧
    consistent r ∧ valid (arr r) ∧ NoDup (label r) ∧
    bn r = length (label r) ∧ label r ≡ₚ merged_labels root_ABD.
Proof.
  destruct (mergeNPT zdot root_ABD) as [r|e] eqn:Hr; [|by vm_compute in Hr].
  exists r. split; [done|].
  apply (mergeNPT_labels zdot root_ABD r).
  - apply (bool_decide_unpack _). vm_compute. exact I.
  - exact Hr.
Defined.

Lemma launchNPT_output_witness :
  ∃ out,
    launchNPT zdot construct_spec net_AB_loaded true EmptyString
      = (net_AB_loaded, Ok out) ∧
    match out with
    | inr npt =>
        label npt = label_TOUT net_AB_loaded ∧
        (0 ≤ ibn_TOUT net_AB_loaded →
         ibn npt = Z.to_nat (ibn_TOUT net_AB_loaded))
    | inl u =>
        u_labels u = label_TOUT net_AB_loaded ∧ u_name u = EmptyString ∧
        bondNum u = length (label_TOUT net_AB_loaded) ∧
        (0 ≤ ibn_TOUT net_AB_loaded →
           inBondNum u
           = (Z.to_nat (ibn_TOUT net_AB_loaded)
                `min` length (label_TOUT net_AB_loaded))%nat)
    end.
Proof.
  destruct (launchNPT zdot construct_spec net_AB_loaded true EmptyString)
    as [net1 [out|e]] eqn:H1; [|by vm_compute in H1].
  pose proof (launchNPT_loaded zdot construct_spec net_AB_loaded true
                EmptyString eq_refl) as Hn.
  rewrite H1 in Hn. simpl in Hn. subst net1.
  exists out. split; [done|].
  by apply (launchNPT_output zdot construct_spec net_AB_loaded true
              EmptyString net_AB_loaded out).
Defined.

Lemma contractNPT_ibn_beyond_witness :
  contractNPT zdot (set_ibn t_A 5) t_C = Raise IndexError.
Proof.
  apply (contractNPT_ibn_beyond zdot (set_ibn t_A 5) t_C).
  - repeat split.
  - exact t_C_consistent.
  - apply (bool_decide_unpack _). vm_compute. exact I.
  - apply (bool_decide_unpack _). vm_compute. exact I.
  - intros x Hx Hy. simpl in *. set_solver.
  - left. simpl. lia.
Defined.
